(** * psycopg3 connection pool: a shallow embedding of [psycopg3/pool.py]

    The pool is a Python object whose fields are mutated by client threads,
    worker threads and a scheduler thread.  The embedding keeps one record
    for everything those threads share (the pool's fields, the heap of
    [Connection] and [WaitingClient] objects, the task queue, the scheduler)
    and writes every method as a computation in a small state-and-exception
    monad.  A method that holds [self._lock] for part of its body records
    [ELock]/[EUnlock] in the effect trace, so that "under the lock" and
    "after the lock is released" are statements about that trace.

    Python floats (instants and durations, all read from [time.monotonic]
    or given as configuration) are embedded as exact rationals [Q]. *)

From Stdlib Require Import ZArith QArith Lqa Lia List Bool String.
From stdpp Require Import base list.
Import ListNotations.

Local Open Scope Z_scope.

(** ** Rational comparisons as the source writes them *)

Definition Qltb (a b : Q) : bool := negb (Qle_bool b a).
Definition Qgeb (a b : Q) : bool := Qle_bool b a.
Definition Qgtb (a b : Q) : bool := Qltb b a.
(** Truth value of a Python float: [0.0] is false, everything else true. *)
Definition truthy (x : Q) : bool := negb (Qeq_bool x 0).

(** ** Collaborators: [pq.TransactionStatus] and [connection.Connection] *)

(** Modelled from the spec: [pq.TransactionStatus] is not part of the pool
    module; it has the five statuses of the connection contract, here under
    the names [pool.py] uses for them. *)
Inductive TransactionStatus := IDLE | ACTIVE | INTRANS | INERROR | UNKNOWN.

Definition TransactionStatus_eqb (a b : TransactionStatus) : bool :=
  match a, b with
  | IDLE, IDLE | ACTIVE, ACTIVE | INTRANS, INTRANS
  | INERROR, INERROR | UNKNOWN, UNKNOWN => true
  | _, _ => false
  end.

(** Modelled from the spec: a [Connection] object as the pool sees it.
    [conn_pool] is the attribute [conn._pool] (the identity of the owning
    pool, or [None]), [transaction_status] is
    [conn.pgconn.transaction_status]. *)
Record Connection := mkConnection {
  conn_pool : option nat;
  transaction_status : TransactionStatus;
  conn_closed : bool
}.

(** Modelled from the spec: [Connection.close] is not part of the pool
    module; it is infallible and idempotent and leaves the transaction
    status unknown. *)
Definition Connection_close (c : Connection) : Connection :=
  {| conn_pool := conn_pool c; transaction_status := UNKNOWN; conn_closed := true |}.

Definition set_conn_pool (p : option nat) (c : Connection) : Connection :=
  {| conn_pool := p; transaction_status := transaction_status c;
     conn_closed := conn_closed c |}.

Definition set_status (st : TransactionStatus) (c : Connection) : Connection :=
  {| conn_pool := conn_pool c; transaction_status := st;
     conn_closed := conn_closed c |}.

(** ** Exceptions *)

Inductive ValueErrorKind :=
| MaxconnLtMinconn          (* can't create ... with maxconn < minconn *)
| NumWorkersLt1             (* num_workers must be at least 1 *)
| FromPool (other : nat)    (* it comes from pool ... *)
| FromNoPool.               (* it doesn't come from any pool *)

Inductive Exn :=
| ValueError (why : ValueErrorKind)
| PoolTimeout
| PoolClosed
| IndexError
| AttributeError
| ConnectError.               (* whatever [Connection.connect] or [configure] raised *)

(** ** [WaitingClient] *)

Record WaitingClient := mkWaitingClient {
  event : bool;              (* threading.Event flag *)
  conn : option nat;         (* self.conn, unset until [set] *)
  error : option Exn
}.

Definition WaitingClient_init : WaitingClient :=
  {| event := false; conn := None; error := None |}.

(** ** Maintenance tasks *)

(** [AddConnection] carries its retry state across re-enqueues. *)
Record AddConnectionState := mkAddConnection {
  delay : Q;
  give_up_at : Q
}.

Definition INITIAL_DELAY : Q := 1.
Definition DELAY_JITTER : Q := 1 # 10.
Definition DELAY_BACKOFF : Q := 2.

Definition AddConnection_init : AddConnectionState :=
  {| delay := 0; give_up_at := 0 |}.

Inductive Task :=
| AddInitialConnection
| AddConnection (st : AddConnectionState)
| ReturnConnection (c : nat)
| StopWorker.

(** Modelled from the spec: the scheduler ([_sched.Scheduler]) is a delay
    queue of callbacks; the only callbacks the pool enters are
    [AddConnection.retry] and the stop sentinel [None].  An entry made with
    [enter(delay, ...)] is due [delay] after the instant it was entered. *)
Inductive SchedEntry :=
| SchedRetry (due : Q) (st : AddConnectionState)
| SchedStop.

(** ** Observable effects, in program order *)

Inductive Effect :=
| ELock
| EUnlock
| EConnClose (c : nat)
| ERollback (c : nat)
| ESet (w c : nat)
| EFail (w : nat) (e : Exn)
| EAddTask (t : Task)
| ESchedEnter (d : Q) (st : AddConnectionState)
| ESchedEnterAbs (at_ : Q) (st : AddConnectionState)
| ESchedStop
| EReconnectFailed
| ENconns (n : Z)             (* an assignment to self._nconns *)
| EStartThreads (n : Z).

(** ** The shared state *)

Inductive PoolName := GivenName (s : string) | AutoName (n : Z).

Record State := mkState {
  (* identity and immutable configuration *)
  self : nat;
  name : PoolName;
  minconn : Z;
  maxconn : Z;
  timeout : Q;
  max_idle : Q;
  reconnect_timeout : Q;
  num_workers : Z;
  (* ConnectionPool fields *)
  _nconns : Z;
  _pool : list (nat * Q);          (* deque: index 0 is the left end *)
  _waiting : list nat;             (* deque of WaitingClient references *)
  _closed : bool;
  _wqueue : list Task;             (* queue.Queue, FIFO *)
  _workers : nat;                  (* len(self._workers) *)
  sched : list SchedEntry;
  sched_stopped : bool;
  init_event : bool;               (* the Event shared by the initial tasks *)
  (* object heap: a reference is an index *)
  conns : list Connection;
  waiters : list WaitingClient;
  (* client threads blocked in [pos.wait], named by their position *)
  blocked : list nat;
  (* last reading of time.monotonic *)
  clock : Q;
  (* effects performed so far, oldest first *)
  trace : list Effect
}.

(** Field updates. *)


Definition set_nconns (v : Z) (s : State) : State :=
  {| self := self s; name := name s; minconn := minconn s;
     maxconn := maxconn s; timeout := timeout s; max_idle := max_idle s;
     reconnect_timeout := reconnect_timeout s; num_workers := num_workers s;
     _nconns := v; _pool := _pool s; _waiting := _waiting s;
     _closed := _closed s; _wqueue := _wqueue s; _workers := _workers s;
     sched := sched s; sched_stopped := sched_stopped s;
     init_event := init_event s; conns := conns s; waiters := waiters s;
     blocked := blocked s; clock := clock s; trace := trace s |}.

Definition set_pool (v : list (nat * Q)) (s : State) : State :=
  {| self := self s; name := name s; minconn := minconn s;
     maxconn := maxconn s; timeout := timeout s; max_idle := max_idle s;
     reconnect_timeout := reconnect_timeout s; num_workers := num_workers s;
     _nconns := _nconns s; _pool := v; _waiting := _waiting s;
     _closed := _closed s; _wqueue := _wqueue s; _workers := _workers s;
     sched := sched s; sched_stopped := sched_stopped s;
     init_event := init_event s; conns := conns s; waiters := waiters s;
     blocked := blocked s; clock := clock s; trace := trace s |}.

Definition set_waiting (v : list nat) (s : State) : State :=
  {| self := self s; name := name s; minconn := minconn s;
     maxconn := maxconn s; timeout := timeout s; max_idle := max_idle s;
     reconnect_timeout := reconnect_timeout s; num_workers := num_workers s;
     _nconns := _nconns s; _pool := _pool s; _waiting := v;
     _closed := _closed s; _wqueue := _wqueue s; _workers := _workers s;
     sched := sched s; sched_stopped := sched_stopped s;
     init_event := init_event s; conns := conns s; waiters := waiters s;
     blocked := blocked s; clock := clock s; trace := trace s |}.

Definition set_closed (v : bool) (s : State) : State :=
  {| self := self s; name := name s; minconn := minconn s;
     maxconn := maxconn s; timeout := timeout s; max_idle := max_idle s;
     reconnect_timeout := reconnect_timeout s; num_workers := num_workers s;
     _nconns := _nconns s; _pool := _pool s; _waiting := _waiting s;
     _closed := v; _wqueue := _wqueue s; _workers := _workers s;
     sched := sched s; sched_stopped := sched_stopped s;
     init_event := init_event s; conns := conns s; waiters := waiters s;
     blocked := blocked s; clock := clock s; trace := trace s |}.

Definition set_wqueue (v : list Task) (s : State) : State :=
  {| self := self s; name := name s; minconn := minconn s;
     maxconn := maxconn s; timeout := timeout s; max_idle := max_idle s;
     reconnect_timeout := reconnect_timeout s; num_workers := num_workers s;
     _nconns := _nconns s; _pool := _pool s; _waiting := _waiting s;
     _closed := _closed s; _wqueue := v; _workers := _workers s;
     sched := sched s; sched_stopped := sched_stopped s;
     init_event := init_event s; conns := conns s; waiters := waiters s;
     blocked := blocked s; clock := clock s; trace := trace s |}.

Definition set_sched (v : list SchedEntry) (s : State) : State :=
  {| self := self s; name := name s; minconn := minconn s;
     maxconn := maxconn s; timeout := timeout s; max_idle := max_idle s;
     reconnect_timeout := reconnect_timeout s; num_workers := num_workers s;
     _nconns := _nconns s; _pool := _pool s; _waiting := _waiting s;
     _closed := _closed s; _wqueue := _wqueue s; _workers := _workers s;
     sched := v; sched_stopped := sched_stopped s;
     init_event := init_event s; conns := conns s; waiters := waiters s;
     blocked := blocked s; clock := clock s; trace := trace s |}.

Definition set_sched_stopped (v : bool) (s : State) : State :=
  {| self := self s; name := name s; minconn := minconn s;
     maxconn := maxconn s; timeout := timeout s; max_idle := max_idle s;
     reconnect_timeout := reconnect_timeout s; num_workers := num_workers s;
     _nconns := _nconns s; _pool := _pool s; _waiting := _waiting s;
     _closed := _closed s; _wqueue := _wqueue s; _workers := _workers s;
     sched := sched s; sched_stopped := v; init_event := init_event s;
     conns := conns s; waiters := waiters s; blocked := blocked s;
     clock := clock s; trace := trace s |}.

Definition set_init_event (v : bool) (s : State) : State :=
  {| self := self s; name := name s; minconn := minconn s;
     maxconn := maxconn s; timeout := timeout s; max_idle := max_idle s;
     reconnect_timeout := reconnect_timeout s; num_workers := num_workers s;
     _nconns := _nconns s; _pool := _pool s; _waiting := _waiting s;
     _closed := _closed s; _wqueue := _wqueue s; _workers := _workers s;
     sched := sched s; sched_stopped := sched_stopped s; init_event := v;
     conns := conns s; waiters := waiters s; blocked := blocked s;
     clock := clock s; trace := trace s |}.

Definition set_conns (v : list Connection) (s : State) : State :=
  {| self := self s; name := name s; minconn := minconn s;
     maxconn := maxconn s; timeout := timeout s; max_idle := max_idle s;
     reconnect_timeout := reconnect_timeout s; num_workers := num_workers s;
     _nconns := _nconns s; _pool := _pool s; _waiting := _waiting s;
     _closed := _closed s; _wqueue := _wqueue s; _workers := _workers s;
     sched := sched s; sched_stopped := sched_stopped s;
     init_event := init_event s; conns := v; waiters := waiters s;
     blocked := blocked s; clock := clock s; trace := trace s |}.

Definition set_waiters (v : list WaitingClient) (s : State) : State :=
  {| self := self s; name := name s; minconn := minconn s;
     maxconn := maxconn s; timeout := timeout s; max_idle := max_idle s;
     reconnect_timeout := reconnect_timeout s; num_workers := num_workers s;
     _nconns := _nconns s; _pool := _pool s; _waiting := _waiting s;
     _closed := _closed s; _wqueue := _wqueue s; _workers := _workers s;
     sched := sched s; sched_stopped := sched_stopped s;
     init_event := init_event s; conns := conns s; waiters := v;
     blocked := blocked s; clock := clock s; trace := trace s |}.

Definition set_blocked (v : list nat) (s : State) : State :=
  {| self := self s; name := name s; minconn := minconn s;
     maxconn := maxconn s; timeout := timeout s; max_idle := max_idle s;
     reconnect_timeout := reconnect_timeout s; num_workers := num_workers s;
     _nconns := _nconns s; _pool := _pool s; _waiting := _waiting s;
     _closed := _closed s; _wqueue := _wqueue s; _workers := _workers s;
     sched := sched s; sched_stopped := sched_stopped s;
     init_event := init_event s; conns := conns s; waiters := waiters s;
     blocked := v; clock := clock s; trace := trace s |}.

Definition set_clock (v : Q) (s : State) : State :=
  {| self := self s; name := name s; minconn := minconn s;
     maxconn := maxconn s; timeout := timeout s; max_idle := max_idle s;
     reconnect_timeout := reconnect_timeout s; num_workers := num_workers s;
     _nconns := _nconns s; _pool := _pool s; _waiting := _waiting s;
     _closed := _closed s; _wqueue := _wqueue s; _workers := _workers s;
     sched := sched s; sched_stopped := sched_stopped s;
     init_event := init_event s; conns := conns s; waiters := waiters s;
     blocked := blocked s; clock := v; trace := trace s |}.

Definition set_trace (v : list Effect) (s : State) : State :=
  {| self := self s; name := name s; minconn := minconn s;
     maxconn := maxconn s; timeout := timeout s; max_idle := max_idle s;
     reconnect_timeout := reconnect_timeout s; num_workers := num_workers s;
     _nconns := _nconns s; _pool := _pool s; _waiting := _waiting s;
     _closed := _closed s; _wqueue := _wqueue s; _workers := _workers s;
     sched := sched s; sched_stopped := sched_stopped s;
     init_event := init_event s; conns := conns s; waiters := waiters s;
     blocked := blocked s; clock := clock s; trace := v |}.

(** ** A state-and-exception monad for the methods *)

Inductive Res (A : Type) := Ok (a : A) | Raise (e : Exn).
Arguments Ok {A} a.
Arguments Raise {A} e.

Definition M (A : Type) : Type := State -> Res A * State.

Definition ret {A} (a : A) : M A := fun s => (Ok a, s).
Definition raise {A} (e : Exn) : M A := fun s => (Raise e, s).
Definition bind {A B} (m : M A) (k : A -> M B) : M B :=
  fun s => match m s with
           | (Ok a, s') => k a s'
           | (Raise e, s') => (Raise e, s')
           end.
Definition get : M State := fun s => (Ok s, s).
Definition modify (f : State -> State) : M unit := fun s => (Ok tt, f s).
(** [try: m except: h] *)
Definition try_except {A} (m : M A) (h : Exn -> M A) : M A :=
  fun s => match m s with
           | (Ok a, s') => (Ok a, s')
           | (Raise e, s') => h e s'
           end.

Declare Scope pool_scope.
Delimit Scope pool_scope with pool.
Notation "x <- m ;; k" := (bind m (fun x => k))
  (at level 100, m at next level, right associativity) : pool_scope.
Notation "m ;; k" := (bind m (fun _ => k))
  (at level 100, right associativity) : pool_scope.
Local Open Scope pool_scope.

Definition emit (e : Effect) : M unit :=
  modify (fun s => set_trace (trace s ++ [e]) s).

(** [when b m] is [if b: m]. *)
Definition when (b : bool) (m : M unit) : M unit := if b then m else ret tt.

(** [self._nconns = n] *)
Definition assign_nconns (n : Z) : M unit :=
  modify (set_nconns n);; emit (ENconns n).

(** ** Heap accesses *)

Definition update_conn (c : nat) (f : Connection -> Connection) : M unit :=
  modify (fun s => set_conns (alter f c (conns s)) s).

(** [conn.close()] *)
Definition conn_close (c : nat) : M unit :=
  update_conn c Connection_close;; emit (EConnClose c).

Definition status_of (c : nat) (s : State) : TransactionStatus :=
  match conns s !! c with
  | Some o => transaction_status o
  | None => UNKNOWN
  end.

Definition update_waiter (w : nat) (f : WaitingClient -> WaitingClient) : M unit :=
  modify (fun s => set_waiters (alter f w (waiters s)) s).

(** ** [ConnectionPool] *)

(** [self._wqueue.put(task)] *)
Definition add_task (t : Task) : M unit :=
  modify (fun s => set_wqueue (_wqueue s ++ [t]) s);; emit (EAddTask t).

(** [deque.pop()]: remove and return the rightmost element. *)
Fixpoint pop_right {A} (l : list A) : option (list A * A) :=
  match l with
  | [] => None
  | x :: l' =>
      match pop_right l' with
      | None => Some ([], x)
      | Some (rest, y) => Some (x :: rest, y)
      end
  end.

(** The state [__init__] builds once its arguments are accepted: the fields
    are set, the worker threads and the scheduler thread are started and
    [minconn] initial tasks are queued. *)
Definition init_state (id : nat) (nm : PoolName) (minconn maxconn : Z)
    (timeout max_idle reconnect_timeout : Q) (num_workers : Z) : State :=
  let tasks := repeat AddInitialConnection (Z.to_nat minconn) in
  {| self := id; name := nm; minconn := minconn; maxconn := maxconn;
     timeout := timeout; max_idle := max_idle;
     reconnect_timeout := reconnect_timeout; num_workers := num_workers;
     _nconns := minconn; _pool := []; _waiting := []; _closed := false;
     _wqueue := tasks; _workers := Z.to_nat num_workers;
     sched := []; sched_stopped := false; init_event := false;
     conns := []; waiters := []; blocked := []; clock := 0;
     trace := [EStartThreads num_workers; EStartThreads 1]
              ++ map EAddTask tasks |}.

(** [ConnectionPool.__init__] up to the wait on the initial event.  The
    class attribute [_num_pool] is threaded through; [not name] holds for
    [None] and for the empty string. *)
Definition __init__ (id : nat) (_num_pool : Z) (minconn : Z) (maxconn : option Z)
    (name : option string) (timeout max_idle reconnect_timeout : Q)
    (num_workers : Z) : Res State * Z :=
  let maxconn := match maxconn with None => minconn | Some m => m end in
  if maxconn <? minconn then (Raise (ValueError MaxconnLtMinconn), _num_pool)
  else
    let '(nm, _num_pool) :=
      match name with
      | Some (String a r) => (GivenName (String a r), _num_pool)
      | _ => (AutoName (_num_pool + 1), _num_pool + 1)
      end in
    if num_workers <? 1 then (Raise (ValueError NumWorkersLt1), _num_pool)
    else (Ok (init_state id nm minconn maxconn timeout max_idle
                reconnect_timeout num_workers), _num_pool).

(** The critical section of [getconn]: either a connection popped from the
    pool, or the position of the caller in the waiting queue. *)
Definition getconn_critical : M (nat + nat) :=
  emit ELock;;
  s <- get;;
  if _closed s then emit EUnlock;; raise PoolClosed
  else
    r <- match pop_right (_pool s) with
         | Some (rest, (c, _)) =>
             modify (set_pool rest);; ret (inl c)
         | None =>
             let pos := length (waiters s) in
             modify (set_waiters (waiters s ++ [WaitingClient_init]));;
             modify (fun s => set_waiting (_waiting s ++ [pos]) s);;
             s <- get;;
             when (_nconns s <? maxconn s)
               (assign_nconns (_nconns s + 1);;
                add_task (AddConnection AddConnection_init));;
             ret (inr pos)
         end;;
    emit EUnlock;;
    ret r.

(** [WaitingClient.wait], at the moment [self.event.wait(timeout)] returns:
    it returns [False] when the flag is still unset. *)
Definition WaitingClient_wait (pos : nat) : M nat :=
  s <- get;;
  match waiters s !! pos with
  | None => raise AttributeError
  | Some w =>
      if negb (event w) then raise PoolTimeout
      else match error w with
           | Some e => raise e
           | None => match conn w with
                     | Some c => ret c
                     | None => raise AttributeError
                     end
           end
  end.

(** [WaitingClient.set] and [WaitingClient.fail] *)
Definition WaitingClient_set (pos c : nat) : M unit :=
  update_waiter pos (fun w => {| event := true; conn := Some c; error := error w |});;
  emit (ESet pos c).

Definition WaitingClient_fail (pos : nat) (e : Exn) : M unit :=
  update_waiter pos (fun w => {| event := true; conn := conn w; error := Some e |});;
  emit (EFail pos e).

(** The rest of [getconn], after the critical section. *)
Definition getconn_finish (r : nat + nat) : M nat :=
  c <- match r with
       | inl c => ret c
       | inr pos => WaitingClient_wait pos
       end;;
  s <- get;;
  update_conn c (set_conn_pool (Some (self s)));;
  ret c.

(** [getconn] run without another thread in between. *)
Definition getconn : M nat :=
  r <- getconn_critical;; getconn_finish r.

(** [pool is self], for the value read with [getattr(conn, "_pool", None)]. *)
Definition is_self (pool : option nat) (s : State) : bool :=
  match pool with
  | Some p => Nat.eqb p (self s)
  | None => false
  end.

(** [getattr(conn, "_pool", None)] *)
Definition getattr_pool (c : nat) (s : State) : option nat :=
  match conns s !! c with
  | Some o => conn_pool o
  | None => None
  end.

Definition putconn (c : nat) : M unit :=
  s <- get;;
  let pool := getattr_pool c s in
  if negb (is_self pool s) then
    raise (ValueError match pool with
                      | Some p => FromPool p
                      | None => FromNoPool
                      end)
  else if _closed s then
    update_conn c (set_conn_pool None);;
    conn_close c
  else
    add_task (ReturnConnection c).

(** [_reset_transaction_status].  What [conn.rollback()] does is the
    connection's business: [rb] is [None] when it raises and [Some st] when
    it returns leaving the transaction status [st]. *)
Definition _reset_transaction_status (c : nat) (rb : option TransactionStatus)
    : M unit :=
  s <- get;;
  match status_of c s with
  | IDLE => ret tt
  | INTRANS | INERROR =>
      emit (ERollback c);;
      match rb with
      | Some st => update_conn c (set_status st)
      | None => conn_close c
      end
  | ACTIVE => conn_close c
  | UNKNOWN => ret tt
  end.

(** The critical section of [_add_to_pool]: the waiter to notify and the
    connection to close once the lock is released. *)
Definition _add_to_pool_locked (c : nat) (now : Q)
    : M (option nat * option nat) :=
  emit ELock;;
  s <- get;;
  r <- match _waiting s with
       | pos :: rest =>
           modify (set_waiting rest);;
           ret (Some pos, None)
       | [] =>
           modify (set_pool (_pool s ++ [(c, now)]));;
           s <- get;;
           match _pool s with
           | (c0, t0) :: rest =>
               if (minconn s <? _nconns s) && Qgtb (now - t0) (max_idle s) then
                 modify (set_pool rest);;
                 assign_nconns (_nconns s - 1);;
                 ret (None, Some c0)
               else ret (None, None)
           | [] => raise IndexError
           end
       end;;
  emit EUnlock;;
  ret r.

(** [_add_to_pool]; [now] is the reading of [time.monotonic()]. *)
Definition _add_to_pool (c : nat) (now : Q) (rb : option TransactionStatus)
    : M unit :=
  update_conn c (set_conn_pool None);;
  _reset_transaction_status c rb;;
  s <- get;;
  if TransactionStatus_eqb (status_of c s) UNKNOWN then
    add_task (AddConnection AddConnection_init)
  else
    r <- _add_to_pool_locked c now;;
    match fst r with
    | Some pos => WaitingClient_set pos c
    | None => ret tt
    end;;
    match snd r with
    | Some c0 => conn_close c0
    | None => ret tt
    end.

(** [close], in the four stages another thread can see: the flag, set
    under the lock, and the stop sentinel for the scheduler; one turn of
    the loop that fails the waiting clients; one turn of the loop that
    closes the idle connections; the loop that stops the workers. *)
Definition close_begin : M unit :=
  emit ELock;;
  modify (set_closed true);;
  emit EUnlock;;
  modify (fun s => set_sched (sched s ++ [SchedStop]) s);;
  emit ESchedStop.

Definition close_fail_waiter : M unit :=
  s <- get;;
  match _waiting s with
  | pos :: rest =>
      modify (set_waiting rest);;
      WaitingClient_fail pos PoolClosed
  | [] => raise IndexError
  end.

Definition close_close_idle : M unit :=
  s <- get;;
  match pop_right (_pool s) with
  | Some (rest, (c, _)) =>
      modify (set_pool rest);;
      conn_close c
  | None => raise IndexError
  end.

Definition close_stop_workers : M unit :=
  s <- get;;
  fold_right (fun _ k => add_task StopWorker;; k) (ret tt) (seq 0 (_workers s)).

(** [n] turns of a loop body. *)
Fixpoint turns (n : nat) (body : M unit) : M unit :=
  match n with
  | O => ret tt
  | S n' => body;; turns n' body
  end.

(** [close] run without another thread in between: each [while] loop takes
    as many turns as its deque has entries. *)
Definition close : M unit :=
  close_begin;;
  s <- get;;
  turns (length (_waiting s)) close_fail_waiter;;
  s <- get;;
  turns (length (_pool s)) close_close_idle;;
  close_stop_workers.

(** [_connect]: [cr] is [None] when [Connection.connect] or [configure]
    raises, and [Some st] when they return a connection whose transaction
    status is [st]. *)
Definition _connect (cr : option TransactionStatus) : M nat :=
  match cr with
  | None => raise ConnectError
  | Some st =>
      s <- get;;
      let c := length (conns s) in
      modify (set_conns (conns s ++
        [{| conn_pool := Some (self s); transaction_status := st;
            conn_closed := false |}]));;
      ret c
  end.

(** ** Maintenance tasks *)

(** [AddConnection.retry], the callback the scheduler runs. *)
Definition retry (self : AddConnectionState) : M unit :=
  add_task (AddConnection self).

(** The new [self.delay] and [self.give_up_at] that [_handle_error]
    calculates before it schedules a retry. *)
Definition next_attempt (self : AddConnectionState) (now r : Q) (s : State)
    : AddConnectionState :=
  if Qeq_bool (delay self) 0 then
    let jitter := (INITIAL_DELAY * (2 * DELAY_JITTER * r - DELAY_JITTER))%Q in
    {| delay := (INITIAL_DELAY + jitter)%Q;
       give_up_at := (now + reconnect_timeout s)%Q |}
  else
    {| delay := (delay self * DELAY_BACKOFF)%Q; give_up_at := give_up_at self |}.

(** [AddConnection._handle_error]; [now] is the reading of
    [time.monotonic()] and [r] the draw of [random.random()].  The method
    mutates the task: the result is the task as it was scheduled for a
    retry, or [None] when it gave up. *)
Definition _handle_error (self : AddConnectionState) (now r : Q)
    : M (option AddConnectionState) :=
  if truthy (give_up_at self) && Qgeb now (give_up_at self) then
    emit ELock;;
    s <- get;;
    assign_nconns (_nconns s - 1);;
    emit EUnlock;;
    emit EReconnectFailed;;
    ret None
  else
    s <- get;;
    let self := next_attempt self now r s in
    (if Qltb (now + delay self) (give_up_at self) then
       modify (set_sched (sched s ++ [SchedRetry (now + delay self) self]));;
       emit (ESchedEnter (delay self) self)
     else
       modify (set_sched (sched s ++ [SchedRetry (give_up_at self) self]));;
       emit (ESchedEnterAbs (give_up_at self) self));;
    ret (Some self).

(** [task._run(pool)] for each kind of task. *)
Definition _run (t : Task) (now r : Q) (cr rb : option TransactionStatus)
    : M unit :=
  match t with
  | StopWorker => ret tt
  | AddInitialConnection =>
      c <- _connect cr;;
      _add_to_pool c now rb;;
      s <- get;;
      when (_nconns s <=? Z.of_nat (length (_pool s)))
        (modify (set_init_event true))
  | AddConnection st =>
      oc <- try_except (c <- _connect cr;; ret (Some c)) (fun _ => ret None);;
      match oc with
      | None => _handle_error st now r;; ret tt
      | Some c => _add_to_pool c now rb
      end
  | ReturnConnection c => _add_to_pool c now rb
  end.

(** One turn of the [worker] loop: take the oldest task, run it, and let no
    exception out. *)
Definition worker (now r : Q) (cr rb : option TransactionStatus) : M unit :=
  s <- get;;
  match _wqueue s with
  | [] => ret tt
  | task :: rest =>
      modify (set_wqueue rest);;
      try_except (_run task now r cr rb) (fun _ => ret tt)
  end.

(** The end of [__init__]: [event.wait(timeout=timeout)] has returned. *)
Definition __init__wait : M unit :=
  s <- get;;
  if negb (init_event s) then close;; raise PoolTimeout else ret tt.

(** ** The threads, interleaved

    One [Action] is what one thread does between two points at which it
    does not hold the lock and at which another thread may run: a whole
    method call, except that a client that has to wait in [getconn] stops
    at [pos.wait] and goes on in a later action, and that [close], which
    drains the two deques without the lock, is seen stage by stage.  The
    stages of [close] may be taken in any number and order once the flag
    is set, the scheduler may run any entry that is due, and a worker is
    there for a queued task even after [StopWorker] tasks were taken: more
    interleavings than the threads have, never fewer.  The instants [now]
    are readings of the monotonic clock, so an action that reads an instant
    earlier than the last one read is not possible. *)

Inductive Action :=
| CallGetconn
| WaitReturns (pos : nat)
| CallPutconn (c : nat)
| ClientUses (c : nat) (st : TransactionStatus)
| WorkerRuns (now r : Q) (cr rb : option TransactionStatus)
| SchedulerRuns (i : nat) (now : Q)
| CallClose
| CloseFailsWaiter
| CloseClosesIdle
| CloseStopsWorkers
| InitWaitReturns.

Definition remove_nth {A} (i : nat) (l : list A) : list A :=
  take i l ++ drop (S i) l.

Definition act (a : Action) : M unit :=
  match a with
  | CallGetconn =>
      r <- getconn_critical;;
      match r with
      | inl c => getconn_finish (inl c);; ret tt
      | inr pos => modify (fun s => set_blocked (blocked s ++ [pos]) s)
      end
  | WaitReturns pos =>
      s <- get;;
      if existsb (Nat.eqb pos) (blocked s) then
        modify (set_blocked (List.filter (fun p => negb (Nat.eqb pos p)) (blocked s)));;
        getconn_finish (inr pos);; ret tt
      else ret tt
  | CallPutconn c => putconn c
  | ClientUses c st =>
      s <- get;;
      match conns s !! c with
      | Some o =>
          when (is_self (conn_pool o) s && negb (conn_closed o))
            (update_conn c (set_status st))
      | None => ret tt
      end
  | WorkerRuns now r cr rb =>
      s <- get;;
      when (Qle_bool (clock s) now && Qle_bool 0 r && Qltb r 1)
        (modify (set_clock now);; worker now r cr rb)
  | SchedulerRuns i now =>
      s <- get;;
      when (Qle_bool (clock s) now && negb (sched_stopped s))
        match sched s !! i with
        | Some (SchedRetry due st) =>
            when (Qle_bool due now)
              (modify (set_clock now);;
               modify (set_sched (remove_nth i (sched s)));;
               retry st)
        | Some SchedStop =>
            modify (set_sched (remove_nth i (sched s)));;
            modify (set_sched_stopped true)
        | None => ret tt
        end
  | CallClose => close_begin
  | CloseFailsWaiter =>
      s <- get;;
      when (_closed s && negb (Nat.eqb (length (_waiting s)) 0)) close_fail_waiter
  | CloseClosesIdle =>
      s <- get;;
      when (_closed s && negb (Nat.eqb (length (_pool s)) 0)) close_close_idle
  | CloseStopsWorkers =>
      s <- get;;
      when (_closed s) close_stop_workers
  | InitWaitReturns => __init__wait
  end.

Definition step (s : State) (a : Action) : State := snd (act a s).

Definition run (acts : list Action) (s : State) : State :=
  fold_left step acts s.

(** A state is reachable when a constructor call that raised nothing,
    followed by some interleaving of the threads, leads to it. *)
Definition reachable (s : State) : Prop :=
  exists id np minc maxc nm tmo midle rtmo nw s0 np' acts,
    __init__ id np minc maxc nm tmo midle rtmo nw = (Ok s0, np') /\
    s = run acts s0.

(** * Properties *)

(** ** Comparisons *)

Lemma Qltb_lt (a b : Q) : Qltb a b = true <-> (a < b)%Q.
Proof.
  unfold Qltb. rewrite negb_true_iff, <- not_true_iff_false, Qle_bool_iff.
  split; [apply Qnot_le_lt | apply Qlt_not_le].
Qed.

Lemma Qltb_ge (a b : Q) : Qltb a b = false <-> (b <= a)%Q.
Proof. unfold Qltb. rewrite negb_false_iff. apply Qle_bool_iff. Qed.

Lemma Qgeb_ge (a b : Q) : Qgeb a b = true <-> (b <= a)%Q.
Proof. apply Qle_bool_iff. Qed.


Lemma truthy_zero (x : Q) : truthy x = false <-> (x == 0)%Q.
Proof. unfold truthy. rewrite negb_false_iff. apply Qeq_bool_iff. Qed.

(** ** The deque *)

Lemma pop_right_snoc {A} (l : list A) (x : A) :
  pop_right (l ++ [x]) = Some (l, x).
Proof.
  induction l as [|y l IH]; simpl; [reflexivity|]. now rewrite IH.
Qed.

Lemma pop_right_nil_inv {A} (l : list A) : pop_right l = None -> l = [].
Proof.
  destruct l as [|x l]; simpl; [reflexivity|].
  destruct (pop_right l) as [[? ?]|]; discriminate.
Qed.

Lemma pop_right_some_inv {A} (l rest : list A) (x : A) :
  pop_right l = Some (rest, x) -> l = rest ++ [x].
Proof.
  revert rest. induction l as [|y l IH]; simpl; intros rest H; [discriminate|].
  destruct (pop_right l) as [[r z]|] eqn:E.
  - inversion H; subst. simpl. f_equal. now apply IH.
  - inversion H; subst. now rewrite (pop_right_nil_inv l E).
Qed.

(** ** What a computation leaves alone

    [cfg] is the configuration, fixed by [__init__]; [guarded] are the
    fields the lock protects.  Most of the code touches neither. *)

Definition cfg (s : State) :=
  (self s, minconn s, maxconn s, max_idle s, reconnect_timeout s).

Definition guarded (s : State) :=
  (_nconns s, _pool s, _waiting s, _closed s).

Definition frames {A} (m : M A) : Prop :=
  forall s, cfg (snd (m s)) = cfg s /\ guarded (snd (m s)) = guarded s.

Section Frames.
Context {A B : Type}.

Lemma frames_ret (a : A) : frames (ret a).
Proof. now intros s. Qed.

Lemma frames_raise (e : Exn) : frames (@raise A e).
Proof. now intros s. Qed.

Lemma frames_get : frames get.
Proof. now intros s. Qed.

Lemma frames_bind (m : M A) (k : A -> M B) :
  frames m -> (forall a, frames (k a)) -> frames (bind m k).
Proof.
  intros Hm Hk s. unfold bind. specialize (Hm s).
  destruct (m s) as [[a|e] s']; simpl in *; [|exact Hm].
  destruct (Hk a s') as [-> ->]. exact Hm.
Qed.

Lemma frames_try_except (m : M A) (h : Exn -> M A) :
  frames m -> (forall e, frames (h e)) -> frames (try_except m h).
Proof.
  intros Hm Hh s. unfold try_except. specialize (Hm s).
  destruct (m s) as [[a|e] s']; simpl in *; [exact Hm|].
  destruct (Hh e s') as [-> ->]. exact Hm.
Qed.

End Frames.

Lemma frames_when (b : bool) (m : M unit) : frames m -> frames (when b m).
Proof. destruct b; simpl; [trivial | intros _; apply frames_ret]. Qed.

Lemma frames_emit (e : Effect) : frames (emit e).
Proof. now intros s. Qed.

Lemma frames_update_conn c f : frames (update_conn c f).
Proof. now intros s. Qed.

Lemma frames_update_waiter w f : frames (update_waiter w f).
Proof. now intros s. Qed.

Lemma frames_set_wqueue q : frames (modify (set_wqueue q)).
Proof. now intros s. Qed.

Lemma frames_set_sched q : frames (modify (set_sched q)).
Proof. now intros s. Qed.

Lemma frames_set_sched_stopped b : frames (modify (set_sched_stopped b)).
Proof. now intros s. Qed.

Lemma frames_set_blocked l : frames (modify (set_blocked l)).
Proof. now intros s. Qed.

Lemma frames_set_clock t : frames (modify (set_clock t)).
Proof. now intros s. Qed.

Lemma frames_set_init_event b : frames (modify (set_init_event b)).
Proof. now intros s. Qed.

Lemma frames_set_conns l : frames (modify (set_conns l)).
Proof. now intros s. Qed.

Lemma frames_add_task t : frames (add_task t).
Proof. now intros s. Qed.

Create HintDb frames.
#[local] Hint Resolve frames_ret frames_raise frames_get frames_emit
  frames_update_conn frames_update_waiter frames_set_wqueue frames_set_sched
  frames_set_sched_stopped frames_set_blocked frames_set_clock
  frames_set_init_event frames_set_conns frames_add_task : frames.

(** Goes through a computation by its syntax: binds, branches and the
    leaves known to [frames]. *)
Ltac frames_step :=
  match goal with
  | |- frames (bind _ _) => apply frames_bind
  | |- frames (try_except _ _) => apply frames_try_except
  | |- frames (when _ _) => apply frames_when
  | |- frames (match ?x with _ => _ end) => destruct x
  | |- forall _, _ => intro
  end.
Ltac solve_frames := repeat frames_step; auto with frames.

Lemma frames_conn_close c : frames (conn_close c).
Proof. unfold conn_close. solve_frames. Qed.

Lemma frames_WaitingClient_wait pos : frames (WaitingClient_wait pos).
Proof. unfold WaitingClient_wait. solve_frames. Qed.

Lemma frames_WaitingClient_set pos c : frames (WaitingClient_set pos c).
Proof. unfold WaitingClient_set. solve_frames. Qed.

Lemma frames_WaitingClient_fail pos e : frames (WaitingClient_fail pos e).
Proof. unfold WaitingClient_fail. solve_frames. Qed.

#[local] Hint Resolve frames_conn_close frames_WaitingClient_wait
  frames_WaitingClient_set frames_WaitingClient_fail : frames.

Lemma frames_getconn_finish r : frames (getconn_finish r).
Proof. unfold getconn_finish. solve_frames. Qed.

Lemma frames_putconn c : frames (putconn c).
Proof. unfold putconn. solve_frames. Qed.

Lemma frames_reset_transaction_status c rb :
  frames (_reset_transaction_status c rb).
Proof. unfold _reset_transaction_status. solve_frames. Qed.

Lemma frames_connect cr : frames (_connect cr).
Proof. unfold _connect. solve_frames. Qed.

Lemma frames_retry st : frames (retry st).
Proof. unfold retry. solve_frames. Qed.

#[local] Hint Resolve frames_getconn_finish frames_putconn
  frames_reset_transaction_status frames_connect frames_retry : frames.

(** ** Two invariants of the guarded fields *)

Definition census_below_max (s : State) : Prop := _nconns s <= maxconn s.

Definition no_waiter_with_idle (s : State) : Prop :=
  _waiting s <> [] -> _pool s = [].

Definition Inv (s : State) : Prop :=
  census_below_max s /\ no_waiter_with_idle s.

Definition stable {A} (m : M A) : Prop :=
  forall s, Inv s -> Inv (snd (m s)).

Lemma Inv_frame (s s' : State) :
  cfg s' = cfg s -> guarded s' = guarded s -> Inv s -> Inv s'.
Proof.
  unfold cfg, guarded, Inv, census_below_max, no_waiter_with_idle.
  intros Hc Hg [H1 H2].
  injection Hc as _ _ Hmax _ _. injection Hg as Hn Hp Hw _.
  rewrite Hn, Hp, Hw, Hmax. now split.
Qed.

Lemma frames_stable {A} (m : M A) : frames m -> stable m.
Proof. intros H s HI. destruct (H s). eapply Inv_frame; eauto. Qed.

Lemma stable_bind {A B} (m : M A) (k : A -> M B) :
  stable m -> (forall a, stable (k a)) -> stable (bind m k).
Proof.
  intros Hm Hk s HI. unfold bind. specialize (Hm s HI).
  destruct (m s) as [[a|e] s']; simpl in *; [|exact Hm].
  now apply Hk.
Qed.

Lemma stable_try_except {A} (m : M A) (h : Exn -> M A) :
  stable m -> (forall e, stable (h e)) -> stable (try_except m h).
Proof.
  intros Hm Hh s HI. unfold try_except. specialize (Hm s HI).
  destruct (m s) as [[a|e] s']; simpl in *; [exact Hm|].
  now apply Hh.
Qed.

Lemma bind_ok {A B} (m : M A) (k : A -> M B) (s : State) (a : A) :
  fst (m s) = Ok a -> bind m k s = k a (snd (m s)).
Proof.
  unfold bind. destruct (m s) as [[a'|e] s']; simpl; intros H;
    inversion H; reflexivity.
Qed.

Lemma bind_assoc {A B C} (m : M A) (k : A -> M B) (h : B -> M C) (s : State) :
  bind (bind m k) h s = bind m (fun a => bind (k a) h) s.
Proof.
  unfold bind. destruct (m s) as [[a|e] s']; reflexivity.
Qed.

Lemma stable_when (b : bool) (m : M unit) : stable m -> stable (when b m).
Proof. destruct b; simpl; [trivial|]. intros _ s H. exact H. Qed.

Ltac by_frames := apply frames_stable; solve [solve_frames].

(** Unfolds the monad and the leaves that write a guarded field. *)
Ltac unfold_monad :=
  unfold assign_nconns, add_task, conn_close, update_conn, update_waiter,
    emit, when, try_except, bind, get, modify, ret, raise.

Lemma stable_getconn_critical : stable getconn_critical.
Proof.
  intros s [H1 H2]. unfold Inv, census_below_max, no_waiter_with_idle in *.
  unfold getconn_critical. unfold_monad. simpl.
  destruct (_closed s); simpl; [tauto|].
  destruct (pop_right (_pool s)) as [[rest [c t]]|] eqn:Hp; simpl.
  - apply pop_right_some_inv in Hp.
    split; [lia|]. intros Hw. specialize (H2 Hw).
    rewrite H2 in Hp. destruct rest; discriminate.
  - apply pop_right_nil_inv in Hp.
    destruct (_nconns s <? maxconn s) eqn:E; simpl; (split; [lia|auto]).
Qed.

Lemma stable_add_to_pool_locked c now : stable (_add_to_pool_locked c now).
Proof.
  intros s [H1 H2]. unfold Inv, census_below_max, no_waiter_with_idle in *.
  unfold _add_to_pool_locked. unfold_monad. simpl.
  destruct (_waiting s) as [|pos rest] eqn:Hw; simpl.
  - destruct (_pool s ++ [(c, now)]) as [|[c0 t0] rest] eqn:Hp; simpl.
    + rewrite Hw. split; [lia|tauto].
    + destruct ((minconn s <? _nconns s) && Qgtb (now - t0) (max_idle s));
        simpl; rewrite Hw; (split; [lia|tauto]).
  - split; [lia|]. intros _. apply H2. discriminate.
Qed.

Lemma stable_add_to_pool c now rb : stable (_add_to_pool c now rb).
Proof.
  unfold _add_to_pool.
  repeat (apply stable_bind; [by_frames | intro]).
  destruct (TransactionStatus_eqb _ _); [by_frames|].
  apply stable_bind; [apply stable_add_to_pool_locked | intro].
  by_frames.
Qed.

Lemma stable_handle_error st now r : stable (_handle_error st now r).
Proof.
  intros s [H1 H2]. unfold Inv, census_below_max, no_waiter_with_idle in *.
  unfold _handle_error. unfold_monad.
  destruct (truthy (give_up_at st) && Qgeb now (give_up_at st)); simpl.
  - split; [lia|exact H2].
  - destruct (Qltb _ _); simpl; tauto.
Qed.

(** The draining loops of [close] only remove entries. *)
Lemma stable_close_begin : stable close_begin.
Proof.
  unfold close_begin.
  apply stable_bind; [by_frames | intro].
  apply stable_bind; [|intro; by_frames].
  intros s [H1 H2]. split; [exact H1|exact H2].
Qed.

Lemma stable_close_fail_waiter : stable close_fail_waiter.
Proof.
  intros s [H1 H2]. unfold Inv, census_below_max, no_waiter_with_idle in *.
  unfold close_fail_waiter, WaitingClient_fail. unfold_monad. simpl.
  destruct (_waiting s) as [|pos rest] eqn:E; simpl; [rewrite E; tauto|].
  split; [exact H1|]. intros _. apply H2. discriminate.
Qed.

Lemma stable_close_close_idle : stable close_close_idle.
Proof.
  intros s [H1 H2]. unfold Inv, census_below_max, no_waiter_with_idle in *.
  unfold close_close_idle. unfold_monad. simpl.
  destruct (pop_right (_pool s)) as [[rest [c t]]|] eqn:Hp; simpl; [|tauto].
  apply pop_right_some_inv in Hp.
  split; [exact H1|]. intros Hw. specialize (H2 Hw).
  rewrite H2 in Hp. destruct rest; discriminate.
Qed.

Lemma stable_turns (n : nat) (body : M unit) : stable body -> stable (turns n body).
Proof.
  intros Hb. induction n as [|n IH]; simpl; [intros s H; exact H|].
  apply stable_bind; [exact Hb | intros _; exact IH].
Qed.

Lemma frames_close_stop_workers : frames close_stop_workers.
Proof.
  unfold close_stop_workers. apply frames_bind; [apply frames_get|intros s].
  induction (seq 0 (_workers s)); simpl; solve_frames.
Qed.

Lemma stable_close : stable close.
Proof.
  unfold close.
  apply stable_bind; [apply stable_close_begin | intro].
  apply stable_bind; [by_frames | intro].
  apply stable_bind; [apply stable_turns, stable_close_fail_waiter | intro].
  apply stable_bind; [by_frames | intro].
  apply stable_bind; [apply stable_turns, stable_close_close_idle | intro].
  apply frames_stable, frames_close_stop_workers.
Qed.

Lemma stable_run_task t now r cr rb : stable (_run t now r cr rb).
Proof.
  destruct t; simpl.
  - apply stable_bind; [by_frames | intro].
    apply stable_bind; [apply stable_add_to_pool | intro].
    by_frames.
  - apply stable_bind; [by_frames | intros [c|]].
    + apply stable_add_to_pool.
    + apply stable_bind; [apply stable_handle_error | intro].
      by_frames.
  - apply stable_add_to_pool.
  - by_frames.
Qed.

Lemma stable_worker now r cr rb : stable (worker now r cr rb).
Proof.
  unfold worker.
  apply stable_bind; [by_frames | intro s].
  destruct (_wqueue s); [by_frames|].
  apply stable_bind; [by_frames | intro].
  apply stable_try_except; [apply stable_run_task|].
  intro. by_frames.
Qed.

Lemma stable_act a : stable (act a).
Proof.
  destruct a; simpl.
  - apply stable_bind; [apply stable_getconn_critical | intros [c|pos]];
      by_frames.
  - by_frames.
  - by_frames.
  - by_frames.
  - apply stable_bind; [by_frames | intro s].
    apply stable_when.
    apply stable_bind; [by_frames | intro].
    apply stable_worker.
  - by_frames.
  - apply stable_close_begin.
  - apply stable_bind; [by_frames | intro s].
    apply stable_when, stable_close_fail_waiter.
  - apply stable_bind; [by_frames | intro s].
    apply stable_when, stable_close_close_idle.
  - apply stable_bind; [by_frames | intro s].
    apply stable_when, frames_stable, frames_close_stop_workers.
  - unfold __init__wait.
    apply stable_bind; [by_frames | intro s].
    destruct (negb (init_event s)); [|by_frames].
    apply stable_bind; [apply stable_close | intro].
    by_frames.
Qed.

Lemma Inv_run acts : forall s, Inv s -> Inv (run acts s).
Proof.
  induction acts as [|a acts IH]; simpl; intros s H; [exact H|].
  apply IH. unfold step. now apply stable_act.
Qed.

Lemma init_accepts id np minc maxc nm tmo midle rtmo nw s0 np' :
  __init__ id np minc maxc nm tmo midle rtmo nw = (Ok s0, np') ->
  exists nm',
    s0 = init_state id nm' minc (match maxc with None => minc | Some m => m end)
           tmo midle rtmo nw /\
    minc <= match maxc with None => minc | Some m => m end /\ 1 <= nw.
Proof.
  unfold __init__.
  destruct (_ <? minc) eqn:E1; [discriminate|].
  destruct (match nm with Some (String a r) => _ | _ => _ end) as [nm' np1].
  destruct (nw <? 1) eqn:E2; [discriminate|].
  intros H. inversion H; subst. exists nm'.
  apply Z.ltb_ge in E1, E2. repeat split; [exact E1 | lia].
Qed.

Lemma reachable_Inv s : reachable s -> Inv s.
Proof.
  intros (id & np & minc & maxc & nm & tmo & midle & rtmo & nw & s0 & np'
          & acts & Hinit & ->).
  apply Inv_run.
  apply init_accepts in Hinit as (nm' & -> & Hle & _).
  split; [exact Hle | intros _; reflexivity].
Qed.

(** ** [close] and its stages *)

Lemma turns_fail_waiter (n : nat) : forall s,
  _closed s = true -> length (_waiting s) = n ->
  fst (turns n close_fail_waiter s) = Ok tt /\
  snd (turns n close_fail_waiter s) = run (repeat CloseFailsWaiter n) s /\
  _closed (snd (turns n close_fail_waiter s)) = true /\
  _pool (snd (turns n close_fail_waiter s)) = _pool s.
Proof.
  induction n as [|n IH]; intros s Hc Hn; [now repeat split|].
  destruct (_waiting s) as [|pos rest] eqn:Hw; [discriminate Hn|].
  simpl in Hn. injection Hn as Hn.
  cbn [turns repeat run fold_left].
  assert (Hstep : step s CloseFailsWaiter = snd (close_fail_waiter s)).
  { unfold step, act, bind, get, when. rewrite Hc, Hw. reflexivity. }
  assert (Hbody : close_fail_waiter s =
                  (Ok tt, snd (WaitingClient_fail pos PoolClosed
                                 (set_waiting rest s)))).
  { unfold close_fail_waiter, bind, get, modify. rewrite Hw. reflexivity. }
  rewrite (bind_ok _ _ s tt (f_equal fst Hbody)), Hstep, Hbody.
  cbn [snd].
  destruct (IH (snd (WaitingClient_fail pos PoolClosed (set_waiting rest s)))
              Hc Hn) as (H1 & H2 & H3 & H4).
  repeat split; assumption.
Qed.

Lemma turns_close_idle (n : nat) : forall s,
  _closed s = true -> length (_pool s) = n ->
  fst (turns n close_close_idle s) = Ok tt /\
  snd (turns n close_close_idle s) = run (repeat CloseClosesIdle n) s /\
  _closed (snd (turns n close_close_idle s)) = true.
Proof.
  induction n as [|n IH]; intros s Hc Hn; [now repeat split|].
  destruct (pop_right (_pool s)) as [[rest [c t]]|] eqn:Hp.
  2:{ apply pop_right_nil_inv in Hp. rewrite Hp in Hn. discriminate Hn. }
  pose proof (pop_right_some_inv _ _ _ Hp) as Hpool.
  assert (Hlen : length rest = n).
  { rewrite Hpool, length_app in Hn. simpl in Hn. lia. }
  cbn [turns repeat run fold_left].
  assert (Hstep : step s CloseClosesIdle = snd (close_close_idle s)).
  { unfold step, act, bind, get, when. rewrite Hc, Hn. reflexivity. }
  assert (Hbody : close_close_idle s =
                  (Ok tt, snd (conn_close c (set_pool rest s)))).
  { unfold close_close_idle, bind, get, modify. rewrite Hp. reflexivity. }
  rewrite (bind_ok _ _ s tt (f_equal fst Hbody)), Hstep, Hbody.
  cbn [snd]. apply IH; [exact Hc | exact Hlen].
Qed.

(** [close], run on its own, is its stages in the order of the source. *)
Lemma close_in_stages (s : State) :
  snd (close s) =
  run ([CallClose] ++ repeat CloseFailsWaiter (length (_waiting s))
       ++ repeat CloseClosesIdle (length (_pool s)) ++ [CloseStopsWorkers]) s.
Proof.
  unfold run. rewrite !fold_left_app.
  change (fold_left step [CallClose] s) with (snd (close_begin s)).
  unfold close.
  rewrite (bind_ok close_begin _ s tt eq_refl).
  set (s1 := snd (close_begin s)).
  unfold bind at 1. unfold get at 1. cbv iota beta.
  destruct (turns_fail_waiter (length (_waiting s)) s1 eq_refl eq_refl)
    as (Hok1 & Hrun1 & Hc2 & Hp2).
  change (_waiting s1) with (_waiting s).
  rewrite (bind_ok _ _ s1 tt Hok1).
  unfold run in Hrun1. rewrite <- Hrun1.
  set (s2 := snd (turns _ close_fail_waiter s1)) in *.
  unfold bind at 1. unfold get at 1. cbv iota beta.
  change (_pool s1) with (_pool s) in Hp2. rewrite Hp2.
  rewrite <- Hp2.
  destruct (turns_close_idle (length (_pool s2)) s2 Hc2 eq_refl)
    as (Hok2 & Hrun2 & Hc3).
  rewrite (bind_ok _ _ s2 tt Hok2).
  unfold run in Hrun2. rewrite Hp2 in *. rewrite <- Hrun2.
  set (s3 := snd (turns _ close_close_idle s2)) in *.
  simpl. unfold step, act, bind, get, when. now rewrite Hc3.
Qed.

(** ** The connection census *)

(** A pool of exactly one connection whose only connection is returned in
    the middle of a query: the worker closes it and posts a replacement
    [AddConnection]; every connection attempt of that task fails, and at
    the give-up instant the task decrements the census. *)
Definition one_conn_pool : State :=
  init_state 7 (AutoName 1) 1 1 30 600 2 3.

Definition replacement_gives_up : list Action :=
  [ WorkerRuns 1 0 (Some IDLE) None;     (* initial connection 0 *)
    CallGetconn;                         (* a client takes it *)
    ClientUses 0 ACTIVE;
    CallPutconn 0;                       (* and returns it mid-query *)
    WorkerRuns 2 0 None None;            (* closed, replacement posted *)
    WorkerRuns 10 0 None None;           (* first failure: give up at 12 *)
    SchedulerRuns 0 11;
    WorkerRuns (23 # 2) 0 None None;     (* second failure *)
    SchedulerRuns 0 12;
    WorkerRuns 12 0 None None ].         (* gives up *)

Lemma one_conn_pool_reachable (acts : list Action) :
  reachable (run acts one_conn_pool).
Proof.
  exists 7%nat, 0, 1, (Some 1), None, 30%Q, 600%Q, 2%Q, 3, one_conn_pool, 1, acts.
  split; reflexivity.
Qed.

(** C1, as stated, fails: the state reached by [replacement_gives_up] has
    [_nconns = 0] in a pool whose [minconn] is [1]. *)
Lemma census_falls_below_minconn :
  reachable (run replacement_gives_up one_conn_pool) /\
  minconn (run replacement_gives_up one_conn_pool) = 1 /\
  _nconns (run replacement_gives_up one_conn_pool) = 0 /\
  ~ (minconn (run replacement_gives_up one_conn_pool)
     <= _nconns (run replacement_gives_up one_conn_pool)
     <= maxconn (run replacement_gives_up one_conn_pool)).
Proof.
  split; [apply one_conn_pool_reachable|].
  split; [vm_compute; reflexivity|].
  split; [vm_compute; reflexivity|].
  vm_compute. intros [H _]. apply H. reflexivity.
Qed.

(** C1 (amended): in every reachable state [_nconns <= maxconn].  The grow
    branch of [getconn] never lowers the census and keeps it at or below
    [maxconn]; the eviction branch of [_add_to_pool] never raises it and
    keeps it at or above [minconn] when it was; the give-up branch of
    [_handle_error] lowers it by exactly one whatever its value. *)
Theorem census_below_maxconn (s : State) :
  reachable s ->
  _nconns s <= maxconn s /\
  (let s' := snd (getconn_critical s) in
   cfg s' = cfg s /\ _nconns s <= _nconns s' <= maxconn s) /\
  (forall c now,
     let s' := snd (_add_to_pool_locked c now s) in
     cfg s' = cfg s /\ _nconns s' <= _nconns s /\
     (minconn s <= _nconns s -> minconn s <= _nconns s')) /\
  (forall self now r,
     truthy (give_up_at self) && Qgeb now (give_up_at self) = true ->
     let s' := snd (_handle_error self now r s) in
     cfg s' = cfg s /\ _nconns s' = _nconns s - 1).
Proof.
  intros Hr. apply reachable_Inv in Hr as [Hmax _].
  unfold census_below_max in Hmax.
  split; [exact Hmax|]. split; [|split].
  - unfold getconn_critical. unfold_monad. simpl.
    destruct (_closed s); simpl; [split; [reflexivity|lia]|].
    destruct (pop_right (_pool s)) as [[rest [c t]]|]; simpl;
      [split; [reflexivity|lia]|].
    destruct (_nconns s <? maxconn s) eqn:E; simpl;
      (split; [reflexivity|]); [apply Z.ltb_lt in E|]; lia.
  - intros c now. unfold _add_to_pool_locked. unfold_monad. simpl.
    destruct (_waiting s) as [|pos rest]; simpl;
      [|split; [reflexivity|split; [lia|tauto]]].
    destruct (_pool s ++ [(c, now)]) as [|[c0 t0] rest]; simpl;
      [split; [reflexivity|split; [lia|tauto]]|].
    destruct (minconn s <? _nconns s) eqn:E; simpl;
      [|split; [reflexivity|split; [lia|tauto]]].
    destruct (Qgtb (now - t0) (max_idle s)); simpl;
      (split; [reflexivity|split; [lia|]]); [|tauto].
    apply Z.ltb_lt in E. lia.
  - intros self0 now r Hg. unfold _handle_error. rewrite Hg.
    unfold_monad. simpl. split; reflexivity.
Qed.

Lemma census_below_maxconn_witness :
  reachable (run replacement_gives_up one_conn_pool) /\
  _nconns (run replacement_gives_up one_conn_pool)
  <= maxconn (run replacement_gives_up one_conn_pool).
Proof.
  split; [apply one_conn_pool_reachable|].
  exact (proj1 (census_below_maxconn _
                  (one_conn_pool_reachable replacement_gives_up))).
Defined.

(** ** Waiters and idle connections *)

(** C7: in every reachable state a waiter does not coexist with an idle
    connection; [getconn] enqueues a waiter only when the pool is empty,
    and [_add_to_pool] changes the pool only when nobody is waiting. *)
Theorem waiter_excludes_idle (s : State) :
  reachable s ->
  (_waiting s <> [] -> _pool s = []) /\
  (let s' := snd (getconn_critical s) in
   _waiting s' <> _waiting s ->
   _pool s = [] /\ _pool s' = [] /\
   exists pos, fst (getconn_critical s) = Ok (inr pos) /\
               _waiting s' = _waiting s ++ [pos]) /\
  (forall c now,
     let s' := snd (_add_to_pool_locked c now s) in
     _pool s' <> _pool s -> _waiting s = [] /\ _waiting s' = []).
Proof.
  intros Hr. apply reachable_Inv in Hr as [_ Hw].
  split; [exact Hw|]. split.
  - unfold getconn_critical. unfold_monad. simpl.
    destruct (_closed s); simpl; [congruence|].
    destruct (pop_right (_pool s)) as [[rest [c t]]|] eqn:Hp; simpl;
      [congruence|].
    apply pop_right_nil_inv in Hp.
    destruct (_nconns s <? maxconn s); simpl; intros _;
      (split; [exact Hp|split; [exact Hp|eexists; split; reflexivity]]).
  - intros c now. unfold _add_to_pool_locked. unfold_monad. simpl.
    destruct (_waiting s) as [|pos rest] eqn:E; simpl; [|congruence].
    destruct (_pool s ++ [(c, now)]) as [|[c0 t0] rest]; simpl;
      [rewrite E; tauto|].
    destruct ((minconn s <? _nconns s) && Qgtb (now - t0) (max_idle s));
      simpl; rewrite E; tauto.
Qed.

Lemma waiter_excludes_idle_witness :
  reachable (run [CallGetconn] one_conn_pool) /\
  (_waiting (run [CallGetconn] one_conn_pool) <> [] ->
   _pool (run [CallGetconn] one_conn_pool) = []).
Proof.
  split; [apply one_conn_pool_reachable|].
  exact (proj1 (waiter_excludes_idle _ (one_conn_pool_reachable [CallGetconn]))).
Defined.

(** ** Construction *)

Definition raises_ValueError {A} (r : Res A) : Prop :=
  exists why, r = Raise (ValueError why).





(** ** Returning a connection *)

(** C9: [putconn] raises [ValueError] exactly when [conn._pool] is not this
    pool (absent, or another pool), and then changes nothing; on a closed
    pool it clears [conn._pool] and closes the connection on the spot,
    queueing no task; on an open pool it queues a [ReturnConnection] task
    and leaves the connection as it is. *)
Theorem putconn_cases (s : State) (c : nat) :
  let r := fst (putconn c s) in
  let s' := snd (putconn c s) in
  (raises_ValueError r <-> getattr_pool c s <> Some (self s)) /\
  (getattr_pool c s = None -> r = Raise (ValueError FromNoPool) /\ s' = s) /\
  (forall p, getattr_pool c s = Some p -> p <> self s ->
     r = Raise (ValueError (FromPool p)) /\ s' = s) /\
  (getattr_pool c s = Some (self s) -> _closed s = true ->
     r = Ok tt /\
     (exists o, conns s !! c = Some o /\
        conns s' !! c = Some (Connection_close (set_conn_pool None o))) /\
     getattr_pool c s' = None /\
     _wqueue s' = _wqueue s /\
     trace s' = trace s ++ [EConnClose c]) /\
  (getattr_pool c s = Some (self s) -> _closed s = false ->
     r = Ok tt /\
     conns s' = conns s /\
     _wqueue s' = _wqueue s ++ [ReturnConnection c] /\
     trace s' = trace s ++ [EAddTask (ReturnConnection c)]).
Proof.
  cbv zeta. unfold putconn, is_self. unfold_monad.
  destruct (getattr_pool c s) as [p|] eqn:Hp; simpl.
  - destruct (Nat.eqb p (self s)) eqn:E; simpl.
    + apply Nat.eqb_eq in E. subst p.
      destruct (_closed s) eqn:Hc; simpl.
      * split; [split; [intros [why H]; discriminate H | congruence]|].
        split; [discriminate|]. split; [congruence|].
        split; [|discriminate]. intros _ _.
        unfold getattr_pool in *. simpl.
        destruct (conns s !! c) as [o|] eqn:Ho; [|discriminate].
        rewrite !list_lookup_alter_eq, Ho. simpl.
        repeat split; eauto.
      * split; [split; [intros [why H]; discriminate H | congruence]|].
        split; [discriminate|]. split; [congruence|].
        split; [discriminate|]. intros _ _. repeat split.
    + apply Nat.eqb_neq in E.
      split; [split; [congruence | intros _; eexists; reflexivity]|].
      split; [discriminate|].
      split; [intros q Hq _; inversion Hq; subst; now split|].
      split; intros Hq; inversion Hq; contradiction.
  - split; [split; [discriminate | intros _; eexists; reflexivity]|].
    split; [now split|]. split; [discriminate|].
    split; discriminate.
Qed.

(** A connection checked out of an open pool ... *)
Definition pool_with_one_out : State :=
  run [WorkerRuns 1 0 (Some IDLE) None; CallGetconn] one_conn_pool.

Lemma putconn_cases_witness :
  fst (putconn 0 pool_with_one_out) = Ok tt /\
  conns (snd (putconn 0 pool_with_one_out)) = conns pool_with_one_out /\
  _wqueue (snd (putconn 0 pool_with_one_out))
  = _wqueue pool_with_one_out ++ [ReturnConnection 0%nat] /\
  trace (snd (putconn 0 pool_with_one_out))
  = trace pool_with_one_out ++ [EAddTask (ReturnConnection 0%nat)].
Proof.
  apply (putconn_cases pool_with_one_out 0); reflexivity.
Defined.

(** ** Resetting a returned connection *)

Lemma status_of_lookup (s : State) (c : nat) (o : Connection) :
  conns s !! c = Some o -> status_of c s = transaction_status o.
Proof. unfold status_of. now intros ->. Qed.

Lemma reset_result (c : nat) (rb : option TransactionStatus) (s : State) :
  fst (_reset_transaction_status c rb s) = Ok tt /\
  waiters (snd (_reset_transaction_status c rb s)) = waiters s /\
  _wqueue (snd (_reset_transaction_status c rb s)) = _wqueue s.
Proof.
  unfold _reset_transaction_status. unfold_monad.
  destruct (status_of c s); destruct rb; simpl; auto.
Qed.

(** The part of [_add_to_pool] that precedes the test of the status, and
    the part that follows it. *)
Definition reset_for_deposit (c : nat) (rb : option TransactionStatus)
    : M unit :=
  update_conn c (set_conn_pool None);; _reset_transaction_status c rb.

Definition deposit_live (c : nat) (now : Q) : M unit :=
  r <- _add_to_pool_locked c now;;
  match fst r with
  | Some pos => WaitingClient_set pos c
  | None => ret tt
  end;;
  match snd r with
  | Some c0 => conn_close c0
  | None => ret tt
  end.

Lemma reset_for_deposit_result (c : nat) (rb : option TransactionStatus)
    (s : State) :
  let s1 := snd (reset_for_deposit c rb s) in
  fst (reset_for_deposit c rb s) = Ok tt /\
  cfg s1 = cfg s /\ guarded s1 = guarded s /\
  waiters s1 = waiters s /\ _wqueue s1 = _wqueue s.
Proof.
  cbv zeta.
  assert (Hf : frames (reset_for_deposit c rb))
    by (unfold reset_for_deposit; solve_frames).
  destruct (Hf s) as [Hc Hg].
  split; [|split; [exact Hc|split; [exact Hg|]]];
    unfold reset_for_deposit, bind, update_conn, modify; simpl;
    destruct (reset_result c rb
                (set_conns (alter (set_conn_pool None) c (conns s)) s))
      as (H1 & H2 & H3);
    destruct (_reset_transaction_status c rb _) as [r s1]; simpl in *;
    subst r; auto.
Qed.

Lemma add_to_pool_unfold (c : nat) (now : Q) (rb : option TransactionStatus)
    (s : State) :
  _add_to_pool c now rb s =
  let s1 := snd (reset_for_deposit c rb s) in
  if TransactionStatus_eqb (status_of c s1) UNKNOWN
  then add_task (AddConnection AddConnection_init) s1
  else deposit_live c now s1.
Proof.
  cbv zeta. pose proof (reset_for_deposit_result c rb s) as (Hr & _).
  unfold _add_to_pool, reset_for_deposit in *.
  rewrite <- bind_assoc, (bind_ok _ _ s tt Hr).
  generalize (snd ((update_conn c (set_conn_pool None);;
                    _reset_transaction_status c rb) s)).
  intros s1. unfold bind at 1. unfold get. cbv beta iota.
  destruct (TransactionStatus_eqb _ _); reflexivity.
Qed.

(** C8: [_reset_transaction_status] does nothing to an [IDLE] connection
    (nor to an [UNKNOWN] one); on [INTRANS] and [INERROR] it calls
    [rollback] and, when that raises, closes the connection; on [ACTIVE] it
    closes the connection.  Whenever the status after the reset is
    [UNKNOWN], [_add_to_pool] queues a fresh [AddConnection] and returns:
    the connection reaches neither the pool nor a waiter and [_nconns]
    keeps its value. *)
Theorem reset_then_replace (s : State) (c : nat) (o : Connection)
    (rb : option TransactionStatus) (now : Q) :
  conns s !! c = Some o ->
  (let s1 := snd (_reset_transaction_status c rb s) in
   match transaction_status o with
   | IDLE | UNKNOWN => s1 = s
   | INTRANS | INERROR =>
       match rb with
       | Some st =>
           conns s1 = alter (set_status st) c (conns s) /\
           trace s1 = trace s ++ [ERollback c]
       | None =>
           conns s1 = alter Connection_close c (conns s) /\
           trace s1 = trace s ++ [ERollback c; EConnClose c]
       end
   | ACTIVE =>
       conns s1 = alter Connection_close c (conns s) /\
       trace s1 = trace s ++ [EConnClose c]
   end) /\
  (let s1 := snd (reset_for_deposit c rb s) in
   let s2 := snd (_add_to_pool c now rb s) in
   (status_of c s1 = UNKNOWN <->
      match transaction_status o with
      | IDLE => False
      | INTRANS | INERROR => rb = None \/ rb = Some UNKNOWN
      | ACTIVE | UNKNOWN => True
      end) /\
   (status_of c s1 = UNKNOWN ->
      fst (_add_to_pool c now rb s) = Ok tt /\
      cfg s2 = cfg s /\ guarded s2 = guarded s /\
      waiters s2 = waiters s /\
      _wqueue s2 = _wqueue s ++ [AddConnection AddConnection_init] /\
      trace s2 = trace s1 ++ [EAddTask (AddConnection AddConnection_init)])).
Proof.
  intros Ho. split.
  - cbv zeta. unfold _reset_transaction_status. unfold_monad.
    rewrite (status_of_lookup s c o Ho).
    destruct (transaction_status o); simpl; try reflexivity;
      try (destruct rb; simpl; rewrite <- ?app_assoc; split; reflexivity);
      split; reflexivity.
  - cbv zeta. split.
    + unfold reset_for_deposit, _reset_transaction_status. unfold_monad. simpl.
      unfold status_of at 2. simpl. rewrite list_lookup_alter_eq, Ho. simpl.
      destruct (transaction_status o) eqn:Est; simpl;
        try (destruct rb as [st|]; simpl);
        unfold status_of; simpl;
        rewrite ?list_lookup_alter_eq, ?Ho; simpl; rewrite ?Est;
        try (split; [discriminate|tauto]);
        try (split; [tauto|reflexivity]);
        try (split; [intros _; now left | reflexivity]).
      all: split; [intros ->; now right | intros [H|H]; [discriminate|congruence]].
    + intros Hu. rewrite add_to_pool_unfold. cbv zeta.
      fold (reset_for_deposit c rb). rewrite Hu. simpl.
      destruct (reset_for_deposit_result c rb s) as (_ & Hc & Hg & Hw & Hq).
      unfold add_task. unfold_monad. simpl.
      rewrite Hq. repeat split; assumption.
Qed.

Definition returned_in_transaction : State :=
  run [ClientUses 0 INTRANS] pool_with_one_out.

Lemma reset_then_replace_witness :
  conns (snd (_reset_transaction_status 0 None returned_in_transaction))
  = alter Connection_close 0%nat (conns returned_in_transaction) /\
  trace (snd (_reset_transaction_status 0 None returned_in_transaction))
  = trace returned_in_transaction ++ [ERollback 0; EConnClose 0].
Proof.
  exact (proj1 (reset_then_replace returned_in_transaction 0
                  {| conn_pool := Some 7%nat; transaction_status := INTRANS;
                     conn_closed := false |} None 0 eq_refl)).
Defined.

(** ** Reconnection *)

(** The task after it failed to connect at the instants [fst f], with the
    draws [snd f], for [f] in [fs] in turn; [None] once it has given up.
    Of the pool only [reconnect_timeout] matters here. *)
Fixpoint after_failures (s : State) (self : AddConnectionState)
    (fs : list (Q * Q)) : option AddConnectionState :=
  match fs with
  | [] => Some self
  | (now, r) :: fs' =>
      match fst (_handle_error self now r s) with
      | Ok (Some self') => after_failures s self' fs'
      | _ => None
      end
  end.

(** How [_handle_error] enters the retry of [self] into the scheduler. *)
Definition retry_scheduled (self : AddConnectionState) (now : Q)
    (s s' : State) : Prop :=
  ((now + delay self < give_up_at self)%Q ->
   sched s' = sched s ++ [SchedRetry (now + delay self) self] /\
   trace s' = trace s ++ [ESchedEnter (delay self) self]) /\
  ((give_up_at self <= now + delay self)%Q ->
   sched s' = sched s ++ [SchedRetry (give_up_at self) self] /\
   trace s' = trace s ++ [ESchedEnterAbs (give_up_at self) self]).


Lemma handle_error_retries (self : AddConnectionState) (now r : Q) (s : State) :
  truthy (give_up_at self) && Qgeb now (give_up_at self) = false ->
  let self' := next_attempt self now r s in
  let s' := snd (_handle_error self now r s) in
  fst (_handle_error self now r s) = Ok (Some self') /\
  cfg s' = cfg s /\ guarded s' = guarded s /\
  retry_scheduled self' now s s'.
Proof.
  intros H. cbv zeta. unfold _handle_error, retry_scheduled. rewrite H.
  unfold_monad. simpl.
  destruct (Qltb _ _) eqn:E; simpl.
  - apply Qltb_lt in E. do 3 (split; [reflexivity|]).
    split; intros H'; [now split|].
    exfalso. revert E H'. apply Qlt_not_le.
  - apply Qltb_ge in E. do 3 (split; [reflexivity|]).
    split; intros H'; [|now split].
    exfalso. revert H' E. apply Qlt_not_le.
Qed.

(** C10: a fresh [AddConnection] has [give_up_at = 0.0], which is false, so
    its first [_handle_error] always schedules a retry: the census and the
    [reconnect_failed] hook are left alone, whatever the instant, the draw
    and [reconnect_timeout].  A task that gave up has therefore failed to
    connect at least twice. *)
Theorem first_failure_retries (s : State) (now r : Q) :
  let res := fst (_handle_error AddConnection_init now r s) in
  let s' := snd (_handle_error AddConnection_init now r s) in
  (exists self',
     res = Ok (Some self') /\
     give_up_at self' = (now + reconnect_timeout s)%Q /\
     retry_scheduled self' now s s') /\
  _nconns s' = _nconns s /\
  ~ In EReconnectFailed (drop (length (trace s)) (trace s')) /\
  (forall fs, after_failures s AddConnection_init fs = None ->
              (2 <= length fs)%nat).
Proof.
  cbv zeta.
  assert (Hno : truthy (give_up_at AddConnection_init)
                && Qgeb now (give_up_at AddConnection_init) = false)
    by reflexivity.
  destruct (handle_error_retries _ now r s Hno) as (Hres & Hc & Hg & Hs).
  split; [|split; [|split]].
  - eexists. split; [exact Hres|]. split; [reflexivity|exact Hs].
  - unfold guarded in Hg. congruence.
  - destruct Hs as [Hlt Hge].
    destruct (Qlt_le_dec
                (now + delay (next_attempt AddConnection_init now r s))
                (give_up_at (next_attempt AddConnection_init now r s)))
      as [H|H]; [apply Hlt in H | apply Hge in H]; destruct H as [_ ->];
      rewrite drop_app_length; simpl; intros [H|[]]; discriminate H.
  - intros [|[t1 r1] [|f2 fs]] H; simpl in *.
    + discriminate H.
    + assert (Hno1 : truthy (give_up_at AddConnection_init)
                     && Qgeb t1 (give_up_at AddConnection_init) = false)
        by reflexivity.
      destruct (handle_error_retries _ t1 r1 s Hno1) as (Hres1 & _).
      rewrite Hres1 in H. discriminate H.
    + lia.
Qed.

Lemma first_failure_retries_witness :
  (2 <= length [(10 : Q, 0 : Q); (12 : Q, 0 : Q)])%nat.
Proof.
  apply (first_failure_retries one_conn_pool 10 0). reflexivity.
Defined.










(** ** The idle connections: last in, first out; oldest evicted *)

Lemma getconn_critical_pops (s : State) (rest : list (nat * Q)) (c : nat) (t : Q) :
  _closed s = false ->
  _pool s = rest ++ [(c, t)] ->
  fst (getconn_critical s) = Ok (inl c) /\
  _pool (snd (getconn_critical s)) = rest /\
  _waiting (snd (getconn_critical s)) = _waiting s /\
  _nconns (snd (getconn_critical s)) = _nconns s.
Proof.
  intros Hc Hp. unfold getconn_critical. unfold_monad. simpl.
  rewrite Hc, Hp, pop_right_snoc. simpl. repeat split.
Qed.

(** [deposit_live] when nobody is waiting; [(c0, t0)] is the oldest entry
    once the new one is appended. *)
Lemma deposit_live_idle (s : State) (c : nat) (now : Q)
    (c0 : nat) (t0 : Q) (rest : list (nat * Q)) :
  _waiting s = [] ->
  _pool s ++ [(c, now)] = (c0, t0) :: rest ->
  let s' := snd (deposit_live c now s) in
  fst (deposit_live c now s) = Ok tt /\
  cfg s' = cfg s /\ _waiting s' = [] /\ _closed s' = _closed s /\
  if (minconn s <? _nconns s) && Qgtb (now - t0) (max_idle s) then
    _pool s' = rest /\ _nconns s' = _nconns s - 1 /\
    conns s' = alter Connection_close c0 (conns s) /\
    trace s' = trace s ++ [ELock; ENconns (_nconns s - 1); EUnlock;
                           EConnClose c0]
  else
    _pool s' = _pool s ++ [(c, now)] /\ _nconns s' = _nconns s /\
    conns s' = conns s /\
    trace s' = trace s ++ [ELock; EUnlock].
Proof.
  intros Hw Hp. cbv zeta.
  unfold deposit_live, _add_to_pool_locked. unfold_monad. simpl.
  rewrite Hw. simpl. rewrite Hp. simpl.
  destruct ((minconn s <? _nconns s) && Qgtb (now - t0) (max_idle s));
    simpl; rewrite <- ?app_assoc, ?Hw, ?Hp; repeat split.
Qed.

(** [deposit_live] when somebody is waiting: the head waiter gets the
    connection; the pool and the census are left alone. *)
Lemma deposit_live_waiter (s : State) (c : nat) (now : Q)
    (pos : nat) (rest : list nat) :
  _waiting s = pos :: rest ->
  let s' := snd (deposit_live c now s) in
  fst (deposit_live c now s) = Ok tt /\
  cfg s' = cfg s /\ _waiting s' = rest /\ _closed s' = _closed s /\
  _pool s' = _pool s /\ _nconns s' = _nconns s /\
  conns s' = conns s /\ _wqueue s' = _wqueue s /\
  waiters s' =
    alter (fun w => {| event := true; conn := Some c; error := error w |})
      pos (waiters s) /\
  trace s' = trace s ++ [ELock; EUnlock; ESet pos c].
Proof.
  intros Hw. cbv zeta.
  unfold deposit_live, _add_to_pool_locked, WaitingClient_set.
  unfold_monad. simpl. rewrite Hw. simpl.
  rewrite <- !app_assoc. repeat split.
Qed.

Definition live_after_reset (c : nat) (rb : option TransactionStatus)
    (s : State) : Prop :=
  status_of c (snd (reset_for_deposit c rb s)) <> UNKNOWN.

Lemma add_to_pool_live (c : nat) (now : Q) (rb : option TransactionStatus)
    (s : State) :
  live_after_reset c rb s ->
  _add_to_pool c now rb s = deposit_live c now (snd (reset_for_deposit c rb s)).
Proof.
  unfold live_after_reset. intros H. rewrite add_to_pool_unfold. cbv zeta.
  destruct (status_of c _); try reflexivity. contradiction.
Qed.

Lemma evict_condition (s : State) (now t0 : Q) :
  (minconn s <? _nconns s) && Qgtb (now - t0) (max_idle s) = true <->
  minconn s < _nconns s /\ (max_idle s < now - t0)%Q.
Proof.
  rewrite andb_true_iff, Z.ltb_lt. unfold Qgtb. now rewrite Qltb_lt.
Qed.

(** A deposit into a pool with nobody waiting, in the terms of the state
    before it. *)
Lemma add_to_pool_idle (s : State) (c : nat) (now : Q)
    (rb : option TransactionStatus) (c0 : nat) (t0 : Q) (rest : list (nat * Q)) :
  _waiting s = [] ->
  live_after_reset c rb s ->
  _pool s ++ [(c, now)] = (c0, t0) :: rest ->
  let s1 := snd (reset_for_deposit c rb s) in
  let s' := snd (_add_to_pool c now rb s) in
  cfg s' = cfg s /\ _waiting s' = [] /\ _closed s' = _closed s /\
  if (minconn s <? _nconns s) && Qgtb (now - t0) (max_idle s) then
    _pool s' = rest /\ _nconns s' = _nconns s - 1 /\
    conns s' = alter Connection_close c0 (conns s1) /\
    trace s' = trace s1 ++ [ELock; ENconns (_nconns s - 1); EUnlock;
                            EConnClose c0]
  else
    _pool s' = _pool s ++ [(c, now)] /\ _nconns s' = _nconns s /\
    conns s' = conns s1 /\
    trace s' = trace s1 ++ [ELock; EUnlock].
Proof.
  intros Hw Hlive Hp. cbv zeta. rewrite (add_to_pool_live c now rb s Hlive).
  destruct (reset_for_deposit_result c rb s) as (_ & Hc & Hg & _).
  set (s1 := snd (reset_for_deposit c rb s)) in *.
  unfold cfg, guarded in Hc, Hg.
  injection Hc as Hself Hmin Hmax Hidle Hrt.
  injection Hg as Hn Hpool Hwait Hclosed.
  rewrite <- Hwait in Hw. rewrite <- Hpool in Hp.
  destruct (deposit_live_idle s1 c now c0 t0 rest Hw Hp) as (_ & Hc' & Hw' & Hcl & H).
  rewrite Hmin, Hn, Hidle, Hpool in H. rewrite Hc', Hcl.
  unfold cfg. rewrite Hself, Hmin, Hmax, Hidle, Hrt.
  repeat split; assumption.
Qed.

Lemma last_deposited_is_popped (s : State) (c : nat) (now : Q)
    (rb : option TransactionStatus) :
  _waiting s = [] ->
  _closed s = false ->
  live_after_reset c rb s ->
  (0 <= max_idle s)%Q ->
  let s' := snd (_add_to_pool c now rb s) in
  (fst (getconn_critical s') = Ok (inl c) /\
   _pool s' = _pool (snd (getconn_critical s')) ++ [(c, now)]) /\
  cfg s' = cfg s /\ _waiting s' = [] /\ _closed s' = false.
Proof.
  intros Hw Hcl Hlive Hidle. cbv zeta.
  destruct (_pool s ++ [(c, now)]) as [|[c0 t0] rest] eqn:Hp;
    [symmetry in Hp; now apply app_cons_not_nil in Hp|].
  destruct (add_to_pool_idle s c now rb c0 t0 rest Hw Hlive Hp)
    as (Hc' & Hw' & Hcl' & H).
  rewrite Hcl in Hcl'.
  split; [|repeat split; assumption].
  assert (Hlast : exists front, _pool (snd (_add_to_pool c now rb s))
                                = front ++ [(c, now)]).
  { destruct ((minconn s <? _nconns s) && Qgtb (now - t0) (max_idle s)) eqn:E.
    - destruct H as (Hpool & _). apply evict_condition in E as [_ Hage].
      destruct (_pool s) as [|e front]; simpl in Hp.
      + injection Hp as _ Ht _. rewrite <- Ht in Hage. exfalso. lra.
      + injection Hp as _ Hrest. exists front. now rewrite Hrest.
    - destruct H as (Hpool & _). eexists. exact Hpool. }
  destruct Hlast as [front Hfront].
  destruct (getconn_critical_pops _ front c now Hcl' Hfront) as (Hr & Hp' & _).
  split; [exact Hr|]. now rewrite Hp'.
Qed.


(** A pool of one to two connections that has grown to two; connection 0
    sits idle since instant 3 and connection 1 is about to be returned. *)
Definition two_conn_pool : State :=
  init_state 7 (AutoName 1) 1 2 30 600 2 3.



(** ** Deposits that go wrong *)

(** How many holders the pool's own bookkeeping knows for connection [c]:
    entries of [_pool], a client it is checked out to ([conn._pool] is the
    pool), tasks in the queue that carry it. *)
Definition is_return_of (c : nat) (t : Task) : bool :=
  match t with
  | ReturnConnection c' => Nat.eqb c c'
  | _ => false
  end.

Definition holders (c : nat) (s : State) : nat :=
  length (List.filter (fun e => Nat.eqb c (fst e)) (_pool s))
  + (if is_self (getattr_pool c s) s then 1 else 0)
  + length (List.filter (is_return_of c) (_wqueue s)).

(** A second client waits and the pool grows; [close] comes before the
    worker gets to the [AddConnection] task. *)
Definition close_before_grow : list Action :=
  [ WorkerRuns 1 0 (Some IDLE) None;   (* initial connection 0 *)
    CallGetconn;                       (* taken *)
    CallGetconn;                       (* waiter 0; AddConnection queued *)
    CallClose; CloseFailsWaiter; CloseStopsWorkers;
    WaitReturns 0;                     (* the waiter leaves with PoolClosed *)
    WorkerRuns 2 0 (Some IDLE) None ]. (* connection 1 is deposited *)

(** C2 fails on the code: [_add_to_pool] does not look at [_closed].  The
    connection made by the [AddConnection] task that runs after [close] is
    appended to [_pool] and stays open. *)
Theorem deposit_into_closed_pool :
  let s := run close_before_grow two_conn_pool in
  reachable s /\
  _closed s = true /\
  _pool s = [(1%nat, 2 : Q)] /\
  conns s !! 1%nat = Some {| conn_pool := None; transaction_status := IDLE;
                             conn_closed := false |} /\
  ~ In (EConnClose 1) (trace s).
Proof.
  cbv zeta. split.
  { exists 7%nat, 0, 1, (Some 2), None, 30%Q, 600%Q, 2%Q, 3, two_conn_pool, 1,
      close_before_grow. split; reflexivity. }
  split; [vm_compute; reflexivity|].
  split; [vm_compute; reflexivity|].
  split; [vm_compute; reflexivity|].
  vm_compute. intuition discriminate.
Qed.

(** The only connection is out; a second client waits and times out; the
    connection is then returned. *)
Definition return_after_timeout : list Action :=
  [ WorkerRuns 1 0 (Some IDLE) None;   (* initial connection 0 *)
    CallGetconn;                       (* taken *)
    CallGetconn;                       (* waiter 0, the pool is at maxconn *)
    WaitReturns 0;                     (* pos.wait times out *)
    CallPutconn 0;
    WorkerRuns 2 0 None None ].        (* the worker deposits connection 0 *)

(** C3 fails on the code: the waiter that timed out is still in [_waiting];
    [_add_to_pool] pops it and calls [set] on it, and nothing puts the
    connection back.  Afterwards the open connection has no holder, while
    [_nconns] still counts it: the next [getconn] finds no connection,
    cannot grow the pool, and times out. *)
Theorem timed_out_waiter_keeps_connection :
  let s := run return_after_timeout one_conn_pool in
  fst (act (WaitReturns 0) (run (take 3 return_after_timeout) one_conn_pool))
  = Raise PoolTimeout /\
  reachable s /\
  waiters s !! 0%nat = Some {| event := true; conn := Some 0%nat; error := None |} /\
  blocked s = [] /\
  conns s !! 0%nat = Some {| conn_pool := None; transaction_status := IDLE;
                             conn_closed := false |} /\
  holders 0 s = 0%nat /\
  _pool s = [] /\ _wqueue s = [] /\
  _nconns s = 1 /\ maxconn s = 1 /\
  fst (getconn s) = Raise PoolTimeout /\
  _wqueue (snd (getconn s)) = [].
Proof.
  cbv zeta. split; [vm_compute; reflexivity|].
  split; [apply one_conn_pool_reachable|].
  repeat split; vm_compute; reflexivity.
Qed.

(** * More of the pool *)

(** ** Relations every step respects *)

Section Respects.
Variable R : State -> State -> Prop.
Hypothesis R_refl : forall s, R s s.
Hypothesis R_trans : forall a b c, R a b -> R b c -> R a c.

Definition respects {A} (m : M A) : Prop := forall s, R s (snd (m s)).

Lemma respects_ret {A} (a : A) : respects (ret a).
Proof. intros s. apply R_refl. Qed.

Lemma respects_raise {A} (e : Exn) : respects (@raise A e).
Proof. intros s. apply R_refl. Qed.

Lemma respects_get : respects get.
Proof. intros s. apply R_refl. Qed.

Lemma respects_modify (f : State -> State) :
  (forall s, R s (f s)) -> respects (modify f).
Proof. intros H s. apply H. Qed.

Lemma respects_bind {A B} (m : M A) (k : A -> M B) :
  respects m -> (forall a, respects (k a)) -> respects (bind m k).
Proof.
  intros Hm Hk s. unfold bind. specialize (Hm s).
  destruct (m s) as [[a|e] s']; simpl in *; [|exact Hm].
  eapply R_trans; [exact Hm | apply Hk].
Qed.

Lemma respects_try_except {A} (m : M A) (h : Exn -> M A) :
  respects m -> (forall e, respects (h e)) -> respects (try_except m h).
Proof.
  intros Hm Hh s. unfold try_except. specialize (Hm s).
  destruct (m s) as [[a|e] s']; simpl in *; [exact Hm|].
  eapply R_trans; [exact Hm | apply Hh].
Qed.

Lemma respects_when (b : bool) (m : M unit) : respects m -> respects (when b m).
Proof. destruct b; simpl; [trivial | intros _; apply respects_ret]. Qed.

Lemma respects_turns (n : nat) (body : M unit) :
  respects body -> respects (turns n body).
Proof.
  intros Hb. induction n as [|n IH]; simpl; [apply respects_ret|].
  apply respects_bind; [exact Hb | intros _; exact IH].
Qed.

Lemma respects_fold_tasks {X} (l : list X) (m : M unit) :
  respects m -> respects (fold_right (fun _ k => m;; k) (ret tt) l).
Proof.
  intros Hm. induction l as [|x l IH]; simpl; [apply respects_ret|].
  apply respects_bind; [exact Hm | intros _; exact IH].
Qed.

Lemma respects_run (acts : list Action) :
  (forall a, respects (act a)) -> forall s, R s (run acts s).
Proof.
  intros H. induction acts as [|a acts IH]; simpl; intros s; [apply R_refl|].
  eapply R_trans; [apply (H a s) | apply IH].
Qed.
End Respects.

(** Every method, down to the reads and writes of the state. *)
Ltac unfold_methods :=
  unfold act, __init__wait, worker, _run, retry, close, close_begin,
    close_fail_waiter, close_close_idle, close_stop_workers, putconn,
    getconn_finish, getconn_critical, _add_to_pool, _add_to_pool_locked,
    _reset_transaction_status, _handle_error, _connect, WaitingClient_wait,
    WaitingClient_set, WaitingClient_fail, assign_nconns, add_task,
    conn_close, update_conn, update_waiter, emit.

(** Goes through a computation by its syntax; [leaf] proves [R s (f s)] for
    each write [modify f]. *)
Ltac respects_step leaf :=
  match goal with
  | |- respects _ (bind _ _) => apply respects_bind; [assumption| |]
  | |- respects _ (try_except _ _) =>
      apply respects_try_except; [assumption| |]
  | |- respects _ (when _ _) => apply respects_when; [assumption|]
  | |- respects _ (turns _ _) => apply respects_turns; [assumption|assumption|]
  | |- respects _ (fold_right _ _ _) =>
      apply respects_fold_tasks; [assumption|assumption|]
  | |- respects _ (ret _) => apply respects_ret; assumption
  | |- respects _ (raise _) => apply respects_raise; assumption
  | |- respects _ get => apply respects_get; assumption
  | |- respects _ (modify _) => apply respects_modify; intro; leaf
  | |- respects _ (match ?x with _ => _ end) => destruct x
  | |- forall _, _ => intro
  end.

(** ** Closing is for good *)

Definition stays_closed (s s' : State) : Prop :=
  _closed s = true -> _closed s' = true.

Lemma stays_closed_refl s : stays_closed s s.
Proof. intros H. exact H. Qed.

Lemma stays_closed_trans a b c :
  stays_closed a b -> stays_closed b c -> stays_closed a c.
Proof. unfold stays_closed. auto. Qed.

Lemma act_stays_closed (a : Action) : respects stays_closed (act a).
Proof.
  pose proof stays_closed_refl as Hr. pose proof stays_closed_trans as Ht.
  destruct a; unfold_methods;
    repeat respects_step ltac:(unfold stays_closed; simpl; auto).
Qed.

(** X1: [_closed] is set by [close] and by nothing reset: whatever the
    threads do after [close], the pool stays closed and [getconn] raises
    [PoolClosed], queueing neither a waiter nor a task. *)
Theorem getconn_after_close (s : State) (acts : list Action) :
  let s' := run acts (snd (close s)) in
  _closed s' = true /\
  fst (getconn s') = Raise PoolClosed /\
  guarded (snd (getconn s')) = guarded s' /\
  _wqueue (snd (getconn s')) = _wqueue s' /\
  waiters (snd (getconn s')) = waiters s'.
Proof.
  cbv zeta.
  assert (Hc : _closed (run acts (snd (close s))) = true).
  { apply (respects_run stays_closed stays_closed_refl stays_closed_trans acts
             act_stays_closed).
    unfold close. rewrite (bind_ok close_begin _ s tt eq_refl).
    pose proof stays_closed_refl as Hr. pose proof stays_closed_trans as Ht.
    assert (H : respects stays_closed
                  (s0 <- get;;
                   turns (length (_waiting s0)) close_fail_waiter;;
                   s1 <- get;;
                   turns (length (_pool s1)) close_close_idle;;
                   close_stop_workers)).
    { unfold_methods.
      repeat respects_step ltac:(unfold stays_closed; simpl; auto). }
    apply H. reflexivity. }
  split; [exact Hc|].
  unfold getconn, getconn_critical. unfold_monad. simpl. rewrite Hc. simpl.
  repeat split; unfold guarded; simpl; congruence.
Qed.

(** ** Predicates every step keeps *)

Section Keeps.
Variable P : State -> Prop.

Definition keeps {A} (m : M A) : Prop := forall s, P s -> P (snd (m s)).

Lemma keeps_bind {A B} (m : M A) (k : A -> M B) :
  keeps m -> (forall a, keeps (k a)) -> keeps (bind m k).
Proof.
  intros Hm Hk s HP. unfold bind. specialize (Hm s HP).
  destruct (m s) as [[a|e] s']; simpl in *; [|exact Hm].
  now apply Hk.
Qed.


Lemma keeps_when (b : bool) (m : M unit) : keeps m -> keeps (when b m).
Proof. destruct b; simpl; [trivial|]. intros _ s H. exact H. Qed.

Lemma keeps_run (acts : list Action) :
  (forall a, keeps (act a)) -> forall s, P s -> P (run acts s).
Proof.
  intros H. induction acts as [|a acts IH]; simpl; intros s HP; [exact HP|].
  apply IH. now apply H.
Qed.

Lemma respects_keeps (R : State -> State -> Prop) {A} (m : M A) :
  (forall s s', R s s' -> P s -> P s') -> respects R m -> keeps m.
Proof. intros HR Hm s HP. exact (HR _ _ (Hm s) HP). Qed.
End Keeps.

(** ** The census from below *)


















(** ** What [close] leaves behind *)

(** [pos.fail(PoolClosed(...))] and a run of them. *)
Definition failed_closed (w : WaitingClient) : WaitingClient :=
  {| event := true; conn := conn w; error := Some PoolClosed |}.

Definition alter_all {X} (f : X -> X) (l : list nat) (h : list X) : list X :=
  fold_left (fun h i => alter f i h) l h.

Lemma alter_all_lookup_out {X} (f : X -> X) (l : list nat) :
  forall (h : list X) (i : nat), ~ In i l -> alter_all f l h !! i = h !! i.
Proof.
  induction l as [|j l IH]; intros h i Hin; [reflexivity|].
  simpl. rewrite IH by (intros H; apply Hin; now right).
  apply list_lookup_alter_ne. intros ->. apply Hin. now left.
Qed.

Lemma alter_all_lookup_in {X} (f : X -> X) (l : list nat) :
  (forall x, f (f x) = f x) ->
  forall (h : list X) (i : nat),
    In i l -> alter_all f l h !! i = f <$> h !! i.
Proof.
  intros Hf. induction l as [|j l IH]; intros h i Hin; [destruct Hin|].
  simpl. destruct (in_dec Nat.eq_dec i l) as [Hl|Hl].
  - rewrite (IH _ _ Hl), list_lookup_alter.
    destruct (decide (j = i)) as [->|Hne]; [|reflexivity].
    destruct (h !! i); simpl; [now rewrite Hf | reflexivity].
  - destruct Hin as [->|Hin]; [|contradiction].
    rewrite (alter_all_lookup_out f l _ i Hl). apply list_lookup_alter_eq.
Qed.

Lemma turns_fail_waiter_all (l : list nat) : forall s,
  _waiting s = l ->
  turns (length l) close_fail_waiter s =
  (Ok tt,
   set_trace (trace s ++ map (fun pos => EFail pos PoolClosed) l)
     (set_waiters (alter_all failed_closed l (waiters s))
        (set_waiting [] s))).
Proof.
  induction l as [|pos l IH]; intros s Hw.
  - simpl. unfold ret. f_equal. destruct s; simpl in *; subst.
    now rewrite app_nil_r.
  - cbn [length turns].
    assert (Hbody : close_fail_waiter s =
                    (Ok tt, snd (WaitingClient_fail pos PoolClosed
                                   (set_waiting l s)))).
    { unfold close_fail_waiter, bind, get, modify. rewrite Hw. reflexivity. }
    rewrite (bind_ok _ _ s tt (f_equal fst Hbody)), Hbody. cbn [snd].
    rewrite IH by reflexivity. simpl. rewrite <- app_assoc. reflexivity.
Qed.

Lemma turns_close_idle_all (l : list (nat * Q)) : forall s,
  _pool s = l ->
  turns (length l) close_close_idle s =
  (Ok tt,
   set_trace (trace s ++ map (fun e => EConnClose (fst e)) (rev l))
     (set_conns (alter_all Connection_close (map fst (rev l)) (conns s))
        (set_pool [] s))).
Proof.
  induction l as [|e l IH] using rev_ind; intros s Hp.
  - simpl. unfold ret. f_equal. destruct s; simpl in *; subst.
    now rewrite app_nil_r.
  - rewrite length_app, Nat.add_comm. cbn [length Nat.add turns].
    destruct e as [c t].
    assert (Hbody : close_close_idle s =
                    (Ok tt, snd (conn_close c (set_pool l s)))).
    { unfold close_close_idle, bind, get, modify.
      rewrite Hp, pop_right_snoc. reflexivity. }
    rewrite (bind_ok _ _ s tt (f_equal fst Hbody)), Hbody. cbn [snd].
    rewrite IH by reflexivity. rewrite rev_app_distr. simpl.
    rewrite <- app_assoc. reflexivity.
Qed.

Lemma stop_each (l : list nat) : forall s,
  fold_right (fun (_ : nat) k => add_task StopWorker;; k) (ret tt) l s =
  (Ok tt,
   set_trace (trace s ++ repeat (EAddTask StopWorker) (length l))
     (set_wqueue (_wqueue s ++ repeat StopWorker (length l)) s)).
Proof.
  induction l as [|x l IH]; intros s.
  - simpl. unfold ret. f_equal. destruct s; simpl. now rewrite !app_nil_r.
  - simpl. unfold add_task, emit, bind, modify. simpl.
    rewrite IH. simpl. rewrite <- !app_assoc. reflexivity.
Qed.

Lemma stop_workers_all (s : State) :
  close_stop_workers s =
  (Ok tt,
   set_trace (trace s ++ repeat (EAddTask StopWorker) (_workers s))
     (set_wqueue (_wqueue s ++ repeat StopWorker (_workers s)) s)).
Proof.
  unfold close_stop_workers, bind, get. rewrite stop_each, length_seq.
  reflexivity.
Qed.

(** [close], run on its own, as one update of the state. *)
Lemma close_effect (s : State) :
  close s =
  (Ok tt,
   set_trace (trace s ++ [ELock; EUnlock; ESchedStop]
              ++ map (fun pos => EFail pos PoolClosed) (_waiting s)
              ++ map (fun e => EConnClose (fst e)) (rev (_pool s))
              ++ repeat (EAddTask StopWorker) (_workers s))
     (set_wqueue (_wqueue s ++ repeat StopWorker (_workers s))
        (set_conns (alter_all Connection_close (map fst (rev (_pool s)))
                      (conns s))
           (set_waiters (alter_all failed_closed (_waiting s) (waiters s))
              (set_sched (sched s ++ [SchedStop])
                 (set_pool [] (set_waiting [] (set_closed true s)))))))).
Proof.
  unfold close. rewrite (bind_ok close_begin _ s tt eq_refl).
  unfold bind at 1. unfold get at 1. cbv iota beta.
  rewrite (bind_ok _ _ _ tt
             (f_equal fst (turns_fail_waiter_all _ _ eq_refl))).
  rewrite (turns_fail_waiter_all _ _ eq_refl). cbn [snd].
  unfold bind at 1. unfold get at 1. cbv iota beta.
  rewrite (bind_ok _ _ _ tt
             (f_equal fst (turns_close_idle_all _ _ eq_refl))).
  rewrite (turns_close_idle_all _ _ eq_refl). cbn [snd].
  rewrite stop_workers_all. simpl. rewrite <- !app_assoc. reflexivity.
Qed.

Lemma failed_closed_twice (w : WaitingClient) :
  failed_closed (failed_closed w) = failed_closed w.
Proof. reflexivity. Qed.

Lemma Connection_close_twice (o : Connection) :
  Connection_close (Connection_close o) = Connection_close o.
Proof. reflexivity. Qed.

(** X3: [close], run on its own, leaves the pool closed with both deques
    empty and the census as it was; every client that was waiting is woken
    with [PoolClosed]; every idle connection is closed and no other
    connection is touched; one [StopWorker] per worker is queued behind the
    tasks already there. *)
Theorem close_drains (s : State) :
  let s' := snd (close s) in
  fst (close s) = Ok tt /\
  _closed s' = true /\ _waiting s' = [] /\ _pool s' = [] /\
  _nconns s' = _nconns s /\
  _wqueue s' = _wqueue s ++ repeat StopWorker (_workers s) /\
  (forall pos w,
     In pos (_waiting s) -> waiters s !! pos = Some w ->
     waiters s' !! pos = Some (failed_closed w) /\
     fst (WaitingClient_wait pos s') = Raise PoolClosed) /\
  (forall c t o,
     In (c, t) (_pool s) -> conns s !! c = Some o ->
     conns s' !! c = Some (Connection_close o)) /\
  (forall c, ~ In c (map fst (_pool s)) -> conns s' !! c = conns s !! c).
Proof.
  cbv zeta. rewrite close_effect. simpl.
  do 6 (split; [reflexivity|]). split; [|split].
  - intros pos w Hin Hw.
    assert (Hl : alter_all failed_closed (_waiting s) (waiters s) !! pos
                 = Some (failed_closed w)).
    { rewrite (alter_all_lookup_in _ _ failed_closed_twice _ _ Hin), Hw.
      reflexivity. }
    split; [exact Hl|].
    unfold WaitingClient_wait, bind, get. simpl. rewrite Hl. reflexivity.
  - intros c t o Hin Ho.
    rewrite (alter_all_lookup_in _ _ Connection_close_twice), Ho;
      [reflexivity|].
    apply in_map_iff. exists (c, t). split; [reflexivity|].
    now apply List.in_rev in Hin.
  - intros c Hin. apply alter_all_lookup_out.
    intros H. apply Hin. apply in_map_iff in H as (e & He & Hin').
    apply in_map_iff. exists e. split; [exact He|]. now apply List.in_rev.
Qed.

(** X4: a second [close] finds nothing to drain: the guarded fields, the
    waiters and the connections are as the first call left them; but it
    enters another stop into the scheduler and queues another [StopWorker]
    per worker. *)
Theorem close_again (s : State) :
  let s1 := snd (close s) in
  let s2 := snd (close s1) in
  guarded s2 = guarded s1 /\
  waiters s2 = waiters s1 /\ conns s2 = conns s1 /\
  _wqueue s2 = _wqueue s1 ++ repeat StopWorker (_workers s) /\
  sched s2 = sched s1 ++ [SchedStop].
Proof.
  cbv zeta.
  assert (H : _waiting (snd (close s)) = [] /\ _pool (snd (close s)) = [] /\
              _workers (snd (close s)) = _workers s /\
              _closed (snd (close s)) = true)
    by (rewrite close_effect; repeat split).
  destruct H as (Hw & Hp & Hk & Hc).
  generalize dependent (snd (close s)). intros s1 Hw Hp Hk Hc.
  rewrite (close_effect s1). simpl. rewrite Hw, Hp, Hk. simpl.
  unfold guarded. simpl. rewrite Hw, Hp, Hc. repeat split.
Qed.

(** ** First come, first served *)

(** The critical sections of the deposits of [ds], one after the other:
    the waiter each one found. *)
Fixpoint serve (ds : list (nat * Q)) : M (list (option nat)) :=
  match ds with
  | [] => ret []
  | (c, now) :: ds' =>
      r <- _add_to_pool_locked c now;;
      rs <- serve ds';;
      ret (fst r :: rs)
  end.

Lemma add_to_pool_locked_waiter (s : State) (c : nat) (now : Q)
    (pos : nat) (rest : list nat) :
  _waiting s = pos :: rest ->
  _add_to_pool_locked c now s =
  (Ok (Some pos, None),
   set_trace (trace s ++ [ELock; EUnlock]) (set_waiting rest s)).
Proof.
  intros Hw. unfold _add_to_pool_locked. unfold_monad. simpl.
  rewrite Hw. simpl. rewrite <- app_assoc. reflexivity.
Qed.

Lemma serve_waiters (ds : list (nat * Q)) : forall s,
  (length ds <= length (_waiting s))%nat ->
  fst (serve ds s) = Ok (map Some (take (length ds) (_waiting s))) /\
  _waiting (snd (serve ds s)) = drop (length ds) (_waiting s) /\
  _pool (snd (serve ds s)) = _pool s /\
  _nconns (snd (serve ds s)) = _nconns s.
Proof.
  induction ds as [|[c now] ds IH]; intros s Hlen; [now repeat split|].
  destruct (_waiting s) as [|pos rest] eqn:Hw; [simpl in Hlen; lia|].
  simpl in Hlen. cbn [serve].
  pose proof (add_to_pool_locked_waiter s c now pos rest Hw) as Hstep.
  rewrite (bind_ok _ _ s _ (f_equal fst Hstep)), Hstep. cbn [snd fst].
  destruct (IH (set_trace (trace s ++ [ELock; EUnlock]) (set_waiting rest s)))
    as (H1 & H2 & H3 & H4); [simpl; lia|].
  rewrite (bind_ok _ _ _ _ H1). simpl in *. repeat split; assumption.
Qed.

(** X5: [getconn] puts its waiter at the right end of [_waiting] and a
    deposit takes the one at the left end: as long as there are waiters,
    the i-th deposit is for the i-th of them, and neither the pool nor the
    census changes. *)
Theorem waiters_first_come_first_served (ds : list (nat * Q)) (s : State) :
  (length ds <= length (_waiting s))%nat ->
  let s' := snd (serve ds s) in
  fst (serve ds s) = Ok (map Some (take (length ds) (_waiting s))) /\
  _waiting s' = drop (length ds) (_waiting s) /\
  _pool s' = _pool s /\ _nconns s' = _nconns s /\
  (_closed s = false -> _pool s = [] ->
   _waiting (snd (getconn_critical s))
   = _waiting s ++ [length (waiters s)]).
Proof.
  intros Hlen. cbv zeta.
  destruct (serve_waiters ds s Hlen) as (H1 & H2 & H3 & H4).
  do 4 (split; [assumption|]).
  intros Hc Hp. unfold getconn_critical. unfold_monad. simpl.
  rewrite Hc, Hp. simpl. destruct (_nconns s <? maxconn s); reflexivity.
Qed.

Definition two_waiters : State :=
  run [WorkerRuns 1 0 (Some IDLE) None; CallGetconn; CallGetconn; CallGetconn]
    one_conn_pool.

Lemma waiters_first_come_first_served_witness :
  fst (serve [(5%nat, 2 : Q); (6%nat, 3 : Q)] two_waiters)
  = Ok [Some 0%nat; Some 1%nat].
Proof.
  apply (waiters_first_come_first_served [(5%nat, 2 : Q); (6%nat, 3 : Q)]
           two_waiters).
  vm_compute. lia.
Defined.

(** ** The initial connections *)

(** No initial task is queued and the event of [__init__] is not set. *)
Definition never_filled (s : State) : Prop :=
  init_event s = false /\ ~ In AddInitialConnection (_wqueue s).

Definition no_initial_task_added (s s' : State) : Prop :=
  init_event s' = init_event s /\
  (In AddInitialConnection (_wqueue s') -> In AddInitialConnection (_wqueue s)).

Lemma no_initial_task_added_refl s : no_initial_task_added s s.
Proof. now split. Qed.

Lemma no_initial_task_added_trans a b c :
  no_initial_task_added a b -> no_initial_task_added b c ->
  no_initial_task_added a c.
Proof. intros [H1 H2] [H3 H4]. split; [congruence|auto]. Qed.

Lemma no_initial_task_added_never_filled s s' :
  no_initial_task_added s s' -> never_filled s -> never_filled s'.
Proof. intros [H1 H2] [H3 H4]. split; [congruence|auto]. Qed.

Ltac initial_leaf :=
  unfold no_initial_task_added; simpl; split; [reflexivity|];
  try (let Hin := fresh "Hin" in
       intros Hin; apply in_app_or in Hin as [Hin|[Hin|[]]];
       [exact Hin | discriminate Hin]);
  auto.

Ltac initial_respects :=
  solve [ apply (respects_keeps never_filled no_initial_task_added);
          [ exact no_initial_task_added_never_filled
          | pose proof no_initial_task_added_refl;
            pose proof no_initial_task_added_trans;
            unfold_methods; repeat respects_step initial_leaf ] ].

Lemma never_filled_run_task (t : Task) now r cr rb :
  t <> AddInitialConnection ->
  keeps never_filled (try_except (_run t now r cr rb) (fun _ => ret tt)).
Proof.
  intros Ht. destruct t; [contradiction| | |]; cbn [_run]; initial_respects.
Qed.

Lemma never_filled_worker now r cr rb :
  keeps never_filled (worker now r cr rb).
Proof.
  intros s [He Hq]. unfold worker. unfold bind at 1, get. cbv iota beta.
  destruct (_wqueue s) as [|task rest] eqn:Hw;
    [unfold ret; simpl; split; [exact He | rewrite Hw; intros []]|].
  unfold bind at 1, modify. cbv iota beta.
  apply never_filled_run_task.
  - intros ->. apply Hq. now left.
  - split; [exact He|]. simpl. intros H. apply Hq. now right.
Qed.

Lemma never_filled_act (a : Action) : keeps never_filled (act a).
Proof.
  destruct a; try initial_respects.
  simpl. apply keeps_bind; [initial_respects | intro s0].
  apply keeps_when. apply keeps_bind; [initial_respects | intro].
  apply never_filled_worker.
Qed.

(** X6: a pool made with [minconn <= 0] queues no initial task, so nothing
    ever sets the event [__init__] waits for: whatever else happens, the
    wait ends by its timeout, and [__init__] closes the pool and raises
    [PoolTimeout]. *)
Theorem empty_pool_never_ready (id : nat) (np minc : Z) (maxc : option Z)
    (nm : option string) (tmo midle rtmo : Q) (nw : Z) (s0 : State) (np' : Z)
    (acts : list Action) :
  __init__ id np minc maxc nm tmo midle rtmo nw = (Ok s0, np') ->
  minc <= 0 ->
  let s := run acts s0 in
  init_event s = false /\
  fst (__init__wait s) = Raise PoolTimeout /\
  _closed (snd (__init__wait s)) = true.
Proof.
  intros Hinit Hmin. cbv zeta.
  assert (Hnf : never_filled (run acts s0)).
  { apply (keeps_run never_filled acts never_filled_act).
    apply init_accepts in Hinit as (nm' & -> & _).
    split; [reflexivity|]. simpl.
    replace (Z.to_nat minc) with 0%nat by lia. intros []. }
  destruct Hnf as [He _]. split; [exact He|].
  assert (Hwait : __init__wait (run acts s0)
                  = (Raise PoolTimeout, snd (close (run acts s0)))).
  { unfold __init__wait, bind at 1, get. cbv iota beta. rewrite He. simpl.
    rewrite (bind_ok close _ _ tt) by (now rewrite close_effect).
    reflexivity. }
  rewrite Hwait. split; [reflexivity|]. now rewrite close_effect.
Qed.

Lemma empty_pool_never_ready_witness :
  init_event (run [CallGetconn; WorkerRuns 1 0 (Some IDLE) None;
                   WaitReturns 0]
                (init_state 7 (AutoName 1) 0 1 30 600 2 3)) = false.
Proof.
  refine (proj1 (empty_pool_never_ready 7 0 0 (Some 1) None 30 600 2 3 _ 1
                   [CallGetconn; WorkerRuns 1 0 (Some IDLE) None;
                    WaitReturns 0] eq_refl _)).
  lia.
Defined.

(** X7: a worker lets no exception out, and an initial connection that
    cannot be made is given up at once: the task is taken off the queue and
    nothing else changes; no retry is scheduled, the census keeps
    counting the connection and the event of [__init__] is not set.  An
    [AddConnection] that fails in the same way enters a retry into the
    scheduler. *)
Theorem failed_initial_connection_dropped (s : State) (now r : Q)
    (rb : option TransactionStatus) (rest : list Task) :
  _wqueue s = AddInitialConnection :: rest ->
  worker now r None rb s = (Ok tt, set_wqueue rest s) /\
  (forall st, fst (worker now r None rb
                     (set_wqueue (AddConnection st :: rest) s)) = Ok tt) /\
  length (sched (snd (worker now r None rb
                        (set_wqueue (AddConnection AddConnection_init :: rest) s))))
  = S (length (sched s)).
Proof.
  intros Hw. split; [|split].
  - unfold worker, bind at 1, get. cbv iota beta. rewrite Hw. reflexivity.
  - intros st. unfold worker, bind at 1, get. cbv iota beta. simpl.
    unfold _handle_error. unfold_monad. simpl.
    destruct (truthy (give_up_at st) && Qgeb now (give_up_at st)); simpl;
      [reflexivity|].
    destruct (Qltb _ _); reflexivity.
  - unfold worker, bind at 1, get. cbv iota beta. simpl.
    unfold _handle_error. unfold_monad. simpl.
    destruct (Qltb _ _); simpl; rewrite length_app; simpl; lia.
Qed.

Lemma failed_initial_connection_dropped_witness :
  worker 1 0 None None one_conn_pool = (Ok tt, set_wqueue [] one_conn_pool).
Proof.
  exact (proj1 (failed_initial_connection_dropped one_conn_pool 1 0 None []
                  eq_refl)).
Defined.

Lemma alter_snoc {X} (f : X -> X) (l : list X) (x : X) :
  alter f (length l) (l ++ [x]) = l ++ [f x].
Proof. induction l as [|y l IH]; simpl; [reflexivity|]. now f_equal. Qed.

Lemma lookup_snoc {X} (l : list X) (x : X) : (l ++ [x]) !! length l = Some x.
Proof. induction l as [|y l IH]; simpl; [reflexivity|exact IH]. Qed.

Lemma worker_takes_head (s : State) (now r : Q)
    (cr rb : option TransactionStatus) (task : Task) (rest : list Task) :
  _wqueue s = task :: rest ->
  worker now r cr rb s =
  try_except (_run task now r cr rb) (fun _ => ret tt) (set_wqueue rest s).
Proof.
  intros Hq. unfold worker, bind at 1, get. cbv iota beta. rewrite Hq.
  reflexivity.
Qed.

(** A deposit that finds nobody waiting and a census not above [minconn]
    appends the connection and evicts nothing. *)
Lemma deposit_live_appends (s : State) (c : nat) (now : Q) :
  _waiting s = [] ->
  _nconns s <= minconn s ->
  deposit_live c now s =
  (Ok tt,
   set_trace (trace s ++ [ELock; EUnlock])
     (set_pool (_pool s ++ [(c, now)]) s)).
Proof.
  intros Hw Hn. unfold deposit_live, _add_to_pool_locked. unfold_monad. simpl.
  rewrite Hw. simpl.
  destruct (_pool s ++ [(c, now)]) as [|[c0 t0] tl] eqn:Hp;
    [symmetry in Hp; now apply app_cons_not_nil in Hp|].
  replace (minconn s <? _nconns s) with false
    by (symmetry; apply Z.ltb_ge; exact Hn).
  simpl. rewrite <- app_assoc. reflexivity.
Qed.

Definition fresh_idle : Connection :=
  {| conn_pool := None; transaction_status := IDLE; conn_closed := false |}.

(** [_connect] followed by [_add_to_pool], for a connection that comes
    idle, in a pool that nobody waits on and that is not above [minconn]. *)
Lemma connect_then_deposit (s : State) (now : Q)
    (rb : option TransactionStatus) :
  _waiting s = [] ->
  _nconns s <= minconn s ->
  (c <- _connect (Some IDLE);; _add_to_pool c now rb) s =
  (Ok tt,
   set_trace (trace s ++ [ELock; EUnlock])
     (set_pool (_pool s ++ [(length (conns s), now)])
        (set_conns (conns s ++ [fresh_idle]) s))).
Proof.
  intros Hw Hn.
  assert (Hc : _connect (Some IDLE) s =
               (Ok (length (conns s)),
                set_conns (conns s ++
                  [{| conn_pool := Some (self s); transaction_status := IDLE;
                      conn_closed := false |}]) s)) by reflexivity.
  rewrite (bind_ok _ _ s _ (f_equal fst Hc)), Hc. cbn [snd].
  set (s1 := set_conns _ s).
  assert (Hr : reset_for_deposit (length (conns s)) rb s1 =
               (Ok tt, set_conns (conns s ++ [fresh_idle]) s)).
  { unfold reset_for_deposit, _reset_transaction_status, update_conn, bind,
      modify, get, status_of. simpl.
    rewrite alter_snoc, lookup_snoc. reflexivity. }
  assert (Hlive : live_after_reset (length (conns s)) rb s1).
  { unfold live_after_reset. rewrite Hr. unfold status_of. simpl.
    rewrite lookup_snoc. discriminate. }
  rewrite (add_to_pool_live _ now rb s1 Hlive), Hr. cbn [snd].
  rewrite deposit_live_appends by assumption. reflexivity.
Qed.

(** One initial task whose connection is made, in a pool that nobody waits
    on and that is not above [minconn]. *)
Lemma worker_initial_connection (s : State) (now r : Q)
    (rb : option TransactionStatus) (rest : list Task) :
  _wqueue s = AddInitialConnection :: rest ->
  _waiting s = [] ->
  _nconns s <= minconn s ->
  let s' := snd (worker now r (Some IDLE) rb s) in
  fst (worker now r (Some IDLE) rb s) = Ok tt /\
  cfg s' = cfg s /\ _nconns s' = _nconns s /\ _waiting s' = [] /\
  _wqueue s' = rest /\
  _pool s' = _pool s ++ [(length (conns s), now)] /\
  conns s' = conns s ++ [fresh_idle] /\
  init_event s' =
    (if _nconns s <=? Z.of_nat (S (length (_pool s))) then true
     else init_event s).
Proof.
  intros Hq Hw Hn. cbv zeta.
  rewrite (worker_takes_head s now r (Some IDLE) rb _ rest Hq).
  unfold try_except. cbn [_run].
  rewrite <- bind_assoc.
  pose proof (connect_then_deposit (set_wqueue rest s) now rb Hw Hn) as Hd.
  rewrite (bind_ok _ _ _ tt (f_equal fst Hd)), Hd. cbn [snd].
  unfold bind, get, when, modify, ret. simpl. rewrite length_app. simpl.
  replace (length (_pool s) + 1)%nat with (S (length (_pool s))) by lia.
  destruct (_nconns s <=? Z.of_nat (S (length (_pool s)))); simpl;
    repeat split; assumption.
Qed.

(** The initial tasks run one after the other, every connection made. *)
Fixpoint fill (ins : list (Q * Q * option TransactionStatus)) : M unit :=
  match ins with
  | [] => ret tt
  | (now, r, rb) :: ins' => worker now r (Some IDLE) rb;; fill ins'
  end.

Lemma fill_initial (ins : list (Q * Q * option TransactionStatus)) :
  forall (s : State) (q : list Task),
    _wqueue s = repeat AddInitialConnection (length ins) ++ q ->
    _waiting s = [] ->
    _nconns s <= minconn s ->
    let s' := snd (fill ins s) in
    fst (fill ins s) = Ok tt /\
    _nconns s' = _nconns s /\ _wqueue s' = q /\
    length (_pool s') = (length (_pool s) + length ins)%nat /\
    init_event s' =
      (init_event s
       || (negb (Nat.eqb (length ins) 0)
           && (_nconns s <=? Z.of_nat (length (_pool s) + length ins)))).
Proof.
  induction ins as [|[[now r] rb] ins IH]; intros s q Hq Hw Hn; cbv zeta.
  - simpl in *. rewrite Nat.add_0_r, orb_false_r. now repeat split.
  - cbn [length repeat app] in Hq.
    destruct (worker_initial_connection s now r rb _ Hq Hw Hn)
      as (Hok & Hc & Hn' & Hw' & Hq' & Hp' & _ & He').
    cbn [fill]. rewrite (bind_ok _ _ s tt Hok).
    set (s1 := snd (worker now r (Some IDLE) rb s)) in *.
    assert (Hmin : minconn s1 = minconn s)
      by (unfold cfg in Hc; now injection Hc).
    destruct (IH s1 q Hq' Hw') as (H1 & H2 & H3 & H4 & H5); [lia|].
    split; [exact H1|]. split; [lia|]. split; [exact H3|].
    rewrite Hp', length_app in H4. simpl in H4.
    split; [simpl; lia|].
    rewrite H5, He', Hn', Hp', length_app. simpl.
    replace (length (_pool s) + 1 + length ins)%nat
      with (length (_pool s) + S (length ins))%nat by lia.
    remember (_nconns s <=? Z.of_nat (S (length (_pool s)))) as a eqn:Ea.
    remember (_nconns s <=? Z.of_nat (length (_pool s) + S (length ins)))
      as c eqn:Ec.
    assert (Hac : a = true -> c = true).
    { subst a c. rewrite !Z.leb_le. lia. }
    assert (Hn0 : length ins = 0%nat -> c = a).
    { intros E. subst a c. rewrite E. f_equal. f_equal. lia. }
    destruct (Nat.eqb (length ins) 0) eqn:E3.
    + apply Nat.eqb_eq in E3. rewrite (Hn0 E3).
      destruct a, (init_event s); reflexivity.
    + destruct a; [rewrite (Hac eq_refl); now destruct (init_event s)|].
      reflexivity.
Qed.

(** X8: the event [__init__] waits for is set by the initial task that
    brings the pool to [minconn] connections and by none before it: after
    [k <= minconn] initial tasks whose connection was made, the pool holds
    [k] connections and the event is set exactly when [k = minconn]. *)
Theorem initial_fill_completes (id : nat) (np minc : Z) (maxc : option Z)
    (nm : option string) (tmo midle rtmo : Q) (nw : Z) (s0 : State) (np' : Z)
    (ins : list (Q * Q * option TransactionStatus)) :
  __init__ id np minc maxc nm tmo midle rtmo nw = (Ok s0, np') ->
  1 <= minc ->
  (length ins <= Z.to_nat minc)%nat ->
  let s := snd (fill ins s0) in
  fst (fill ins s0) = Ok tt /\
  length (_pool s) = length ins /\
  _nconns s = minc /\
  _wqueue s = repeat AddInitialConnection (Z.to_nat minc - length ins) /\
  (init_event s = true <-> length ins = Z.to_nat minc).
Proof.
  intros Hinit Hmin Hlen. cbv zeta.
  apply init_accepts in Hinit as (nm' & -> & _).
  set (s0 := init_state _ _ _ _ _ _ _ _).
  assert (Hq : _wqueue s0 = repeat AddInitialConnection (length ins)
                            ++ repeat AddInitialConnection
                                 (Z.to_nat minc - length ins)).
  { rewrite <- repeat_app. simpl. f_equal. lia. }
  destruct (fill_initial ins s0 _ Hq eq_refl) as (H1 & H2 & H3 & H4 & H5);
    [simpl; lia|].
  simpl in H2, H4, H5.
  repeat split; try assumption.
  - rewrite H5. intros H. apply andb_true_iff in H as [_ H].
    apply Z.leb_le in H. lia.
  - intros H. rewrite H5, H. apply andb_true_iff. split.
    + apply negb_true_iff, Nat.eqb_neq. lia.
    + apply Z.leb_le. lia.
Qed.

Lemma initial_fill_completes_witness :
  init_event (snd (fill [(1 : Q, 0 : Q, None); (2 : Q, 0 : Q, None)]
                     (init_state 7 (AutoName 1) 2 2 30 600 2 3))) = true.
Proof.
  apply (initial_fill_completes 7 0 2 None None 30 600 2 3 _ 1
           [(1 : Q, 0 : Q, None); (2 : Q, 0 : Q, None)] eq_refl);
    [lia | simpl; lia | reflexivity].
Defined.

(** ** Release, then acquire *)

(** The status [_reset_transaction_status] leaves, from the status it
    finds and what [rollback] does. *)
Definition status_after_reset (st : TransactionStatus)
    (rb : option TransactionStatus) : TransactionStatus :=
  match st with
  | IDLE => IDLE
  | INTRANS | INERROR =>
      match rb with
      | Some st' => st'
      | None => UNKNOWN
      end
  | ACTIVE | UNKNOWN => UNKNOWN
  end.

Lemma reset_for_deposit_status (s : State) (c : nat) (o : Connection)
    (rb : option TransactionStatus) :
  conns s !! c = Some o ->
  status_of c (snd (reset_for_deposit c rb s))
  = status_after_reset (transaction_status o) rb.
Proof.
  intros Ho.
  unfold reset_for_deposit, _reset_transaction_status. unfold_monad. simpl.
  unfold status_of at 2. simpl. rewrite list_lookup_alter_eq, Ho. simpl.
  destruct (transaction_status o) eqn:Est; simpl;
    try (destruct rb as [st|]; simpl);
    unfold status_of; simpl;
    rewrite ?list_lookup_alter_eq, ?Ho; simpl; rewrite ?Est; reflexivity.
Qed.

Lemma try_except_ok {A} (m : M A) (h : Exn -> M A) (s : State) (a : A) :
  fst (m s) = Ok a -> try_except m h s = m s.
Proof.
  unfold try_except. destruct (m s) as [[a'|e] s']; simpl; intros H;
    [reflexivity|discriminate H].
Qed.

Lemma putconn_queues (s : State) (c : nat) :
  getattr_pool c s = Some (self s) ->
  _closed s = false ->
  putconn c s =
  (Ok tt,
   set_trace (trace s ++ [EAddTask (ReturnConnection c)])
     (set_wqueue (_wqueue s ++ [ReturnConnection c]) s)).
Proof.
  intros Hp Hc. unfold putconn, is_self. unfold_monad. simpl.
  rewrite Hp, Nat.eqb_refl, Hc. reflexivity.
Qed.

Lemma add_to_pool_idle_ok (s : State) (c : nat) (now : Q)
    (rb : option TransactionStatus) :
  _waiting s = [] ->
  live_after_reset c rb s ->
  fst (_add_to_pool c now rb s) = Ok tt /\
  _wqueue (snd (_add_to_pool c now rb s)) = _wqueue s.
Proof.
  intros Hw Hlive. rewrite (add_to_pool_live c now rb s Hlive).
  destruct (reset_for_deposit_result c rb s) as (_ & _ & Hg & _ & Hq).
  unfold guarded in Hg. injection Hg as _ _ Hw1 _. rewrite Hw in Hw1.
  rewrite <- Hq. clear Hq. revert Hw1.
  generalize (snd (reset_for_deposit c rb s)). intros s1 Hw1.
  unfold deposit_live, _add_to_pool_locked. unfold_monad. simpl.
  rewrite Hw1. simpl.
  destruct (_pool s1 ++ [(c, now)]) as [|[c0 t0] rest] eqn:Hp;
    [symmetry in Hp; now apply app_cons_not_nil in Hp|].
  simpl.
  destruct ((minconn s1 <? _nconns s1) && Qgtb (now - t0) (max_idle s1));
    simpl; now split.
Qed.

(** X9: a connection returned to an open and otherwise idle pool, whose
    transaction status the reset leaves known, is the one the next
    [getconn] hands out ([max_idle] not being negative); one whose status
    ends [UNKNOWN] never reaches the pool: a fresh [AddConnection] is
    queued for it and the census keeps its value. *)
Theorem release_then_acquire (s : State) (c : nat) (o : Connection)
    (now r : Q) (cr rb : option TransactionStatus) :
  conns s !! c = Some o ->
  conn_pool o = Some (self s) ->
  _closed s = false ->
  _waiting s = [] ->
  _wqueue s = [] ->
  (0 <= max_idle s)%Q ->
  let s1 := snd (putconn c s) in
  let s2 := snd (worker now r cr rb s1) in
  fst (putconn c s) = Ok tt /\
  fst (worker now r cr rb s1) = Ok tt /\
  (status_after_reset (transaction_status o) rb <> UNKNOWN ->
   fst (getconn s2) = Ok c /\ _wqueue s2 = []) /\
  (status_after_reset (transaction_status o) rb = UNKNOWN ->
   _pool s2 = _pool s /\ _nconns s2 = _nconns s /\
   _wqueue s2 = [AddConnection AddConnection_init]).
Proof.
  intros Ho Hpool Hcl Hw Hq Hidle. cbv zeta.
  assert (Hg : getattr_pool c s = Some (self s))
    by (unfold getattr_pool; now rewrite Ho).
  rewrite (putconn_queues s c Hg Hcl), Hq. cbn [fst snd app].
  split; [reflexivity|].
  set (s1 := set_trace _ _).
  rewrite (worker_takes_head s1 now r cr rb (ReturnConnection c) [] eq_refl).
  cbn [_run]. set (s1' := set_wqueue [] s1).
  assert (Ho' : conns s1' !! c = Some o) by exact Ho.
  pose proof (reset_for_deposit_status s1' c o rb Ho') as Hst.
  destruct (reset_for_deposit_result c rb s1') as (_ & Hc1 & Hg1 & _ & Hq1).
  destruct (TransactionStatus_eqb
              (status_after_reset (transaction_status o) rb) UNKNOWN) eqn:E.
  - (* discarded *)
    assert (Hu : status_after_reset (transaction_status o) rb = UNKNOWN)
      by (destruct (status_after_reset _ _); (reflexivity || discriminate E)).
    assert (Hrun : _add_to_pool c now rb s1' =
                   add_task (AddConnection AddConnection_init)
                     (snd (reset_for_deposit c rb s1'))).
    { rewrite add_to_pool_unfold. cbv zeta. now rewrite Hst, Hu. }
    rewrite (try_except_ok _ _ s1' tt) by (now rewrite Hrun).
    rewrite Hrun. split; [reflexivity|]. split; [intros H; contradiction|].
    intros _. unfold add_task. unfold_monad. simpl. rewrite Hq1.
    unfold guarded in Hg1. injection Hg1 as Hn Hp _ _.
    repeat split; assumption.
  - (* back in the pool *)
    assert (Hlive : live_after_reset c rb s1').
    { unfold live_after_reset. rewrite Hst. intros Hu. now rewrite Hu in E. }
    destruct (add_to_pool_idle_ok s1' c now rb Hw Hlive) as [Hok Hq2].
    rewrite (try_except_ok _ _ s1' tt Hok).
    split; [exact Hok|]. split; [|intros Hu; now rewrite Hu in E].
    intros _.
    destruct (last_deposited_is_popped s1' c now rb Hw Hcl Hlive Hidle)
      as ((Hpop & _) & _).
    split; [|exact Hq2].
    unfold getconn. rewrite (bind_ok _ _ _ _ Hpop). reflexivity.
Qed.

Lemma release_then_acquire_witness :
  fst (getconn (snd (worker 5 0 None None
                       (snd (putconn 0 pool_with_one_out))))) = Ok 0%nat.
Proof.
  refine (proj1 (proj1 (proj2 (proj2
            (release_then_acquire pool_with_one_out 0
               {| conn_pool := Some 7%nat; transaction_status := IDLE;
                  conn_closed := false |}
               5 0 None None eq_refl eq_refl eq_refl eq_refl eq_refl _))) _)).
  - vm_compute. discriminate.
  - discriminate.
Defined.

(** ** Growing for a waiting client *)

Lemma deposit_live_hands_over (s : State) (c : nat) (now : Q)
    (pos : nat) (rest : list nat) :
  _waiting s = pos :: rest ->
  deposit_live c now s =
  (Ok tt,
   set_trace (trace s ++ [ELock; EUnlock; ESet pos c])
     (set_waiters
        (alter (fun w => {| event := true; conn := Some c; error := error w |})
           pos (waiters s))
        (set_waiting rest s))).
Proof.
  intros Hw.
  unfold deposit_live, _add_to_pool_locked, WaitingClient_set.
  unfold_monad. simpl. rewrite Hw. simpl.
  rewrite <- !app_assoc. reflexivity.
Qed.

Lemma connect_then_hand_over (s : State) (now : Q)
    (rb : option TransactionStatus) (pos : nat) (rest : list nat) :
  _waiting s = pos :: rest ->
  (c <- _connect (Some IDLE);; _add_to_pool c now rb) s =
  (Ok tt,
   set_trace (trace s ++ [ELock; EUnlock; ESet pos (length (conns s))])
     (set_waiters
        (alter (fun w => {| event := true; conn := Some (length (conns s));
                            error := error w |})
           pos (waiters s))
        (set_waiting rest (set_conns (conns s ++ [fresh_idle]) s)))).
Proof.
  intros Hw.
  assert (Hc : _connect (Some IDLE) s =
               (Ok (length (conns s)),
                set_conns (conns s ++
                  [{| conn_pool := Some (self s); transaction_status := IDLE;
                      conn_closed := false |}]) s)) by reflexivity.
  rewrite (bind_ok _ _ s _ (f_equal fst Hc)), Hc. cbn [snd].
  set (s1 := set_conns _ s).
  assert (Hr : reset_for_deposit (length (conns s)) rb s1 =
               (Ok tt, set_conns (conns s ++ [fresh_idle]) s)).
  { unfold reset_for_deposit, _reset_transaction_status, update_conn, bind,
      modify, get, status_of. simpl.
    rewrite alter_snoc, lookup_snoc. reflexivity. }
  assert (Hlive : live_after_reset (length (conns s)) rb s1).
  { unfold live_after_reset. rewrite Hr. unfold status_of. simpl.
    rewrite lookup_snoc. discriminate. }
  rewrite (add_to_pool_live _ now rb s1 Hlive), Hr. cbn [snd].
  rewrite (deposit_live_hands_over _ _ now pos rest) by exact Hw.
  reflexivity.
Qed.

Lemma run_add_connection_made (self : AddConnectionState) (now r : Q)
    (st : TransactionStatus) (rb : option TransactionStatus) (s : State) :
  _run (AddConnection self) now r (Some st) rb s =
  (c <- _connect (Some st);; _add_to_pool c now rb) s.
Proof.
  unfold _run, try_except, _connect, bind, get, modify, ret. simpl.
  destruct (_add_to_pool _ now rb _) as [[[]|e] s']; reflexivity.
Qed.

(** X10: in an open pool with nothing idle, nobody waiting and room to
    grow, [getconn] queues its waiter and an [AddConnection] task and adds
    one to the census; when a worker has run the task and the connection
    was made, the wait of that client returns the new connection, marked
    as checked out of this pool, and both deques and the task queue are
    empty again. *)
Theorem grow_for_waiter (s : State) (now r : Q)
    (rb : option TransactionStatus) :
  _closed s = false ->
  _pool s = [] ->
  _waiting s = [] ->
  _wqueue s = [] ->
  _nconns s < maxconn s ->
  let pos := length (waiters s) in
  let c := length (conns s) in
  let s1 := snd (getconn_critical s) in
  let s2 := snd (worker now r (Some IDLE) rb s1) in
  let s3 := snd (getconn_finish (inr pos) s2) in
  fst (getconn_critical s) = Ok (inr pos) /\
  _wqueue s1 = [AddConnection AddConnection_init] /\
  fst (worker now r (Some IDLE) rb s1) = Ok tt /\
  fst (getconn_finish (inr pos) s2) = Ok c /\
  _nconns s3 = _nconns s + 1 /\
  _waiting s3 = [] /\ _pool s3 = [] /\ _wqueue s3 = [] /\
  conns s3 = conns s ++ [{| conn_pool := Some (self s);
                            transaction_status := IDLE;
                            conn_closed := false |}].
Proof.
  intros Hc Hp Hw Hq Hn. cbv zeta.
  assert (H1 : getconn_critical s =
               (Ok (inr (length (waiters s))),
                set_trace (trace s ++ [ELock; ENconns (_nconns s + 1);
                                       EAddTask (AddConnection AddConnection_init);
                                       EUnlock])
                  (set_wqueue [AddConnection AddConnection_init]
                     (set_nconns (_nconns s + 1)
                        (set_waiting [length (waiters s)]
                           (set_waiters (waiters s ++ [WaitingClient_init])
                              s)))))).
  { unfold getconn_critical. unfold_monad. simpl. rewrite Hc, Hp. simpl.
    apply Z.ltb_lt in Hn. rewrite Hn. simpl. rewrite Hw, Hq. simpl.
    rewrite <- !app_assoc. reflexivity. }
  rewrite H1. cbn [fst snd]. set (s1 := set_trace _ _).
  split; [reflexivity|]. split; [reflexivity|].
  rewrite (worker_takes_head s1 now r (Some IDLE) rb
             (AddConnection AddConnection_init) [] eq_refl).
  pose proof (connect_then_hand_over (set_wqueue [] s1) now rb
                (length (waiters s)) [] eq_refl) as H2.
  rewrite (try_except_ok _ _ _ tt)
    by (now rewrite run_add_connection_made, H2).
  rewrite run_add_connection_made, H2. cbn [fst snd].
  split; [reflexivity|].
  unfold getconn_finish, WaitingClient_wait, update_conn.
  unfold_monad. simpl.
  rewrite alter_snoc, lookup_snoc. simpl.
  rewrite alter_snoc. repeat split. exact Hp.
Qed.

Definition room_to_grow : State :=
  run [WorkerRuns 1 0 (Some IDLE) None; CallGetconn] two_conn_pool.

Lemma grow_for_waiter_witness :
  fst (getconn_finish (inr (length (waiters room_to_grow)))
         (snd (worker 2 0 (Some IDLE) None
                 (snd (getconn_critical room_to_grow)))))
  = Ok (length (conns room_to_grow)).
Proof.
  apply (grow_for_waiter room_to_grow 2 0 None); reflexivity.
Defined.

(** ** The backoff, in closed form *)










(** ** Retries end *)

(** The instant for which [_handle_error], called at [now], enters the
    retry of the task it leaves as [self]. *)
Definition retry_due (self : AddConnectionState) (now : Q) : Q :=
  if Qltb (now + delay self) (give_up_at self) then (now + delay self)%Q
  else give_up_at self.


Lemma handle_error_enters_due (self : AddConnectionState) (now r : Q)
    (s : State) :
  truthy (give_up_at self) && Qgeb now (give_up_at self) = false ->
  sched (snd (_handle_error self now r s))
  = sched s ++ [SchedRetry (retry_due (next_attempt self now r s) now)
                  (next_attempt self now r s)].
Proof.
  intros H. unfold _handle_error, retry_due. rewrite H. unfold_monad. simpl.
  destruct (Qltb _ _); reflexivity.
Qed.





Lemma close_drains_witness :
  fst (WaitingClient_wait 0 (snd (close two_waiters))) = Raise PoolClosed.
Proof.
  refine (proj2 (proj1 (proj2 (proj2 (proj2 (proj2 (proj2 (proj2
            (close_drains two_waiters))))))) 0%nat WaitingClient_init _ _)).
  - vm_compute. now left.
  - reflexivity.
Defined.

(** * Query conversion: a shallow embedding of [psycopg3/utils/queries.py]

    Queries are Python [bytes], embedded as lists of [Byte.byte].  A Python
    [str] (a decoded placeholder name, an interpolated message field) is a
    [string]; an encoding or a codec is embedded as the decoding function it
    stands for, which answers [None] where Python raises
    [UnicodeDecodeError].  An exception carries the values its message
    interpolates, not the message text. *)

Local Open Scope nat_scope.

Definition bytes : Type := list Byte.byte.

Fixpoint bytes_eqb (a b : bytes) : bool :=
  match a, b with
  | [], [] => true
  | x :: a', y :: b' => Byte.eqb x y && bytes_eqb a' b'
  | _, _ => false
  end.

Definition PERCENT : Byte.byte := Byte.x25.
Definition LPAREN : Byte.byte := Byte.x28.
Definition RPAREN : Byte.byte := Byte.x29.
Definition NEWLINE : Byte.byte := Byte.x0a.
Definition SPACE : Byte.byte := Byte.x20.
Definition DOLLAR : Byte.byte := Byte.x24.
Definition LETTER_b : Byte.byte := Byte.x62.
Definition LETTER_s : Byte.byte := Byte.x73.

(** [s[i:j]] for non-negative [i] and [j]. *)
Definition slice (s : bytes) (i j : nat) : bytes := take (j - i) (drop i s).

Fixpoint take_while (p : Byte.byte -> bool) (s : bytes) : bytes :=
  match s with
  | c :: s' => if p c then c :: take_while p s' else []
  | [] => []
  end.

Fixpoint drop_while (p : Byte.byte -> bool) (s : bytes) : bytes :=
  match s with
  | c :: s' => if p c then drop_while p s' else s
  | [] => []
  end.

(** ** Exceptions *)

Inductive TypeErrorKind :=
| QueryNotBytes             (* the query should be str or bytes *)
| NamedNeedMapping          (* named placeholders require a mapping *)
| PositionalNeedSequence    (* positional placeholders require a sequence *)
| VarsNotSequenceOrMapping  (* query parameters should be a sequence or a mapping *)
| DecodeNotBytes            (* [codec.decode] applied to something not bytes *)
| AddToNotInt.              (* [part[1] + 1] where [part[1]] is not an int *)

Inductive ProgrammingErrorKind :=
| WrongNumber (placeholders : Z) (parameters : nat)
| DifferentFormats (name : string)
| IncompletePlaceholder (word : string)
| IncompletePercent
| OnlySAndB (placeholder : string)
| Mixed
| ParameterMissing (names : list string).   (* interpolated once sorted *)

Inductive QueryExn :=
| TypeError (why : TypeErrorKind)
| ProgrammingError (why : ProgrammingErrorKind)
| UnicodeDecodeError
| Builtin (e : Exn).        (* [IndexError], [AttributeError] *)

Inductive Outcome (A : Type) := Returns (a : A) | Raises (e : QueryExn).
Arguments Returns {A} a.
Arguments Raises {A} e.

Definition and_then {A B} (m : Outcome A) (k : A -> Outcome B) : Outcome B :=
  match m with
  | Returns a => k a
  | Raises e => Raises e
  end.

Declare Scope query_scope.
Delimit Scope query_scope with query.
Notation "x <- m ;; k" := (and_then m (fun x => k))
  (at level 100, m at next level, right associativity) : query_scope.
Local Open Scope query_scope.

(** [b.decode(encoding)] *)
Definition decode_with (encoding : bytes -> option string) (b : bytes)
  : Outcome string :=
  match encoding b with
  | Some s => Returns s
  | None => Raises UnicodeDecodeError
  end.

(** ** [_re_placeholder] *)

(** What a match object is asked for: [m.span(0)], [m.group(0)] and
    [m.group(1)] ([None] when the group took no part in the match). *)
Record Match := mkMatch {
  span0 : nat * nat;
  group0 : bytes;
  group1 : option bytes }.

(** [.] matches any byte but a newline; [[^)]] any byte but [)]. *)
Definition dot (c : Byte.byte) : bool := negb (Byte.eqb c NEWLINE).
Definition not_rparen (c : Byte.byte) : bool := negb (Byte.eqb c RPAREN).

(** The pattern tried at the head of [s]: the bytes matched and group 1.
    After [%] the first alternative is tried first: [(], the longest run of
    [[^)]] (a shorter run is never followed by [)]), [)] and a format byte;
    where it fails the second alternative takes any one byte. *)
Definition _re_placeholder (s : bytes) : option (bytes * option bytes) :=
  match s with
  | c :: r =>
      if Byte.eqb c PERCENT then
        let any_char :=
          match r with
          | f :: _ => if dot f then Some ([PERCENT; f], None) else None
          | [] => None
          end in
        match r with
        | c1 :: r1 =>
            if Byte.eqb c1 LPAREN then
              let name := take_while not_rparen r1 in
              match name, drop (length name) r1 with
              | _ :: _, c2 :: f :: _ =>
                  if Byte.eqb c2 RPAREN && dot f
                  then Some (PERCENT :: LPAREN :: name ++ [RPAREN; f],
                             Some name)
                  else any_char
              | _, _ => any_char
              end
            else any_char
        | [] => any_char
        end
      else None
  | [] => None
  end.

(** [_re_placeholder.finditer] from offset [pos], where the first [skip]
    bytes of [s] still belong to the previous match. *)
Fixpoint finditer_from (pos skip : nat) (s : bytes) : list Match :=
  match s with
  | [] => []
  | _ :: s' =>
      match skip with
      | S k => finditer_from (S pos) k s'
      | O =>
          match _re_placeholder s with
          | Some (g0, g1) =>
              mkMatch (pos, pos + length g0) g0 g1
                :: finditer_from (S pos) (length g0 - 1) s'
          | None => finditer_from (S pos) 0 s'
          end
      end
  end.

Definition finditer (query : bytes) : list Match := finditer_from 0 0 query.

(** ** [split_query] *)

(** The second item of a part: a match object, then an index or a name;
    [None] in the last part. *)
Inductive Item :=
| ItemMatch (m : Match)
| ItemInt (i : nat)
| ItemBytes (name : bytes)
| ItemNone.

(** A part is the three-element list [[fragment, item, format]]. *)
Record Part := mkPart {
  part0 : bytes;
  part1 : Item;
  part2 : option bool }.

Definition set_part0 (v : bytes) (p : Part) : Part :=
  mkPart v (part1 p) (part2 p).

(** [type(part[1])] for the two types the loop compares. *)
Inductive PhType := TypeInt | TypeBytes.

Definition PhType_eqb (a b : PhType) : bool :=
  match a, b with
  | TypeInt, TypeInt | TypeBytes, TypeBytes => true
  | _, _ => false
  end.

(** The [for m in finditer] loop and the part appended after it. *)
Definition split_parts (query : bytes) : list Part :=
  let '(parts, cur, m) :=
    fold_left
      (fun '(parts, cur, _) m =>
         (parts ++ [mkPart (slice query cur (fst (span0 m))) (ItemMatch m) None],
          snd (span0 m), Some m))
      (finditer query) ([], 0, None) in
  match m with
  | None => parts ++ [mkPart query ItemNone None]
  | Some _ => parts ++ [mkPart (drop cur query) ItemNone None]
  end.

(** ASCII whitespace, where [bytes.split()] splits. *)
Definition is_space (c : Byte.byte) : bool :=
  Byte.eqb c SPACE || Byte.eqb c Byte.x09 || Byte.eqb c Byte.x0a
  || Byte.eqb c Byte.x0b || Byte.eqb c Byte.x0c || Byte.eqb c Byte.x0d.

(** [s.split()[0]] *)
Definition first_word (s : bytes) : Outcome bytes :=
  match take_while (fun c => negb (is_space c)) (drop_while is_space s) with
  | [] => Raises (Builtin IndexError)
  | w => Returns w
  end.

(** [ph[-1:]] compared with, or looked for in, a byte string. *)
Definition last_byte_is (c : Byte.byte) (ph : bytes) : bool :=
  match last ph with
  | Some f => Byte.eqb f c
  | None => false
  end.

(** The [while i < len(parts)] loop.  The list is held as [parts[:i]]
    ([done], so that [i = length done]), [parts[i]] ([part]) and
    [parts[i+1:]] ([rest]); the loop reads and writes only [parts[i]] and
    [parts[i+1]].  [del parts[i]] leaves [i] alone and makes the old
    [parts[i+1]] the part under the index. *)
Fixpoint validate (encoding : bytes -> option string) (query : bytes)
    (done : list Part) (phtype : option PhType) (part : Part)
    (rest : list Part) {struct rest} : Outcome (list Part) :=
  match part1 part with
  | ItemNone => Returns (done ++ part :: rest)
  | ItemMatch m =>
      let ph := group0 m in
      if bytes_eqb ph [PERCENT; PERCENT] then
        match rest with
        | [] => Raises (Builtin IndexError)
        | next :: rest' =>
            validate encoding query done phtype
              (set_part0 (part0 part ++ [PERCENT] ++ part0 next) next) rest'
        end
      else if bytes_eqb ph [PERCENT; LPAREN] then
        word <- first_word (drop (fst (span0 m)) query);;
        s <- decode_with encoding word;;
        Raises (ProgrammingError (IncompletePlaceholder s))
      else if bytes_eqb ph [PERCENT; SPACE] then
        Raises (ProgrammingError IncompletePercent)
      else if negb (last_byte_is LETTER_b ph || last_byte_is LETTER_s ph) then
        s <- decode_with encoding ph;;
        Raises (ProgrammingError (OnlySAndB s))
      else
        let item :=
          match group1 m with
          | None => ItemInt (length done)
          | Some name => ItemBytes name
          end in
        let part' := mkPart (part0 part) item (Some (last_byte_is LETTER_b ph)) in
        let ty := match group1 m with None => TypeInt | Some _ => TypeBytes end in
        let mixed :=
          match phtype with
          | None => false
          | Some ty0 => negb (PhType_eqb ty0 ty)
          end in
        if mixed then Raises (ProgrammingError Mixed)
        else
          let phtype' := match phtype with None => Some ty | Some _ => phtype end in
          match rest with
          | [] => Returns (done ++ [part'])
          | next :: rest' =>
              validate encoding query (done ++ [part']) phtype' next rest'
          end
  | ItemInt _ | ItemBytes _ => Raises (Builtin AttributeError)
  end.

Definition split_query (query : bytes) (encoding : bytes -> option string)
  : Outcome (list Part) :=
  match split_parts query with
  | [] => Returns []
  | part :: rest => validate encoding query [] None part rest
  end.

(** ** [query2pg] *)

(** What [query2pg] tells apart in its arguments. *)
Inductive PyQuery := QueryBytes (query : bytes) | QueryOther.

Inductive Vars (V : Type) :=
| VarsSequence (vars : list V)               (* a Sequence, not bytes or str *)
| VarsMapping (vars : list (string * V))     (* a Mapping *)
| VarsOther.
Arguments VarsSequence {V} vars.
Arguments VarsMapping {V} vars.
Arguments VarsOther {V}.

Fixpoint lookup_name {A} (name : string) (d : list (string * A)) : option A :=
  match d with
  | (k, v) :: d' => if String.eqb k name then Some v else lookup_name name d'
  | [] => None
  end.

Definition nonempty {A} (l : list A) : bool :=
  match l with [] => false | _ => true end.

Definition is_int (i : Item) : bool :=
  match i with ItemInt _ => true | _ => false end.
Definition is_bytes (i : Item) : bool :=
  match i with ItemBytes _ => true | _ => false end.

(** [parts[0][1]] *)
Definition first_item (parts : list Part) : Outcome Item :=
  match parts with
  | p :: _ => Returns (part1 p)
  | [] => Raises (Builtin IndexError)
  end.

Definition format_eqb (a b : option bool) : bool :=
  match a, b with
  | Some x, Some y => Bool.eqb x y
  | None, None => true
  | _, _ => false
  end.

(** The [for part in parts[:-1]] loop of the mapping branch: every part is
    given its number in place, [seen] and [order] grow by the names not met
    before. *)
Fixpoint number_names (codec : bytes -> option string) (parts : list Part)
    (seen : list (string * (nat * option bool))) (order : list string)
  : Outcome (list Part * list string) :=
  match parts with
  | [] => Returns ([], order)
  | part :: parts' =>
      match part1 part with
      | ItemBytes b =>
          name <- decode_with codec b;;
          match lookup_name name seen with
          | None =>
              let n := length seen in
              r <- number_names codec parts'
                     (seen ++ [(name, (n, part2 part))]) (order ++ [name]);;
              Returns (mkPart (part0 part) (ItemInt n) (part2 part) :: fst r,
                       snd r)
          | Some (n, fmt) =>
              if negb (format_eqb fmt (part2 part))
              then Raises (ProgrammingError (DifferentFormats name))
              else
                r <- number_names codec parts' seen order;;
                Returns (mkPart (part0 part) (ItemInt n) (part2 part) :: fst r,
                         snd r)
          end
      | _ => Raises (TypeError DecodeNotBytes)
      end
  end.

Definition digit (d : nat) : Byte.byte :=
  match d with
  | 0 => Byte.x30 | 1 => Byte.x31 | 2 => Byte.x32 | 3 => Byte.x33
  | 4 => Byte.x34 | 5 => Byte.x35 | 6 => Byte.x36 | 7 => Byte.x37
  | 8 => Byte.x38 | _ => Byte.x39
  end.

Fixpoint uint_bytes (d : Decimal.uint) : bytes :=
  match d with
  | Decimal.Nil => []
  | Decimal.D0 d => digit 0 :: uint_bytes d
  | Decimal.D1 d => digit 1 :: uint_bytes d
  | Decimal.D2 d => digit 2 :: uint_bytes d
  | Decimal.D3 d => digit 3 :: uint_bytes d
  | Decimal.D4 d => digit 4 :: uint_bytes d
  | Decimal.D5 d => digit 5 :: uint_bytes d
  | Decimal.D6 d => digit 6 :: uint_bytes d
  | Decimal.D7 d => digit 7 :: uint_bytes d
  | Decimal.D8 d => digit 8 :: uint_bytes d
  | Decimal.D9 d => digit 9 :: uint_bytes d
  end.

(** [b"$%d" % n] *)
Definition dollar (n : nat) : bytes := DOLLAR :: uint_bytes (Nat.to_uint n).

(** The assembling loop over [parts[:-1]]: the pieces of [rv] and
    [formats]. *)
Fixpoint assemble (parts : list Part) : Outcome (list bytes * list (option bool)) :=
  match parts with
  | [] => Returns ([], [])
  | part :: parts' =>
      match part1 part with
      | ItemInt n =>
          r <- assemble parts';;
          Returns (part0 part :: dollar (n + 1) :: fst r, part2 part :: snd r)
      | _ => Raises (TypeError AddToNotInt)
      end
  end.

Definition query2pg {V} (query : PyQuery) (vars : Vars V)
    (codec : bytes -> option string)
  : Outcome (bytes * list (option bool) * option (list string)) :=
  match query with
  | QueryOther => Raises (TypeError QueryNotBytes)
  | QueryBytes query =>
      parts <- split_query query codec;;
      numbered <-
        match vars with
        | VarsSequence vars =>
            if negb (Z.eqb (Z.of_nat (length vars))
                           (Z.of_nat (length parts) - 1))
            then Raises (ProgrammingError
                           (WrongNumber (Z.of_nat (length parts) - 1)
                                        (length vars)))
            else
              named <- (if nonempty vars
                        then i <- first_item parts;; Returns (negb (is_int i))
                        else Returns false);;
              if (named : bool) then Raises (TypeError NamedNeedMapping)
              else Returns (removelast parts, None)
        | VarsMapping vars =>
            positional <- (if nonempty vars && (1 <? length parts)
                           then i <- first_item parts;;
                                Returns (negb (is_bytes i))
                           else Returns false);;
            if (positional : bool)
            then Raises (TypeError PositionalNeedSequence)
            else
              r <- number_names codec (removelast parts) [] [];;
              Returns (fst r, Some (snd r))
        | VarsOther => Raises (TypeError VarsNotSequenceOrMapping)
        end;;
      r <- assemble (fst numbered);;
      match last parts with
      | None => Raises (Builtin IndexError)
      | Some final =>
          Returns (concat (fst r ++ [part0 final]), snd r, snd numbered)
      end
  end.

(** ** [reorder_params] *)

Fixpoint items_of {V} (params : list (string * V)) (order : list string)
  : option (list V) :=
  match order with
  | [] => Some []
  | item :: order' =>
      match lookup_name item params, items_of params order' with
      | Some v, Some vs => Some (v :: vs)
      | _, _ => None
      end
  end.

Definition is_key {V} (params : list (string * V)) (i : string) : bool :=
  match lookup_name i params with Some _ => true | None => false end.

Definition reorder_params {V} (params : list (string * V))
    (order : list string) : Outcome (list V) :=
  match items_of params order with
  | Some vs => Returns vs
  | None =>
      Raises (ProgrammingError
                (ParameterMissing
                   (List.filter (fun i => negb (is_key params i)) order)))
  end.

(** The ASCII codec, for the examples. *)
Definition ascii_decode (b : bytes) : option string :=
  if forallb (fun c => Byte.to_nat c <? 128) b
  then Some (string_of_list_byte b) else None.

Definition b_ (s : string) : bytes := list_byte_of_string s.

(** ** Bytes *)

Lemma byte_eqb_refl (c : Byte.byte) : Byte.eqb c c = true.
Proof. now apply Byte.byte_dec_lb. Qed.

Lemma byte_eqb_eq (c d : Byte.byte) : Byte.eqb c d = true <-> c = d.
Proof. split; [apply Byte.byte_dec_bl | apply Byte.byte_dec_lb]. Qed.

Lemma byte_eqb_neq (c d : Byte.byte) : Byte.eqb c d = false <-> c <> d.
Proof.
  split.
  - apply Byte.eqb_false.
  - intros Hn. destruct (Byte.eqb c d) eqn:E; [|reflexivity].
    now apply byte_eqb_eq in E.
Qed.

Lemma bytes_eqb_eq (a b : bytes) : bytes_eqb a b = true <-> a = b.
Proof.
  revert b. induction a as [|x a IH]; intros [|y b]; simpl;
    try (split; [discriminate | discriminate]); try (split; reflexivity).
  rewrite andb_true_iff, byte_eqb_eq, IH. split.
  - now intros [-> ->].
  - intros [= -> ->]. now split.
Qed.

Lemma take_while_drop (p : Byte.byte -> bool) (s : bytes) :
  take_while p s ++ drop (length (take_while p s)) s = s.
Proof.
  induction s as [|c s IH]; simpl; [reflexivity|].
  destruct (p c); simpl; [now rewrite IH | reflexivity].
Qed.

Lemma take_while_app (p : Byte.byte -> bool) (a : bytes) (c : Byte.byte) (s : bytes) :
  forallb p a = true -> p c = false -> take_while p (a ++ c :: s) = a.
Proof.
  intros Ha Hc. induction a as [|x a IH]; simpl in *.
  - now rewrite Hc.
  - apply andb_true_iff in Ha as [-> Ha]. now rewrite IH.
Qed.

(** ** The pattern *)

Lemma re_placeholder_prefix (s g0 : bytes) (g1 : option bytes) :
  _re_placeholder s = Some (g0, g1) ->
  exists t, s = g0 ++ t /\ 2 <= length g0.
Proof.
  unfold _re_placeholder.
  destruct s as [|c r]; [discriminate|].
  destruct (Byte.eqb c PERCENT) eqn:Ec; [|discriminate].
  apply byte_eqb_eq in Ec. subst c.
  assert (Hany : forall (g0 : bytes) (g1 : option bytes),
             match r with
             | f :: _ => if dot f then Some ([PERCENT; f], @None bytes) else None
             | [] => None
             end = Some (g0, g1) ->
             exists t, PERCENT :: r = g0 ++ t /\ 2 <= length g0).
  { intros h0 h1. destruct r as [|f r']; [discriminate|].
    destruct (dot f); [|discriminate]. intros [= <- <-].
    exists r'. split; [reflexivity | simpl; lia]. }
  destruct r as [|c1 r1]; [apply Hany|].
  destruct (Byte.eqb c1 LPAREN) eqn:E1; [|apply Hany].
  apply byte_eqb_eq in E1. subst c1.
  pose proof (take_while_drop not_rparen r1) as Hsplit.
  destruct (take_while not_rparen r1) as [|n0 name] eqn:En; [apply Hany|].
  destruct (drop (length (n0 :: name)) r1) as [|c2 [|f t]] eqn:Ed;
    try apply Hany.
  destruct (Byte.eqb c2 RPAREN && dot f) eqn:E2; [|apply Hany].
  apply andb_true_iff in E2 as [E2 _]. apply byte_eqb_eq in E2. subst c2.
  intros [= <- <-]. exists t. split.
  - rewrite <- Hsplit. simpl. f_equal. f_equal. f_equal.
    now rewrite <- app_assoc.
  - simpl. lia.
Qed.

Lemma re_placeholder_not_percent (c : Byte.byte) (s : bytes) :
  c <> PERCENT -> _re_placeholder (c :: s) = None.
Proof.
  intros Hc. simpl. now apply byte_eqb_neq in Hc as ->.
Qed.

(** ** The first loop of [split_query], fragment by fragment *)

Fixpoint parts_of (query : bytes) (cur : nat) (ms : list Match) : list Part :=
  match ms with
  | [] => [mkPart (drop cur query) ItemNone None]
  | m :: ms' =>
      mkPart (slice query cur (fst (span0 m))) (ItemMatch m) None
        :: parts_of query (snd (span0 m)) ms'
  end.

Lemma split_loop (query : bytes) (ms : list Match) :
  forall (parts : list Part) (cur : nat) (m0 : option Match),
    let '(parts', cur', m') :=
      fold_left
        (fun '(parts, cur, _) m =>
           (parts ++ [mkPart (slice query cur (fst (span0 m))) (ItemMatch m) None],
            snd (span0 m), Some m))
        ms (parts, cur, m0) in
    parts' ++ [mkPart (drop cur' query) ItemNone None]
    = parts ++ parts_of query cur ms
    /\ (m' = None -> ms = [] /\ m0 = None /\ cur' = cur).
Proof.
  induction ms as [|m ms IH]; intros parts cur m0; simpl.
  - split; [reflexivity | now intros ->].
  - specialize (IH (parts ++ [mkPart (slice query cur (fst (span0 m))) (ItemMatch m) None])
                   (snd (span0 m)) (Some m)).
    destruct (fold_left _ ms _) as [[parts' cur'] m'].
    destruct IH as [IH1 IH2]. split.
    + rewrite IH1, <- app_assoc. reflexivity.
    + intros Hm. destruct (IH2 Hm) as (_ & [=] & _).
Qed.

Lemma split_parts_eq (query : bytes) :
  split_parts query = parts_of query 0 (finditer query).
Proof.
  unfold split_parts.
  pose proof (split_loop query (finditer query) [] 0 None) as H.
  destruct (fold_left _ (finditer query) _) as [[parts' cur'] m'].
  destruct H as [H1 H2]. simpl in H1. rewrite <- H1.
  destruct m' as [m1|]; [reflexivity|].
  destruct (H2 eq_refl) as (_ & _ & ->). reflexivity.
Qed.

(** The parts the first loop builds, read off the bytes directly: [acc] is
    the fragment gathered since the last match. *)
Fixpoint pieces (pos skip : nat) (acc s : bytes) : list Part :=
  match s with
  | [] => [mkPart acc ItemNone None]
  | c :: s' =>
      match skip with
      | S k => pieces (S pos) k acc s'
      | O =>
          match _re_placeholder s with
          | Some (g0, g1) =>
              mkPart acc (ItemMatch (mkMatch (pos, pos + length g0) g0 g1)) None
                :: pieces (S pos) (length g0 - 1) [] s'
          | None => pieces (S pos) 0 (acc ++ [c]) s'
          end
      end
  end.

Lemma slice_snoc (pre : bytes) (c : Byte.byte) (s : bytes) (cur : nat) :
  cur <= length pre ->
  slice (pre ++ c :: s) cur (S (length pre))
  = slice (pre ++ c :: s) cur (length pre) ++ [c].
Proof.
  intros Hc. unfold slice.
  rewrite !drop_app_le by lia.
  replace (S (length pre) - cur) with (S (length (drop cur pre)))
    by (rewrite length_drop; lia).
  replace (length pre - cur) with (length (drop cur pre))
    by (rewrite length_drop; lia).
  rewrite take_app_length.
  replace (S (length (drop cur pre))) with (length (drop cur pre ++ [c]))
    by (rewrite length_app; simpl; lia).
  replace (drop cur pre ++ c :: s) with ((drop cur pre ++ [c]) ++ s)
    by now rewrite <- app_assoc.
  now rewrite take_app_length.
Qed.

Lemma parts_of_pieces (s : bytes) :
  forall (pre : bytes) (skip cur : nat) (acc : bytes),
    (skip = 0 /\ cur <= length pre
       /\ acc = slice (pre ++ s) cur (length pre))
    \/ (0 < skip /\ cur = length pre + skip /\ acc = [] /\ skip <= length s) ->
    parts_of (pre ++ s) cur (finditer_from (length pre) skip s)
    = pieces (length pre) skip acc s.
Proof.
  induction s as [|c s IH]; intros pre skip cur acc Hinv.
  - simpl. destruct Hinv as [(-> & Hc & ->) | (Hs & _ & _ & Hl)];
      [|simpl in Hl; lia].
    unfold slice. rewrite take_ge; [reflexivity|].
    rewrite length_drop, length_app. simpl. lia.
  - assert (Hq : pre ++ c :: s = (pre ++ [c]) ++ s) by now rewrite <- app_assoc.
    assert (Hl : S (length pre) = length (pre ++ [c]))
      by (rewrite length_app; simpl; lia).
    destruct Hinv as [(-> & Hc & ->) | (Hs & -> & -> & Hle)].
    + cbn [finditer_from pieces].
      destruct (_re_placeholder (c :: s)) as [[g0 g1]|] eqn:Em.
      * cbn [parts_of span0 fst snd]. f_equal.
        destruct (re_placeholder_prefix _ _ _ Em) as (t & Ht & H2).
        rewrite Hq, Hl. apply IH.
        assert (Hlen : length (c :: s) = length g0 + length t)
          by (rewrite Ht, length_app; reflexivity).
        simpl in Hlen.
        right. rewrite <- Hl. repeat split; lia.
      * rewrite Hq, Hl. apply IH. left. rewrite <- Hl, <- Hq.
        repeat split; [lia|]. now rewrite slice_snoc.
    + destruct skip as [|k]; [lia|]. cbn [finditer_from pieces].
      rewrite Hq, Hl. apply IH. simpl in Hle.
      destruct k as [|k].
      * left. rewrite <- Hl. repeat split; [lia|].
        unfold slice. replace (S (length pre) - (length pre + 1)) with 0 by lia.
        reflexivity.
      * right. rewrite <- Hl. repeat split; lia.
Qed.

Lemma split_parts_pieces (query : bytes) :
  split_parts query = pieces 0 0 [] query.
Proof.
  rewrite split_parts_eq. unfold finditer.
  apply (parts_of_pieces query [] 0 0 []). left.
  split; [reflexivity|]. split; [simpl; lia | reflexivity].
Qed.

(** ** The second loop of [split_query] *)

(** The loop entered with [parts[i:]] equal to [l]. *)
Definition validate_all (encoding : bytes -> option string) (query : bytes)
    (done : list Part) (phtype : option PhType) (l : list Part)
  : Outcome (list Part) :=
  match l with
  | [] => Returns done
  | part :: rest => validate encoding query done phtype part rest
  end.

Lemma split_query_pieces (query : bytes) (encoding : bytes -> option string) :
  split_query query encoding
  = validate_all encoding query [] None (pieces 0 0 [] query).
Proof.
  unfold split_query, validate_all. rewrite split_parts_pieces.
  now destruct (pieces 0 0 [] query).
Qed.

Definition prefix_head (a : bytes) (l : list Part) : list Part :=
  match l with
  | [] => []
  | p :: l' => set_part0 (a ++ part0 p) p :: l'
  end.

Lemma prefix_head_nil (l : list Part) : prefix_head [] l = l.
Proof. destruct l as [|[] l]; reflexivity. Qed.

Lemma pieces_nonempty (s : bytes) :
  forall pos skip acc, pieces pos skip acc s <> [].
Proof.
  induction s as [|c s IH]; intros pos skip acc; cbn [pieces]; [discriminate|].
  destruct skip; [|apply IH].
  destruct (_re_placeholder (c :: s)) as [[g0 g1]|]; [discriminate | apply IH].
Qed.

Lemma pieces_acc (a s : bytes) :
  forall pos skip acc,
    pieces pos skip (a ++ acc) s = prefix_head a (pieces pos skip acc s).
Proof.
  induction s as [|c s IH]; intros pos skip acc; cbn [pieces]; [reflexivity|].
  destruct skip; [|apply IH].
  destruct (_re_placeholder (c :: s)) as [[g0 g1]|]; [reflexivity|].
  rewrite <- app_assoc. apply IH.
Qed.

Lemma pieces_skip (g rest : bytes) :
  forall pos acc,
    pieces pos (length g) acc (g ++ rest) = pieces (pos + length g) 0 acc rest.
Proof.
  induction g as [|c g IH]; intros pos acc; simpl.
  - now rewrite Nat.add_0_r.
  - rewrite IH. f_equal. lia.
Qed.

Lemma pieces_match (s g0 rest : bytes) (g1 : option bytes) (pos : nat) (acc : bytes) :
  _re_placeholder s = Some (g0, g1) ->
  s = g0 ++ rest ->
  pieces pos 0 acc s
  = mkPart acc (ItemMatch (mkMatch (pos, pos + length g0) g0 g1)) None
      :: pieces (pos + length g0) 0 [] rest.
Proof.
  intros Hm Hs.
  destruct (re_placeholder_prefix _ _ _ Hm) as (_ & _ & H2).
  destruct g0 as [|c g0]; [simpl in H2; lia|].
  subst s. change ((c :: g0) ++ rest) with (c :: (g0 ++ rest)) in *.
  cbn [pieces]. rewrite Hm. f_equal.
  replace (length (c :: g0) - 1) with (length g0) by (simpl; lia).
  rewrite pieces_skip. f_equal. simpl. lia.
Qed.

Lemma pieces_no_match (c : Byte.byte) (s : bytes) (pos : nat) (acc : bytes) :
  _re_placeholder (c :: s) = None ->
  pieces pos 0 acc (c :: s) = pieces (S pos) 0 (acc ++ [c]) s.
Proof. intros Hm. cbn [pieces]. now rewrite Hm. Qed.

(** ** Queries as they are written *)

(** A placeholder: its name, if it has one, and whether it asks for the
    binary format. *)
Record Placeholder := mkPlaceholder {
  ph_name : option bytes;
  ph_binary : bool }.

Definition format_byte (binary : bool) : Byte.byte :=
  if binary then LETTER_b else LETTER_s.

(** [%s], [%b], [%(name)s] or [%(name)b]. *)
Definition written (p : Placeholder) : bytes :=
  match ph_name p with
  | None => [PERCENT; format_byte (ph_binary p)]
  | Some name => PERCENT :: LPAREN :: name ++ [RPAREN; format_byte (ph_binary p)]
  end.

(** Literal text, every [%] doubled. *)
Fixpoint escape (text : bytes) : bytes :=
  match text with
  | [] => []
  | c :: text' =>
      if Byte.eqb c PERCENT then PERCENT :: PERCENT :: escape text'
      else c :: escape text'
  end.

(** A query: fragments of literal text, each followed by a placeholder, and
    a last fragment. *)
Fixpoint template (items : list (bytes * Placeholder)) (final : bytes) : bytes :=
  match items with
  | [] => escape final
  | (text, p) :: items' => escape text ++ written p ++ template items' final
  end.

(** A name is not empty and has no [)] in it. *)
Definition well_named (p : Placeholder) : Prop :=
  match ph_name p with
  | None => True
  | Some name => name <> [] /\ forallb not_rparen name = true
  end.

Definition ph_type (p : Placeholder) : PhType :=
  match ph_name p with None => TypeInt | Some _ => TypeBytes end.

Definition item_of (i : nat) (p : Placeholder) : Item :=
  match ph_name p with
  | None => ItemInt i
  | Some name => ItemBytes name
  end.

(** The parts expected of the items, the first at index [i]. *)
Fixpoint placed (i : nat) (items : list (bytes * Placeholder)) : list Part :=
  match items with
  | [] => []
  | (text, p) :: items' =>
      mkPart text (item_of i p) (Some (ph_binary p)) :: placed (S i) items'
  end.

(** Bytes in which the pattern finds nothing: every [%] is the last byte or
    stands before a newline. *)
Fixpoint no_placeholder (s : bytes) : bool :=
  match s with
  | [] => true
  | c :: s' =>
      (negb (Byte.eqb c PERCENT)
       || match s' with [] => true | d :: _ => Byte.eqb d NEWLINE end)
      && no_placeholder s'
  end.

Lemma re_placeholder_escaped (rest : bytes) :
  _re_placeholder (PERCENT :: PERCENT :: rest) = Some ([PERCENT; PERCENT], None).
Proof. reflexivity. Qed.

Lemma re_placeholder_written (p : Placeholder) (rest : bytes) :
  well_named p ->
  _re_placeholder (written p ++ rest) = Some (written p, ph_name p).
Proof.
  unfold well_named, written. destruct p as [[name|] binary]; simpl.
  - intros [Hne Hnp].
    rewrite <- app_assoc. simpl.
    rewrite (take_while_app not_rparen name RPAREN) by (assumption || reflexivity).
    destruct name as [|n0 name]; [contradiction|].
    change (S (length name)) with (length (n0 :: name)).
    rewrite drop_app_length.
    destruct binary; reflexivity.
  - intros _. destruct binary; reflexivity.
Qed.

Lemma pieces_inert (s : bytes) :
  no_placeholder s = true ->
  forall pos acc, pieces pos 0 acc s = [mkPart (acc ++ s) ItemNone None].
Proof.
  induction s as [|c s IH]; intros Hs pos acc.
  - simpl. now rewrite app_nil_r.
  - cbn [no_placeholder] in Hs. apply andb_true_iff in Hs as [Hc Hs].
    rewrite pieces_no_match.
    + rewrite IH by assumption. now rewrite <- app_assoc.
    + destruct (Byte.eqb c PERCENT) eqn:Ec.
      * apply byte_eqb_eq in Ec. subst c. simpl in Hc.
        destruct s as [|d s']; [reflexivity|].
        apply byte_eqb_eq in Hc. subst d. reflexivity.
      * apply re_placeholder_not_percent. now apply byte_eqb_neq.
Qed.

(** Each [%%] makes a part of its own, which the loop merges into the next
    one: the escaped text ends up, unescaped, in front of what follows. *)
Lemma validate_percent (encoding : bytes -> option string) (query : bytes)
    (done : list Part) (phtype : option PhType) (a : bytes) (sp : nat * nat)
    (l : list Part) :
  l <> [] ->
  validate encoding query done phtype
    (mkPart a (ItemMatch (mkMatch sp [PERCENT; PERCENT] None)) None) l
  = validate_all encoding query done phtype (prefix_head (a ++ [PERCENT]) l).
Proof.
  destruct l as [|next rest]; [contradiction|]. intros _.
  simpl. now rewrite <- app_assoc.
Qed.

Ltac same_offset :=
  match goal with
  | |- validate_all _ _ _ _ (pieces ?a _ _ _)
       = validate_all _ _ _ _ (pieces ?b _ _ _) =>
      replace a with b by (simpl; lia); reflexivity
  end.

Lemma validate_text (encoding : bytes -> option string) (query : bytes)
    (text : bytes) :
  forall pos acc rest done phtype,
    validate_all encoding query done phtype (pieces pos 0 acc (escape text ++ rest))
    = validate_all encoding query done phtype
        (pieces (pos + length (escape text)) 0 (acc ++ text) rest).
Proof.
  induction text as [|c text IH]; intros pos acc rest done phtype.
  - simpl. now rewrite Nat.add_0_r, app_nil_r.
  - cbn [escape]. destruct (Byte.eqb c PERCENT) eqn:Ec.
    + apply byte_eqb_eq in Ec. subst c.
      rewrite (pieces_match _ [PERCENT; PERCENT] (escape text ++ rest) None)
        by reflexivity.
      cbn [validate_all].
      rewrite validate_percent by apply pieces_nonempty.
      rewrite <- pieces_acc, app_nil_r, IH.
      rewrite <- app_assoc. simpl.
      same_offset.
    + change ((c :: escape text) ++ rest) with (c :: (escape text ++ rest)).
      rewrite pieces_no_match
        by (apply re_placeholder_not_percent; now apply byte_eqb_neq).
      rewrite IH, <- app_assoc. simpl.
      same_offset.
Qed.

Lemma last_byte_written (p : Placeholder) (c : Byte.byte) :
  last_byte_is c (written p) = Byte.eqb (format_byte (ph_binary p)) c.
Proof.
  unfold last_byte_is, written. destruct (ph_name p) as [name|].
  - change (PERCENT :: LPAREN :: name ++ [RPAREN; format_byte (ph_binary p)])
      with ([PERCENT; LPAREN] ++ name ++ [RPAREN] ++ [format_byte (ph_binary p)]).
    rewrite !app_assoc, last_snoc. reflexivity.
  - reflexivity.
Qed.

Lemma written_not_special (p : Placeholder) :
  well_named p ->
  bytes_eqb (written p) [PERCENT; PERCENT] = false
  /\ bytes_eqb (written p) [PERCENT; LPAREN] = false
  /\ bytes_eqb (written p) [PERCENT; SPACE] = false.
Proof.
  unfold well_named, written. destruct p as [[[|n0 name]|] binary]; simpl.
  - now intros [? _].
  - intros _. repeat split; reflexivity.
  - intros _. destruct binary; repeat split; reflexivity.
Qed.

(** The loop at a well-written placeholder of the type met so far. *)
Lemma validate_placeholder (encoding : bytes -> option string) (query : bytes)
    (done : list Part) (phtype : option PhType) (a : bytes) (sp : nat * nat)
    (p : Placeholder) (l : list Part) :
  well_named p ->
  phtype = None \/ phtype = Some (ph_type p) ->
  validate encoding query done phtype
    (mkPart a (ItemMatch (mkMatch sp (written p) (ph_name p))) None) l
  = validate_all encoding query
      (done ++ [mkPart a (item_of (length done) p) (Some (ph_binary p))])
      (Some (ph_type p)) l.
Proof.
  intros Hw Hty.
  destruct (written_not_special p Hw) as (H1 & H2 & H3).
  assert (Hfmt : last_byte_is LETTER_b (written p) || last_byte_is LETTER_s (written p) = true).
  { rewrite !last_byte_written. now destruct (ph_binary p). }
  assert (Hb : last_byte_is LETTER_b (written p) = ph_binary p).
  { rewrite last_byte_written. now destruct (ph_binary p). }
  assert (Hmixed :
            match phtype with
            | None => false
            | Some ty0 =>
                negb (PhType_eqb ty0
                        (match ph_name p with None => TypeInt | Some _ => TypeBytes end))
            end = false).
  { destruct Hty as [-> | ->]; [reflexivity|].
    unfold ph_type. now destruct (ph_name p). }
  assert (Hnext :
            match phtype with
            | None => Some (match ph_name p with None => TypeInt | Some _ => TypeBytes end)
            | Some _ => phtype
            end = Some (ph_type p)).
  { destruct Hty as [-> | ->]; reflexivity. }
  destruct l as [|next rest]; cbn [validate validate_all part1 part0 group0 group1];
    rewrite H1, H2, H3, Hfmt, Hb; cbn [negb]; rewrite Hmixed; try rewrite Hnext;
    unfold item_of; reflexivity.
Qed.

Lemma validate_written (encoding : bytes -> option string) (query : bytes)
    (p : Placeholder) (pos : nat) (acc rest : bytes) (done : list Part)
    (phtype : option PhType) :
  well_named p ->
  phtype = None \/ phtype = Some (ph_type p) ->
  validate_all encoding query done phtype (pieces pos 0 acc (written p ++ rest))
  = validate_all encoding query
      (done ++ [mkPart acc (item_of (length done) p) (Some (ph_binary p))])
      (Some (ph_type p)) (pieces (pos + length (written p)) 0 [] rest).
Proof.
  intros Hw Hty.
  rewrite (pieces_match _ (written p) rest (ph_name p))
    by (apply re_placeholder_written, Hw || reflexivity).
  cbn [validate_all]. now apply validate_placeholder.
Qed.

(** A well-written query followed by bytes where the pattern finds nothing
    comes out as its fragments, unescaped, and its placeholders. *)
Lemma validate_template (encoding : bytes -> option string) (query : bytes)
    (ty : PhType) (final tail : bytes) (items : list (bytes * Placeholder)) :
  Forall (fun it => well_named (snd it)) items ->
  Forall (fun it => ph_type (snd it) = ty) items ->
  no_placeholder tail = true ->
  forall pos acc done phtype,
    phtype = None \/ phtype = Some ty ->
    validate_all encoding query done phtype
      (pieces pos 0 acc (template items final ++ tail))
    = Returns (done ++ prefix_head acc
                 (placed (length done) items
                    ++ [mkPart (final ++ tail) ItemNone None])).
Proof.
  intros Hw Hty Htail.
  induction items as [|[text p] items IH]; intros pos acc done phtype Hph.
  - cbn [template placed]. rewrite validate_text.
    rewrite pieces_inert by assumption.
    simpl. now rewrite <- app_assoc.
  - apply Forall_cons in Hw as [Hw Hws]. apply Forall_cons in Hty as [Hp Htys].
    simpl in Hw, Hp.
    cbn [template placed]. rewrite <- !app_assoc.
    rewrite validate_text, validate_written;
      [|assumption | now rewrite Hp].
    rewrite IH; [|assumption|assumption|right; now rewrite Hp].
    rewrite prefix_head_nil, length_app. simpl.
    rewrite Nat.add_1_r, <- app_assoc. reflexivity.
Qed.

(** The same, whatever follows the query: the loop reaches the bytes after
    it with the placeholders validated and the last fragment in hand. *)
Definition carried (acc : bytes) (items : list (bytes * Placeholder))
    (final : bytes) : bytes :=
  match items with [] => acc ++ final | _ => final end.

Definition type_after (phtype : option PhType) (ty : PhType)
    (items : list (bytes * Placeholder)) : option PhType :=
  match items with [] => phtype | _ => Some ty end.

Lemma validate_template_then (encoding : bytes -> option string) (query : bytes)
    (ty : PhType) (final rest : bytes) (items : list (bytes * Placeholder)) :
  Forall (fun it => well_named (snd it)) items ->
  Forall (fun it => ph_type (snd it) = ty) items ->
  forall pos acc done phtype,
    phtype = None \/ phtype = Some ty ->
    validate_all encoding query done phtype
      (pieces pos 0 acc (template items final ++ rest))
    = validate_all encoding query
        (done ++ prefix_head acc (placed (length done) items))
        (type_after phtype ty items)
        (pieces (pos + length (template items final)) 0
           (carried acc items final) rest).
Proof.
  intros Hw Hty.
  induction items as [|[text p] items IH]; intros pos acc done phtype Hph.
  - cbn [template placed prefix_head carried type_after].
    now rewrite validate_text, app_nil_r.
  - apply Forall_cons in Hw as [Hw Hws]. apply Forall_cons in Hty as [Hp Htys].
    simpl in Hw, Hp.
    cbn [template placed prefix_head carried type_after set_part0 part0 part1 part2].
    rewrite <- !app_assoc.
    rewrite validate_text, validate_written;
      [|assumption | now rewrite Hp].
    rewrite IH; [|assumption|assumption|right; now rewrite Hp].
    rewrite prefix_head_nil, length_app, <- app_assoc. simpl length.
    rewrite Nat.add_1_r, Hp.
    replace (type_after (Some ty) ty items) with (Some ty) by now destruct items.
    replace (carried [] items final) with final by now destruct items.
    rewrite !length_app. simpl.
    match goal with
    | |- validate_all _ _ _ _ (pieces ?a _ _ _)
         = validate_all _ _ _ _ (pieces ?b _ _ _) =>
        replace a with b by lia; reflexivity
    end.
Qed.

Lemma type_after_compatible (phtype : option PhType) (ty : PhType)
    (items : list (bytes * Placeholder)) :
  phtype = None \/ phtype = Some ty ->
  type_after phtype ty items = None \/ type_after phtype ty items = Some ty.
Proof. destruct items; simpl; auto. Qed.

(** What the loop does at the placeholders it refuses. *)
Lemma validate_incomplete_percent (encoding : bytes -> option string)
    (query : bytes) (done : list Part) (phtype : option PhType) (a : bytes)
    (sp : nat * nat) (l : list Part) :
  validate encoding query done phtype
    (mkPart a (ItemMatch (mkMatch sp [PERCENT; SPACE] None)) None) l
  = Raises (ProgrammingError IncompletePercent).
Proof. destruct l; reflexivity. Qed.

Lemma validate_unknown_format (encoding : bytes -> option string)
    (query : bytes) (done : list Part) (phtype : option PhType) (a : bytes)
    (sp : nat * nat) (f : Byte.byte) (l : list Part) :
  f <> PERCENT -> f <> LPAREN -> f <> SPACE -> f <> LETTER_b -> f <> LETTER_s ->
  validate encoding query done phtype
    (mkPart a (ItemMatch (mkMatch sp [PERCENT; f] None)) None) l
  = match encoding [PERCENT; f] with
    | Some s => Raises (ProgrammingError (OnlySAndB s))
    | None => Raises UnicodeDecodeError
    end.
Proof.
  intros H1 H2 H3 H4 H5.
  apply byte_eqb_neq in H1, H2, H3, H4, H5.
  destruct l; cbn [validate part1 group0 bytes_eqb last_byte_is last];
    rewrite byte_eqb_refl, H1, H2, H3, H4, H5; cbn [andb orb negb];
    unfold decode_with; destruct (encoding [PERCENT; f]); reflexivity.
Qed.

Definition not_space (c : Byte.byte) : bool := negb (is_space c).

Lemma validate_unclosed (encoding : bytes -> option string)
    (pre rest : bytes) (done : list Part) (phtype : option PhType) (a : bytes)
    (n : nat) (l : list Part) :
  validate encoding (pre ++ PERCENT :: LPAREN :: rest) done phtype
    (mkPart a (ItemMatch (mkMatch (length pre, n) [PERCENT; LPAREN] None)) None) l
  = match encoding (PERCENT :: LPAREN :: take_while not_space rest) with
    | Some s => Raises (ProgrammingError (IncompletePlaceholder s))
    | None => Raises UnicodeDecodeError
    end.
Proof.
  destruct l; cbn [validate part1 group0 span0 fst];
    change (bytes_eqb [PERCENT; LPAREN] [PERCENT; PERCENT]) with false;
    change (bytes_eqb [PERCENT; LPAREN] [PERCENT; LPAREN]) with true;
    cbv iota; rewrite drop_app_length;
    change (first_word (PERCENT :: LPAREN :: rest))
      with (Returns (A:=bytes) (PERCENT :: LPAREN :: take_while not_space rest));
    cbn [and_then]; unfold decode_with;
    destruct (encoding _); reflexivity.
Qed.

Lemma validate_mixed (encoding : bytes -> option string) (query : bytes)
    (done : list Part) (ty : PhType) (a : bytes) (sp : nat * nat)
    (p : Placeholder) (l : list Part) :
  well_named p ->
  ph_type p <> ty ->
  validate encoding query done (Some ty)
    (mkPart a (ItemMatch (mkMatch sp (written p) (ph_name p))) None) l
  = Raises (ProgrammingError Mixed).
Proof.
  intros Hw Hty.
  destruct (written_not_special p Hw) as (H1 & H2 & H3).
  assert (Hfmt : last_byte_is LETTER_b (written p) || last_byte_is LETTER_s (written p) = true).
  { rewrite !last_byte_written. now destruct (ph_binary p). }
  assert (Hmixed :
            negb (PhType_eqb ty
                    (match ph_name p with None => TypeInt | Some _ => TypeBytes end))
            = true).
  { unfold ph_type in Hty. destruct ty, (ph_name p); simpl; congruence. }
  destruct l; cbn [validate part1 part0 group0 group1];
    rewrite H1, H2, H3, Hfmt; cbn [negb]; rewrite Hmixed; reflexivity.
Qed.

Lemma re_placeholder_any (f : Byte.byte) (rest : bytes) :
  f <> LPAREN -> f <> NEWLINE ->
  _re_placeholder (PERCENT :: f :: rest) = Some ([PERCENT; f], None).
Proof.
  intros H1 H2. apply byte_eqb_neq in H1, H2.
  cbn [_re_placeholder]. rewrite byte_eqb_refl, H1. unfold dot. now rewrite H2.
Qed.

Lemma take_while_all (p : Byte.byte -> bool) (s : bytes) :
  forallb p s = true -> take_while p s = s.
Proof.
  induction s as [|c s IH]; simpl; [reflexivity|].
  intros H. apply andb_true_iff in H as [-> H]. now rewrite IH.
Qed.

Lemma re_placeholder_unclosed (rest : bytes) :
  forallb not_rparen rest = true ->
  _re_placeholder (PERCENT :: LPAREN :: rest) = Some ([PERCENT; LPAREN], None).
Proof.
  intros H. cbn [_re_placeholder].
  change (Byte.eqb PERCENT PERCENT) with true.
  change (Byte.eqb LPAREN LPAREN) with true.
  change (dot LPAREN) with true. cbv iota.
  rewrite (take_while_all _ _ H).
  destruct rest as [|c rest]; [reflexivity|]. now rewrite drop_all.
Qed.

(** ** Examples of queries *)

Definition ascii_query : list (bytes * Placeholder) :=
  [(b_ "select ", mkPlaceholder None false);
   (b_ ", 10 % ", mkPlaceholder None true)].

Definition named_query : list (bytes * Placeholder) :=
  [(b_ "select ", mkPlaceholder (Some (b_ "x")) false);
   (b_ ", ", mkPlaceholder (Some (b_ "y")) true);
   (b_ " + ", mkPlaceholder (Some (b_ "x")) false)].

Ltac items_ok :=
  repeat first
    [ apply Forall_nil_2
    | apply Forall_cons_2
    | exact I
    | reflexivity
    | discriminate
    | split ].

(** ** What [split_query] does with a well-written query *)

Lemma split_query_written (encoding : bytes -> option string) (ty : PhType)
    (items : list (bytes * Placeholder)) (final tail : bytes) :
  Forall (fun it => well_named (snd it)) items ->
  Forall (fun it => ph_type (snd it) = ty) items ->
  no_placeholder tail = true ->
  split_query (template items final ++ tail) encoding
  = Returns (placed 0 items ++ [mkPart (final ++ tail) ItemNone None]).
Proof.
  intros Hw Hty Htail. rewrite split_query_pieces.
  rewrite (validate_template encoding _ ty final tail items Hw Hty Htail)
    by now left.
  now rewrite prefix_head_nil.
Qed.

(** X13: splitting undoes writing.  A query written as literal fragments
    with every [%] doubled, each followed by [%s], [%b], [%(name)s] or
    [%(name)b], all positional or all named, splits into exactly those
    fragments, with single [%], positional placeholders numbered from 0 in
    the order written, named ones keeping their name, and the format flag
    set for [b]; the last part carries the last fragment and no item. *)
Theorem split_query_template (encoding : bytes -> option string) (ty : PhType)
    (items : list (bytes * Placeholder)) (final : bytes) :
  Forall (fun it => well_named (snd it)) items ->
  Forall (fun it => ph_type (snd it) = ty) items ->
  split_query (template items final) encoding
  = Returns (placed 0 items ++ [mkPart final ItemNone None]).
Proof.
  intros Hw Hty.
  pose proof (split_query_written encoding ty items final [] Hw Hty eq_refl) as H.
  now rewrite !app_nil_r in H.
Qed.

Lemma split_query_template_witness :
  split_query (template named_query (b_ " from t")) ascii_decode
  = Returns (placed 0 named_query ++ [mkPart (b_ " from t") ItemNone None]).
Proof.
  apply (split_query_template ascii_decode TypeBytes); unfold named_query; items_ok.
Defined.

(** X14: a [%] that ends the query or stands before a newline is no
    placeholder and no error: after a well-written query, bytes in which
    every [%] is of that kind are kept as they are, at the end of the last
    fragment. *)
Theorem stray_percent_kept (encoding : bytes -> option string) (ty : PhType)
    (items : list (bytes * Placeholder)) (final tail : bytes) :
  Forall (fun it => well_named (snd it)) items ->
  Forall (fun it => ph_type (snd it) = ty) items ->
  no_placeholder tail = true ->
  split_query (template items final ++ tail) encoding
  = Returns (placed 0 items ++ [mkPart (final ++ tail) ItemNone None]).
Proof.
  intros Hw Hty Htail. now apply (split_query_written encoding ty).
Qed.

Lemma stray_percent_kept_witness :
  split_query (template ascii_query (b_ " from t where a > 50") ++ [PERCENT; NEWLINE; PERCENT])
    ascii_decode
  = Returns (placed 0 ascii_query
               ++ [mkPart (b_ " from t where a > 50" ++ [PERCENT; NEWLINE; PERCENT])
                     ItemNone None]).
Proof.
  apply (stray_percent_kept ascii_decode TypeInt); unfold ascii_query; items_ok.
Defined.

(** X15: [% ] is refused as an incomplete placeholder wherever it stands
    after a well-written query, whatever comes after it. *)
Theorem incomplete_percent_rejected (encoding : bytes -> option string)
    (ty : PhType) (items : list (bytes * Placeholder)) (final rest : bytes) :
  Forall (fun it => well_named (snd it)) items ->
  Forall (fun it => ph_type (snd it) = ty) items ->
  split_query (template items final ++ PERCENT :: SPACE :: rest) encoding
  = Raises (ProgrammingError IncompletePercent).
Proof.
  intros Hw Hty. rewrite split_query_pieces.
  rewrite (validate_template_then encoding _ ty final _ items Hw Hty)
    by now left.
  rewrite (pieces_match _ [PERCENT; SPACE] rest None) by reflexivity.
  apply validate_incomplete_percent.
Qed.

Lemma incomplete_percent_rejected_witness :
  split_query (template ascii_query (b_ " from t where a") ++ PERCENT :: SPACE :: b_ "2 = %s")
    ascii_decode
  = Raises (ProgrammingError IncompletePercent).
Proof.
  apply (incomplete_percent_rejected ascii_decode TypeInt); unfold ascii_query; items_ok.
Defined.

(** X16: [%(] with no [)] anywhere after it is refused: the exception is
    [ProgrammingError] for an incomplete placeholder, naming the bytes from
    [%(] to the next white space, or [UnicodeDecodeError] where those bytes
    do not decode. *)
Theorem unclosed_name_rejected (encoding : bytes -> option string)
    (ty : PhType) (items : list (bytes * Placeholder)) (final rest : bytes) :
  Forall (fun it => well_named (snd it)) items ->
  Forall (fun it => ph_type (snd it) = ty) items ->
  forallb not_rparen rest = true ->
  split_query (template items final ++ PERCENT :: LPAREN :: rest) encoding
  = match encoding (PERCENT :: LPAREN :: take_while not_space rest) with
    | Some s => Raises (ProgrammingError (IncompletePlaceholder s))
    | None => Raises UnicodeDecodeError
    end.
Proof.
  intros Hw Hty Hrest. rewrite split_query_pieces.
  rewrite (validate_template_then encoding _ ty final _ items Hw Hty)
    by now left.
  rewrite (pieces_match _ [PERCENT; LPAREN] rest None)
    by (now apply re_placeholder_unclosed || reflexivity).
  cbn [validate_all Nat.add].
  apply validate_unclosed.
Qed.

Lemma unclosed_name_rejected_witness :
  split_query (template ascii_query (b_ " from t where a = ") ++ PERCENT :: LPAREN :: b_ "name and b")
    ascii_decode
  = Raises (ProgrammingError (IncompletePlaceholder "%(name")).
Proof.
  apply (unclosed_name_rejected ascii_decode TypeInt); unfold ascii_query; items_ok.
Defined.

(** X17: [%] followed by a byte other than [s], [b], [%], [(], a space or a
    newline is refused wherever it stands after a well-written query:
    [ProgrammingError] naming the two bytes, or [UnicodeDecodeError] where
    they do not decode. *)
Theorem unknown_format_rejected (encoding : bytes -> option string)
    (ty : PhType) (items : list (bytes * Placeholder)) (final rest : bytes)
    (f : Byte.byte) :
  Forall (fun it => well_named (snd it)) items ->
  Forall (fun it => ph_type (snd it) = ty) items ->
  ~ In f [LETTER_s; LETTER_b; PERCENT; LPAREN; SPACE; NEWLINE] ->
  split_query (template items final ++ PERCENT :: f :: rest) encoding
  = match encoding [PERCENT; f] with
    | Some s => Raises (ProgrammingError (OnlySAndB s))
    | None => Raises UnicodeDecodeError
    end.
Proof.
  intros Hw Hty Hf. rewrite split_query_pieces.
  rewrite (validate_template_then encoding _ ty final _ items Hw Hty)
    by now left.
  assert (Hne : forall c, In c [LETTER_s; LETTER_b; PERCENT; LPAREN; SPACE; NEWLINE] -> f <> c).
  { intros c Hc ->. contradiction. }
  rewrite (pieces_match _ [PERCENT; f] rest None);
    [| apply re_placeholder_any; apply Hne; simpl; auto 10 | reflexivity].
  apply validate_unknown_format; apply Hne; simpl; auto 10.
Qed.

Lemma unknown_format_rejected_witness :
  split_query (template ascii_query (b_ " from t where a = ") ++ PERCENT :: Byte.x64 :: b_ " and")
    ascii_decode
  = Raises (ProgrammingError (OnlySAndB "%d")).
Proof.
  apply (unknown_format_rejected ascii_decode TypeInt); unfold ascii_query;
    [items_ok | items_ok |].
  simpl. intros H. repeat (destruct H as [H | H]; [discriminate H|]). exact H.
Defined.

(** X18: positional and named placeholders cannot be mixed: a well-written
    placeholder of the other kind than those before it is refused, whatever
    comes after it. *)
Theorem mixed_placeholders_rejected (encoding : bytes -> option string)
    (ty : PhType) (items : list (bytes * Placeholder)) (final rest : bytes)
    (p : Placeholder) :
  items <> [] ->
  Forall (fun it => well_named (snd it)) items ->
  Forall (fun it => ph_type (snd it) = ty) items ->
  well_named p ->
  ph_type p <> ty ->
  split_query (template items final ++ written p ++ rest) encoding
  = Raises (ProgrammingError Mixed).
Proof.
  intros Hne Hw Hty Hp Hpty. rewrite split_query_pieces.
  rewrite (validate_template_then encoding _ ty final _ items Hw Hty)
    by now left.
  rewrite (pieces_match _ (written p) rest (ph_name p))
    by (now apply re_placeholder_written || reflexivity).
  destruct items as [|it items]; [contradiction|].
  cbn [validate_all type_after].
  now apply validate_mixed.
Qed.

Lemma mixed_placeholders_rejected_witness :
  split_query (template ascii_query (b_ " from t where a = ")
                 ++ written (mkPlaceholder (Some (b_ "a")) false) ++ b_ " and")
    ascii_decode
  = Raises (ProgrammingError Mixed).
Proof.
  apply (mixed_placeholders_rejected ascii_decode TypeInt); unfold ascii_query;
    first [discriminate | items_ok].
Defined.

(** ** What [split_query] returns for any query it accepts *)

(** The parts the first loop hands to the second: a match in every part but
    the last, none in the last. *)
Fixpoint raw (part : Part) (rest : list Part) : Prop :=
  match rest with
  | [] => part1 part = ItemNone
  | next :: rest' => (exists m, part1 part = ItemMatch m) /\ raw next rest'
  end.

Lemma raw_set_part0 (a : bytes) (part : Part) (rest : list Part) :
  raw part rest -> raw (set_part0 a part) rest.
Proof. destruct rest; exact id. Qed.

Lemma pieces_raw (s : bytes) :
  forall pos skip acc part rest,
    pieces pos skip acc s = part :: rest -> raw part rest.
Proof.
  induction s as [|c s IH]; intros pos skip acc part rest; cbn [pieces].
  - now intros [= <- <-].
  - destruct skip; [|apply IH].
    destruct (_re_placeholder (c :: s)) as [[g0 g1]|]; [|apply IH].
    intros [= <- <-].
    destruct (pieces (S pos) (length g0 - 1) [] s) as [|next rest'] eqn:E.
    + now apply pieces_nonempty in E.
    + split; [eauto | eapply IH, E].
Qed.

(** A validated part: its index or a name, and a format. *)
Definition numbered (ty : PhType) (i : nat) (p : Part) : Prop :=
  match ty with
  | TypeInt => part1 p = ItemInt i
  | TypeBytes => exists name, part1 p = ItemBytes name
  end /\ is_Some (part2 p).

Definition all_numbered (ty : PhType) (l : list Part) : Prop :=
  forall j p, l !! j = Some p -> numbered ty j p.

Lemma all_numbered_snoc (ty : PhType) (l : list Part) (p : Part) :
  all_numbered ty l -> numbered ty (length l) p -> all_numbered ty (l ++ [p]).
Proof.
  intros Hl Hp j x Hj. apply lookup_app_Some in Hj as [Hj | [Hle Hj]].
  - now apply Hl.
  - destruct (j - length l) as [|k] eqn:E; [|discriminate].
    injection Hj as <-. replace j with (length l) by lia. exact Hp.
Qed.

Lemma validate_shape (encoding : bytes -> option string) (query : bytes)
    (rest : list Part) :
  forall part done phtype parts,
    raw part rest ->
    (forall ty, phtype = Some ty -> all_numbered ty done) ->
    (phtype = None -> done = []) ->
    validate encoding query done phtype part rest = Returns parts ->
    exists ty front final,
      parts = front ++ [final] /\ part1 final = ItemNone
      /\ all_numbered ty front.
Proof.
  induction rest as [|next rest IH]; intros part done phtype parts Hraw Hdone Hnone Hv.
  - simpl in Hraw. cbn [validate] in Hv. rewrite Hraw in Hv.
    injection Hv as <-.
    destruct phtype as [ty|].
    + exists ty, done, part. auto.
    + exists TypeInt, done, part. rewrite (Hnone eq_refl).
      split; [reflexivity|]. split; [assumption|].
      intros j p Hj. discriminate Hj.
  - destruct Hraw as [[m Hm] Hraw]. cbn [validate] in Hv. rewrite Hm in Hv.
    destruct (bytes_eqb (group0 m) [PERCENT; PERCENT]).
    { eapply IH; [|exact Hdone|exact Hnone|exact Hv].
      now apply raw_set_part0. }
    destruct (bytes_eqb (group0 m) [PERCENT; LPAREN]).
    { destruct (first_word _); [|discriminate]. cbn [and_then] in Hv.
      destruct (decode_with _ _); discriminate. }
    destruct (bytes_eqb (group0 m) [PERCENT; SPACE]); [discriminate|].
    destruct (negb _).
    { destruct (decode_with _ _); discriminate. }
    match type of Hv with (if ?b then _ else _) = _ => destruct b eqn:Emixed end;
      [discriminate|].
    eapply IH; [exact Hraw| | |exact Hv].
    + intros ty Hty. apply all_numbered_snoc.
      * destruct phtype as [ty0|].
        -- injection Hty as <-. now apply Hdone.
        -- rewrite (Hnone eq_refl). intros j p Hj. discriminate Hj.
      * split; [|simpl; eauto]. cbn [part1].
        destruct phtype as [ty0|].
        -- injection Hty as <-. apply negb_false_iff in Emixed.
           destruct ty0, (group1 m); try discriminate; eauto.
        -- injection Hty as <-. destruct (group1 m); eauto.
    + now destruct phtype.
Qed.

Lemma split_query_returns (query : bytes) (encoding : bytes -> option string)
    (parts : list Part) :
  split_query query encoding = Returns parts ->
  exists ty front final,
    parts = front ++ [final] /\ part1 final = ItemNone
    /\ all_numbered ty front.
Proof.
  rewrite split_query_pieces. intros Hv.
  destruct (pieces 0 0 [] query) as [|part rest] eqn:E.
  { now apply pieces_nonempty in E. }
  apply pieces_raw in E. cbn [validate_all] in Hv.
  apply (validate_shape encoding query rest part [] None parts E);
    [discriminate | reflexivity | assumption].
Qed.

(** X19: whatever the query, when [split_query] returns, the last part has
    no item and every part before it has a format and either its own
    position as index, all of them, or a name, all of them: positional
    placeholders are numbered from 0 without gaps and are never returned
    together with named ones. *)
Theorem split_query_shape (query : bytes) (encoding : bytes -> option string)
    (parts : list Part) :
  split_query query encoding = Returns parts ->
  exists front final,
    parts = front ++ [final] /\ part1 final = ItemNone
    /\ ((forall j p, front !! j = Some p ->
           part1 p = ItemInt j /\ is_Some (part2 p))
        \/ (forall j p, front !! j = Some p ->
              (exists name, part1 p = ItemBytes name) /\ is_Some (part2 p))).
Proof.
  intros Hv.
  destruct (split_query_returns _ _ _ Hv) as (ty & front & final & -> & Hfinal & Hfront).
  exists front, final. split; [reflexivity|]. split; [assumption|].
  destruct ty; [left | right]; exact Hfront.
Qed.

Lemma split_query_shape_witness :
  exists front final,
    placed 0 named_query ++ [mkPart (b_ " from t") ItemNone None]
    = front ++ [final] /\ part1 final = ItemNone
    /\ ((forall j p, front !! j = Some p ->
           part1 p = ItemInt j /\ is_Some (part2 p))
        \/ (forall j p, front !! j = Some p ->
              (exists name, part1 p = ItemBytes name) /\ is_Some (part2 p))).
Proof.
  apply (split_query_shape (template named_query (b_ " from t")) ascii_decode).
  vm_compute. reflexivity.
Defined.

(** ** [query2pg] *)

(** Fragments joined by [$i], [$i+1], ... *)
Fixpoint join_numbered (i : nat) (texts : list bytes) (final : bytes) : bytes :=
  match texts with
  | [] => final
  | text :: texts' => text ++ dollar i ++ join_numbered (S i) texts' final
  end.

(** Fragments joined by [$n+1] for the [n] of [nums]. *)
Fixpoint join_with (nums : list nat) (texts : list bytes) (final : bytes) : bytes :=
  match texts, nums with
  | text :: texts', n :: nums' =>
      text ++ dollar (n + 1) ++ join_with nums' texts' final
  | _, _ => final
  end.

Lemma and_then_returns {A B} (m : Outcome A) (k : A -> Outcome B) (b : B) :
  and_then m k = Returns b -> exists a, m = Returns a /\ k a = Returns b.
Proof. destruct m; simpl; [eauto | discriminate]. Qed.

Lemma assemble_returns (parts : list Part) (r : list bytes * list (option bool)) :
  assemble parts = Returns r ->
  snd r = map part2 parts
  /\ exists nums,
       Forall2 (fun p n => part1 p = ItemInt n) parts nums
       /\ forall final,
            concat (fst r ++ [final]) = join_with nums (map part0 parts) final.
Proof.
  revert r. induction parts as [|p parts IH]; intros r; cbn [assemble].
  - intros [= <-]. split; [reflexivity|]. exists []. split; [constructor|].
    intros final. simpl. now rewrite app_nil_r.
  - destruct (part1 p) as [| n | |] eqn:Ep; try discriminate.
    intros H. apply and_then_returns in H as (r' & Hr' & [= <-]).
    destruct (IH r' Hr') as (Hf & nums & Hn & Hj).
    split; [simpl; now rewrite Hf|].
    exists (n :: nums). split; [now constructor|].
    intros final. simpl. now rewrite Hj.
Qed.

Lemma join_with_seq (texts : list bytes) (final : bytes) :
  forall i, join_with (seq i (length texts)) texts final
            = join_numbered (i + 1) texts final.
Proof.
  induction texts as [|t texts IH]; intros i; simpl; [reflexivity|].
  now rewrite IH.
Qed.

Lemma Forall2_numbers (front : list Part) (nums : list nat) :
  (forall j p, front !! j = Some p -> part1 p = ItemInt j /\ is_Some (part2 p)) ->
  Forall2 (fun p n => part1 p = ItemInt n) front nums ->
  nums = seq 0 (length front).
Proof.
  intros Hfront Hn. apply list_eq. intros j.
  destruct (front !! j) as [p|] eqn:Ep.
  - destruct (Forall2_lookup_l _ _ _ _ _ Hn Ep) as (n & Hj & Hpn).
    destruct (Hfront j p Ep) as [Hi _]. rewrite Hpn in Hi. injection Hi as ->.
    rewrite Hj. symmetry. apply lookup_seq. split; [reflexivity|].
    now apply lookup_lt_Some in Ep.
  - apply lookup_ge_None in Ep.
    rewrite (proj2 (lookup_ge_None nums j))
      by (rewrite <- (Forall2_length _ _ _ Hn); exact Ep).
    symmetry. apply lookup_ge_None. now rewrite length_seq.
Qed.

(** X20: with a sequence of parameters, whatever the query: when [query2pg]
    returns, [order] is [None], there is one format per parameter, each of
    them set, and the SQL is fragments joined by [$1], [$2], ... up to the
    number of parameters, in this order. *)
Theorem query2pg_sequence {V} (query : bytes) (vars : list V)
    (codec : bytes -> option string) (sql : bytes)
    (formats : list (option bool)) (order : option (list string)) :
  query2pg (QueryBytes query) (VarsSequence vars) codec
  = Returns (sql, formats, order) ->
  order = None
  /\ length formats = length vars
  /\ Forall is_Some formats
  /\ exists texts final,
       length texts = length vars /\ sql = join_numbered 1 texts final.
Proof.
  unfold query2pg. intros H.
  apply and_then_returns in H as (parts & Hsplit & H).
  apply and_then_returns in H as ([numbered_parts ord] & Hnum & H).
  apply and_then_returns in H as (r & Hasm & H).
  destruct (Z.eqb _ _) eqn:Elen in Hnum; [|discriminate]. cbn [negb] in Hnum.
  apply Z.eqb_eq in Elen.
  apply and_then_returns in Hnum as (named & Hnamed & Hnum).
  destruct named; [discriminate|]. injection Hnum as <- <-.
  destruct (split_query_returns _ _ _ Hsplit)
    as (ty & front & final & -> & Hfinal & Hshape).
  rewrite removelast_last in Hasm. rewrite last_snoc in H.
  cbn [fst snd] in Hasm, H. injection H as <- <- <-.
  rewrite length_app in Elen. cbn [length] in Elen.
  assert (Hlen : length vars = length front) by lia. clear Elen.
  destruct (assemble_returns _ _ Hasm) as (Hfmt & nums & Hnums & Hsql).
  assert (Hpos : forall j p, front !! j = Some p ->
                             part1 p = ItemInt j /\ is_Some (part2 p)).
  { destruct ty; [exact Hshape|].
    destruct front as [|p0 front].
    - intros j p Hj. discriminate Hj.
    - destruct vars as [|v vars]; [discriminate Hlen|].
      cbn [nonempty first_item app and_then] in Hnamed.
      destruct (Hshape 0 p0 eq_refl) as [[name Hname] _].
      rewrite Hname in Hnamed. discriminate Hnamed. }
  split; [reflexivity|]. split; [|split].
  - rewrite Hfmt, length_map. lia.
  - rewrite Hfmt. apply List.Forall_map, Forall_lookup.
    intros j p Hj. now destruct (Hpos j p Hj).
  - exists (map part0 front), (part0 final). split.
    + rewrite length_map. lia.
    + rewrite Hsql, (Forall2_numbers front nums Hpos Hnums).
      rewrite <- (length_map part0 front). apply (join_with_seq _ _ 0).
Qed.

Lemma query2pg_sequence_witness :
  @None (list string) = None
  /\ length [Some false; Some true] = length [10; 20]
  /\ Forall is_Some [Some false; Some true]
  /\ exists texts final,
       length texts = length [10; 20]
       /\ b_ "select $1, 10 % $2 from t" = join_numbered 1 texts final.
Proof.
  apply (query2pg_sequence (template ascii_query (b_ " from t")) [10; 20] ascii_decode).
  vm_compute. reflexivity.
Defined.

Lemma assemble_placed (items : list (bytes * Placeholder)) :
  Forall (fun it => ph_name (snd it) = None) items ->
  forall i,
    assemble (placed i items)
    = Returns (flat_map (fun '(n, it) => [fst it; dollar (n + 1)])
                 (combine (seq i (length items)) items),
               map (fun it => Some (ph_binary (snd it))) items).
Proof.
  induction 1 as [|[text p] items Hp _ IH]; intros i; simpl; [reflexivity|].
  simpl in Hp. unfold item_of. rewrite Hp, IH. reflexivity.
Qed.

Lemma concat_placed (items : list (bytes * Placeholder)) (final : bytes) :
  forall i,
    concat (flat_map (fun '(n, it) => [fst it; dollar (n + 1)])
              (combine (seq i (length items)) items) ++ [final])
    = join_numbered (i + 1) (map fst items) final.
Proof.
  induction items as [|[text p] items IH]; intros i; simpl.
  - now rewrite app_nil_r.
  - now rewrite IH.
Qed.

Lemma length_placed (items : list (bytes * Placeholder)) :
  forall i, length (placed i items) = length items.
Proof.
  induction items as [|[text p] items IH]; intros i; simpl; [reflexivity|].
  now rewrite IH.
Qed.

(** X21: the whole conversion of a positional query.  Written with [%s]
    and [%b] only, every literal [%] doubled, and given as many parameters
    as placeholders, a query comes back with its fragments unescaped and
    joined by [$1], [$2], ..., with one format per placeholder (true for
    [%b]) and no order. *)
Theorem query2pg_positional {V} (codec : bytes -> option string)
    (items : list (bytes * Placeholder)) (final : bytes) (vars : list V) :
  Forall (fun it => ph_name (snd it) = None) items ->
  length vars = length items ->
  query2pg (QueryBytes (template items final)) (VarsSequence vars) codec
  = Returns (join_numbered 1 (map fst items) final,
             map (fun it => Some (ph_binary (snd it))) items,
             None).
Proof.
  intros Hpos Hlen. unfold query2pg.
  rewrite <- (app_nil_r (template items final)).
  rewrite (split_query_written codec TypeInt _ _ [] ); [|..|reflexivity].
  - rewrite app_nil_r.
    cbn [and_then]. rewrite length_app, length_placed. simpl length.
    replace (Z.of_nat (length vars) =? Z.of_nat (length items + 1) - 1)%Z
      with true by (symmetry; apply Z.eqb_eq; lia).
    cbn [negb].
    assert (Hnamed :
              (if nonempty vars
               then i <- first_item (placed 0 items ++ [mkPart final ItemNone None]);;
                    Returns (negb (is_int i))
               else Returns false) = Returns false).
    { destruct vars as [|v vars]; [reflexivity|].
      destruct Hpos as [|[text p] items Hp _]; [discriminate Hlen|].
      simpl in Hp. simpl. unfold item_of. now rewrite Hp. }
    rewrite Hnamed. cbn [and_then fst snd].
    rewrite removelast_last, last_snoc, (assemble_placed items Hpos 0).
    cbn [and_then fst snd part0].
    now rewrite (concat_placed items final 0).
  - eapply Forall_impl; [exact Hpos|]. intros [text p] Hp. simpl in *.
    unfold well_named. now rewrite Hp.
  - eapply Forall_impl; [exact Hpos|]. intros [text p] Hp. simpl in *.
    unfold ph_type. now rewrite Hp.
Qed.

Lemma query2pg_positional_witness :
  query2pg (QueryBytes (template ascii_query (b_ " from t")))
    (VarsSequence [10; 20]) ascii_decode
  = Returns (join_numbered 1 (map fst ascii_query) (b_ " from t"),
             map (fun it => Some (ph_binary (snd it))) ascii_query,
             None).
Proof.
  apply (query2pg_positional ascii_decode ascii_query (b_ " from t") [10; 20]);
    unfold ascii_query; items_ok.
Defined.

(** ** Named placeholders and [reorder_params] *)

Lemma lookup_name_Some {A} (d : list (string * A)) (name : string) (v : A) :
  lookup_name name d = Some v -> exists i, d !! i = Some (name, v).
Proof.
  induction d as [|[k w] d IH]; simpl; [discriminate|].
  destruct (String.eqb k name) eqn:E.
  - apply String.eqb_eq in E. subst k. intros [= ->]. now exists 0.
  - intros H. destruct (IH H) as [i Hi]. now exists (S i).
Qed.

Lemma lookup_name_None {A} (d : list (string * A)) (name : string) :
  lookup_name name d = None -> name ∉ map fst d.
Proof.
  induction d as [|[k w] d IH]; simpl.
  - intros _ H. inversion H.
  - destruct (String.eqb k name) eqn:E; [discriminate|].
    apply String.eqb_neq in E. intros H Hin.
    apply elem_of_cons in Hin as [-> | Hin]; [congruence | now apply IH].
Qed.

(** [seen] and [order] go together: the names of [seen] are [order], without
    repetition, and each name is recorded with its place in [order]. *)
Definition seen_ok (seen : list (string * (nat * option bool)))
    (order : list string) : Prop :=
  map fst seen = order
  /\ NoDup order
  /\ forall i e, seen !! i = Some e -> fst (snd e) = i.

Lemma seen_ok_snoc seen order name fmt :
  seen_ok seen order ->
  lookup_name name seen = None ->
  seen_ok (seen ++ [(name, (length seen, fmt))]) (order ++ [name]).
Proof.
  intros (Hmap & Hnd & Hidx) Hnew. repeat split.
  - rewrite map_app, Hmap. reflexivity.
  - apply NoDup_app. split; [assumption|]. split.
    + intros x Hx Hin. apply list_elem_of_singleton in Hin. subst x.
      apply lookup_name_None in Hnew. now rewrite Hmap in Hnew.
    + apply NoDup_singleton.
  - intros i e Hi. apply lookup_app_Some in Hi as [Hi | [Hle Hi]].
    + now apply Hidx.
    + destruct (i - length seen) as [|k] eqn:E; [|discriminate].
      injection Hi as <-. simpl. lia.
Qed.

Lemma seen_ok_lookup seen order name n fmt :
  seen_ok seen order ->
  lookup_name name seen = Some (n, fmt) ->
  order !! n = Some name.
Proof.
  intros (Hmap & _ & Hidx) Hl.
  apply lookup_name_Some in Hl as [i Hi].
  pose proof (Hidx i _ Hi) as Hn. simpl in Hn. subst n.
  rewrite <- Hmap. change (map fst seen) with (fst <$> seen).
  now rewrite list_lookup_fmap, Hi.
Qed.

(** A part after the numbering: the same fragment and format, and the
    place in [order] of the name it had. *)
Definition renumbered (codec : bytes -> option string) (order : list string)
    (part part' : Part) : Prop :=
  exists b name n,
    part1 part = ItemBytes b /\ codec b = Some name
    /\ part1 part' = ItemInt n /\ order !! n = Some name
    /\ part0 part' = part0 part /\ part2 part' = part2 part.

Lemma renumbered_ext codec order ext part part' :
  renumbered codec order part part' ->
  renumbered codec (order ++ ext) part part'.
Proof.
  intros (b & name & n & H1 & H2 & H3 & H4 & H5).
  exists b, name, n.
  repeat (split; [first [assumption | now apply lookup_app_l_Some]|]).
  assumption.
Qed.

Lemma number_names_returns (codec : bytes -> option string) (parts : list Part) :
  forall seen order r,
    seen_ok seen order ->
    number_names codec parts seen order = Returns r ->
    NoDup (snd r)
    /\ (exists ext, snd r = order ++ ext)
    /\ Forall2 (renumbered codec (snd r)) parts (fst r).
Proof.
  induction parts as [|part parts IH]; intros seen order r Hok; cbn [number_names].
  - intros [= <-]. simpl. split; [apply Hok|]. split; [|constructor].
    exists []. now rewrite app_nil_r.
  - destruct (part1 part) as [| |b|] eqn:Ep; try discriminate.
    unfold decode_with. destruct (codec b) as [name|] eqn:Ec; [|discriminate].
    cbn [and_then].
    destruct (lookup_name name seen) as [[n fmt]|] eqn:El.
    + destruct (negb _); [discriminate|].
      intros H. apply and_then_returns in H as (r' & Hr' & [= <-]).
      destruct (IH _ _ _ Hok Hr') as (Hnd & [ext Hext] & Hall).
      cbn [fst snd]. split; [assumption|]. split; [eauto|].
      constructor; [|assumption].
      assert (Ho : snd r' !! n = Some name).
      { rewrite Hext. apply lookup_app_l_Some.
        eapply seen_ok_lookup; eassumption. }
      exists b, name, n. repeat (split; [first [assumption | reflexivity]|]).
      reflexivity.
    + intros H. apply and_then_returns in H as (r' & Hr' & [= <-]).
      pose proof (seen_ok_snoc _ _ name (part2 part) Hok El) as Hok'.
      destruct (IH _ _ _ Hok' Hr') as (Hnd & [ext Hext] & Hall).
      cbn [fst snd]. split; [assumption|]. split.
      { exists ([name] ++ ext). now rewrite Hext, <- app_assoc. }
      constructor; [|assumption].
      assert (Ho : snd r' !! length seen = Some name).
      { rewrite Hext, <- app_assoc. destruct Hok as (Hmap & _).
        rewrite <- Hmap, lookup_app_r by (rewrite length_map; lia).
        now rewrite length_map, Nat.sub_diag. }
      exists b, name, (length seen).
      repeat (split; [first [assumption | reflexivity]|]). reflexivity.
Qed.

Lemma items_of_Some {V} (params : list (string * V)) (order : list string)
    (args : list V) :
  items_of params order = Some args ->
  Forall2 (fun item v => lookup_name item params = Some v) order args.
Proof.
  revert args. induction order as [|item order IH]; intros args; simpl.
  - intros [= <-]. constructor.
  - destruct (lookup_name item params) as [v|] eqn:El; [|discriminate].
    destruct (items_of params order) as [vs|]; [|discriminate].
    intros [= <-]. constructor; auto.
Qed.

Lemma items_of_None {V} (params : list (string * V)) (order : list string) :
  items_of params order = None ->
  exists item, In item order /\ lookup_name item params = None.
Proof.
  induction order as [|item order IH]; simpl; [discriminate|].
  destruct (lookup_name item params) as [v|] eqn:El.
  - destruct (items_of params order) as [vs|]; [discriminate|].
    intros _. destruct (IH eq_refl) as (i & Hi & Hl). eauto.
  - intros _. eauto.
Qed.

Lemma lookup_name_app_l {A} (d d' : list (string * A)) (name : string) (v : A) :
  lookup_name name d = Some v -> lookup_name name (d ++ d') = Some v.
Proof.
  induction d as [|[k w] d IH]; simpl; [discriminate|].
  now destruct (String.eqb k name).
Qed.

Lemma lookup_name_snoc {A} (d : list (string * A)) (name : string) (v : A) :
  lookup_name name d = None -> lookup_name name (d ++ [(name, v)]) = Some v.
Proof.
  induction d as [|[k w] d IH]; simpl.
  - now rewrite String.eqb_refl.
  - now destruct (String.eqb k name).
Qed.

Lemma format_eqb_eq (a b : option bool) : format_eqb a b = true -> a = b.
Proof. destruct a as [[]|], b as [[]|]; simpl; congruence. Qed.

(** At the end of the loop [seen] holds, for the name of every part, the
    format of that part. *)
Lemma number_names_formats (codec : bytes -> option string) (parts : list Part) :
  forall seen order r,
    number_names codec parts seen order = Returns r ->
    exists seen',
      (forall name e, lookup_name name seen = Some e ->
                      lookup_name name seen' = Some e)
      /\ Forall (fun part =>
                   exists b name n,
                     part1 part = ItemBytes b /\ codec b = Some name
                     /\ lookup_name name seen' = Some (n, part2 part))
           parts.
Proof.
  induction parts as [|part parts IH]; intros seen order r; cbn [number_names].
  - intros _. exists seen. split; [auto | constructor].
  - destruct (part1 part) as [| |b|] eqn:Ep; try discriminate.
    unfold decode_with. destruct (codec b) as [name|] eqn:Ec; [|discriminate].
    cbn [and_then].
    destruct (lookup_name name seen) as [[n fmt]|] eqn:El.
    + destruct (format_eqb fmt (part2 part)) eqn:Ef; [|discriminate].
      apply format_eqb_eq in Ef. subst fmt. cbn [negb].
      intros H. apply and_then_returns in H as (r' & Hr' & _).
      destruct (IH _ _ _ Hr') as (seen' & Hext & Hall).
      exists seen'. split; [assumption|]. constructor; [|assumption].
      exists b, name, n. auto.
    + intros H. apply and_then_returns in H as (r' & Hr' & _).
      destruct (IH _ _ _ Hr') as (seen' & Hext & Hall).
      exists seen'. split.
      * intros name' e He. apply Hext. now apply lookup_name_app_l.
      * constructor; [|assumption].
        exists b, name, (length seen). split; [assumption|]. split; [assumption|].
        apply Hext. now apply lookup_name_snoc.
Qed.

(** X22: named parameters reach the right [$n].  When a query with named
    placeholders is converted with a mapping and the mapping is then put in
    the returned order, no name is listed twice in that order, there is one
    format per placeholder as written, and the SQL is the fragments joined
    by [$n+1] where, for each placeholder, the argument at place [n] is the
    value the mapping gives to the name written there. *)
Theorem named_parameters_line_up {V} (query : bytes)
    (codec : bytes -> option string) (params : list (string * V))
    (front : list Part) (final : Part) (sql : bytes)
    (formats : list (option bool)) (order : list string) (args : list V) :
  split_query query codec = Returns (front ++ [final]) ->
  query2pg (QueryBytes query) (VarsMapping params) codec
  = Returns (sql, formats, Some order) ->
  reorder_params params order = Returns args ->
  NoDup order
  /\ formats = map part2 front
  /\ exists nums,
       sql = join_with nums (map part0 front) (part0 final)
       /\ Forall2 (fun part n =>
                     exists b name v,
                       part1 part = ItemBytes b /\ codec b = Some name
                       /\ lookup_name name params = Some v
                       /\ args !! n = Some v)
            front nums.
Proof.
  intros Hsplit H Hargs. unfold query2pg in H. rewrite Hsplit in H.
  cbn [and_then] in H. rewrite removelast_last, last_snoc in H.
  apply and_then_returns in H as ([parts' ord] & Hnum & H).
  apply and_then_returns in H as (r & Hasm & H).
  cbn [fst snd] in Hasm, H. injection H as <- <- ->.
  apply and_then_returns in Hnum as (positional & _ & Hnum).
  destruct positional; [discriminate|].
  apply and_then_returns in Hnum as (rn & Hrn & [= <- <-]).
  assert (Hok : seen_ok [] []).
  { split; [reflexivity|]. split; [constructor|]. intros i e Hi. discriminate Hi. }
  destruct (number_names_returns codec front [] [] rn Hok Hrn)
    as (Hnd & _ & Hall).
  destruct (assemble_returns _ _ Hasm) as (Hfmt & nums & Hnums & Hsql).
  unfold reorder_params in Hargs.
  destruct (items_of params (snd rn)) as [args'|] eqn:Ei; [|discriminate].
  injection Hargs as ->. apply items_of_Some in Ei.
  assert (Hsame : map part0 (fst rn) = map part0 front
                  /\ map part2 (fst rn) = map part2 front).
  { clear -Hall. induction Hall as [|p p' l l' Hp _ [IH0 IH2]]; [now split|].
    destruct Hp as (b & name & n & _ & _ & _ & _ & H0 & H2).
    simpl. now rewrite H0, H2, IH0, IH2. }
  destruct Hsame as [Hsame0 Hsame2].
  split; [assumption|]. split; [now rewrite Hfmt|].
  exists nums. split; [now rewrite Hsql, Hsame0|].
  eapply Forall2_trans; [|exact Hall|exact Hnums].
  intros part part' n (b & name & n' & Hb & Hc & Hn' & Ho & _) Hn.
  rewrite Hn' in Hn. injection Hn as ->.
  destruct (Forall2_lookup_l _ _ _ _ _ Ei Ho) as (v & Hv & Hl).
  exists b, name, v. auto.
Qed.

Definition named_parts : list Part := placed 0 named_query.

Lemma named_parameters_line_up_witness :
  NoDup ["x"%string; "y"%string]
  /\ [Some false; Some true; Some false] = map part2 named_parts
  /\ exists nums,
       b_ "select $1, $2 + $1 from t"
       = join_with nums (map part0 named_parts) (b_ " from t")
       /\ Forall2 (fun part n =>
                     exists b name v,
                       part1 part = ItemBytes b /\ ascii_decode b = Some name
                       /\ lookup_name name [("y"%string, 20); ("x"%string, 10)] = Some v
                       /\ [10; 20] !! n = Some v)
            named_parts nums.
Proof.
  apply (named_parameters_line_up
           (template named_query (b_ " from t")) ascii_decode
           [("y"%string, 20); ("x"%string, 10)]
           named_parts (mkPart (b_ " from t") ItemNone None));
    vm_compute; reflexivity.
Defined.

(** X23: [reorder_params] returns one value per name of [order], each the
    value the mapping gives to that name; it raises exactly when some name
    of [order] is not a key, and the [ProgrammingError] then names those
    names of [order] that are not keys, and no others. *)
Theorem reorder_params_cases {V} (params : list (string * V))
    (order : list string) :
  match reorder_params params order with
  | Returns args =>
      Forall2 (fun item v => lookup_name item params = Some v) order args
  | Raises e =>
      exists missing,
        e = ProgrammingError (ParameterMissing missing)
        /\ missing <> []
        /\ forall i, In i missing <-> In i order /\ lookup_name i params = None
  end.
Proof.
  unfold reorder_params.
  destruct (items_of params order) as [args|] eqn:E.
  - now apply items_of_Some.
  - eexists. split; [reflexivity|].
    assert (Hin : forall i,
               In i (List.filter (fun i => negb (is_key params i)) order)
               <-> In i order /\ lookup_name i params = None).
    { intros i. rewrite List.filter_In. unfold is_key.
      destruct (lookup_name i params); simpl; intuition congruence. }
    split; [|exact Hin].
    destruct (items_of_None _ _ E) as (i & Hi & Hl).
    intros Hnil. pose proof (proj2 (Hin i) (conj Hi Hl)) as Hm.
    rewrite Hnil in Hm. exact Hm.
Qed.

(** X24: a name has one format.  When a query with named placeholders is
    converted with a mapping, two placeholders whose names decode to the
    same string have the same format: [%(x)s] and [%(x)b] are never both
    accepted. *)
Theorem same_name_same_format {V} (query : bytes)
    (codec : bytes -> option string) (params : list (string * V))
    (front : list Part) (final : Part)
    (result : bytes * list (option bool) * option (list string))
    (p p' : Part) (b b' : bytes) (name : string) :
  split_query query codec = Returns (front ++ [final]) ->
  query2pg (QueryBytes query) (VarsMapping params) codec = Returns result ->
  In p front -> In p' front ->
  part1 p = ItemBytes b -> part1 p' = ItemBytes b' ->
  codec b = Some name -> codec b' = Some name ->
  part2 p = part2 p'.
Proof.
  intros Hsplit H Hp Hp' Hb Hb' Hc Hc'. unfold query2pg in H.
  rewrite Hsplit in H. cbn [and_then] in H. rewrite removelast_last in H.
  apply and_then_returns in H as (numbered_parts & Hnum & _).
  apply and_then_returns in Hnum as (positional & _ & Hnum).
  destruct positional; [discriminate|].
  apply and_then_returns in Hnum as (rn & Hrn & _).
  destruct (number_names_formats codec front [] [] rn Hrn) as (seen & _ & Hall).
  rewrite List.Forall_forall in Hall.
  destruct (Hall p Hp) as (c & nm & n & Hc1 & Hc2 & Hl).
  destruct (Hall p' Hp') as (c' & nm' & n' & Hc1' & Hc2' & Hl').
  rewrite Hb in Hc1. injection Hc1 as <-.
  rewrite Hb' in Hc1'. injection Hc1' as <-.
  rewrite Hc in Hc2. injection Hc2 as <-.
  rewrite Hc' in Hc2'. injection Hc2' as <-.
  rewrite Hl in Hl'. now injection Hl' as _ ->.
Qed.

Lemma same_name_same_format_witness :
  part2 (mkPart (b_ "select ") (ItemBytes (b_ "x")) (Some false))
  = part2 (mkPart (b_ " + ") (ItemBytes (b_ "x")) (Some false)).
Proof.
  apply (same_name_same_format
           (template named_query (b_ " from t")) ascii_decode
           [("y"%string, 20); ("x"%string, 10)]
           named_parts (mkPart (b_ " from t") ItemNone None)
           (b_ "select $1, $2 + $1 from t",
            [Some false; Some true; Some false],
            Some ["x"%string; "y"%string])
           _ _ (b_ "x") (b_ "x") "x"%string);
    try (vm_compute; reflexivity);
    vm_compute; auto.
Defined.

(** ** What the conversion never raises *)

(** Every match starts at a [%] of the query. *)
Definition anchored (query : bytes) (p : Part) : Prop :=
  match part1 p with
  | ItemMatch m => exists t, drop (fst (span0 m)) query = PERCENT :: t
  | _ => True
  end.

Lemma re_placeholder_percent (c : Byte.byte) (s : bytes)
    (g : bytes * option bytes) :
  _re_placeholder (c :: s) = Some g -> c = PERCENT.
Proof.
  cbn [_re_placeholder]. destruct (Byte.eqb c PERCENT) eqn:E; [|discriminate].
  intros _. now apply byte_eqb_eq.
Qed.

Lemma pieces_anchored (s : bytes) :
  forall pre skip acc,
    Forall (anchored (pre ++ s)) (pieces (length pre) skip acc s).
Proof.
  induction s as [|c s IH]; intros pre skip acc; cbn [pieces].
  - constructor; [exact I | constructor].
  - assert (Hq : pre ++ c :: s = (pre ++ [c]) ++ s) by now rewrite <- app_assoc.
    assert (Hl : S (length pre) = length (pre ++ [c]))
      by (rewrite length_app; simpl; lia).
    destruct skip; [|rewrite Hq, Hl; apply IH].
    destruct (_re_placeholder (c :: s)) as [[g0 g1]|] eqn:Em;
      [|rewrite Hq, Hl; apply IH].
    constructor; [|rewrite Hq, Hl; apply IH].
    unfold anchored. cbn [part1 span0 fst].
    exists s. rewrite drop_app_length.
    now rewrite (re_placeholder_percent _ _ _ Em).
Qed.

Lemma anchored_set_part0 (query a : bytes) (p : Part) :
  anchored query p -> anchored query (set_part0 a p).
Proof. exact id. Qed.

Lemma first_word_percent (t : bytes) :
  first_word (PERCENT :: t) = Returns (PERCENT :: take_while not_space t).
Proof. reflexivity. Qed.

(** The exceptions of the library and of the codec, as against those of a
    slip in the code ([IndexError], [AttributeError], adding to something
    that is no number). *)
Definition meant (e : QueryExn) : Prop :=
  match e with
  | TypeError AddToNotInt => False
  | TypeError _ => True
  | ProgrammingError _ => True
  | UnicodeDecodeError => True
  | Builtin _ => False
  end.

Lemma validate_raises (encoding : bytes -> option string) (query : bytes)
    (rest : list Part) :
  forall part done phtype e,
    raw part rest ->
    Forall (anchored query) (part :: rest) ->
    validate encoding query done phtype part rest = Raises e ->
    e = UnicodeDecodeError \/ exists why, e = ProgrammingError why.
Proof.
  induction rest as [|next rest IH]; intros part done phtype e Hraw Hanch Hv.
  - simpl in Hraw. cbn [validate] in Hv. rewrite Hraw in Hv. discriminate.
  - destruct Hraw as [[m Hm] Hraw]. cbn [validate] in Hv. rewrite Hm in Hv.
    apply Forall_cons in Hanch as [Hpart Hanch].
    destruct (bytes_eqb (group0 m) [PERCENT; PERCENT]).
    { eapply IH; [| |exact Hv].
      - now apply raw_set_part0.
      - apply Forall_cons in Hanch as [Hnext Hanch].
        constructor; [|assumption]. now apply anchored_set_part0. }
    destruct (bytes_eqb (group0 m) [PERCENT; LPAREN]).
    { unfold anchored in Hpart. rewrite Hm in Hpart. destruct Hpart as [t Ht].
      rewrite Ht, first_word_percent in Hv. cbn [and_then] in Hv.
      unfold decode_with in Hv. destruct (encoding _).
      - injection Hv as <-. eauto.
      - injection Hv as <-. auto. }
    destruct (bytes_eqb (group0 m) [PERCENT; SPACE]).
    { injection Hv as <-. eauto. }
    destruct (negb _).
    { unfold decode_with in Hv. destruct (encoding _).
      - injection Hv as <-. eauto.
      - injection Hv as <-. auto. }
    match type of Hv with (if ?b then _ else _) = _ => destruct b end.
    { injection Hv as <-. eauto. }
    eapply IH; [exact Hraw|exact Hanch|exact Hv].
Qed.

Lemma split_query_raises (query : bytes) (encoding : bytes -> option string)
    (e : QueryExn) :
  split_query query encoding = Raises e ->
  e = UnicodeDecodeError \/ exists why, e = ProgrammingError why.
Proof.
  rewrite split_query_pieces. intros Hv.
  pose proof (pieces_anchored query [] 0 []) as Hanch.
  change ([] ++ query) with query in Hanch. change (length []) with 0 in Hanch.
  destruct (pieces 0 0 [] query) as [|part rest] eqn:E.
  { now apply pieces_nonempty in E. }
  apply pieces_raw in E. cbn [validate_all] in Hv.
  eapply validate_raises; eassumption.
Qed.

(** X25: [split_query] raises [ProgrammingError] or, where the bytes of a
    message do not decode, [UnicodeDecodeError], and nothing else: the
    index [i + 1] is always in range when a [%%] is merged, every item the
    loop looks at is a match or [None], and the word shown for an
    incomplete placeholder always exists. *)
Theorem split_query_raises_only (query : bytes)
    (encoding : bytes -> option string) (e : QueryExn) :
  split_query query encoding = Raises e ->
  e = UnicodeDecodeError \/ exists why, e = ProgrammingError why.
Proof. apply split_query_raises. Qed.

Lemma split_query_raises_only_witness :
  ProgrammingError IncompletePercent = UnicodeDecodeError
  \/ exists why, ProgrammingError IncompletePercent = ProgrammingError why.
Proof.
  apply (split_query_raises_only (b_ "select 10 % 3") ascii_decode).
  vm_compute. reflexivity.
Defined.

Lemma assemble_ints (parts : list Part) :
  Forall (fun p => exists n, part1 p = ItemInt n) parts ->
  exists r, assemble parts = Returns r.
Proof.
  induction 1 as [|p parts [n Hn] _ [r IH]]; cbn [assemble]; [eauto|].
  rewrite Hn, IH. cbn [and_then]. eauto.
Qed.

Lemma number_names_raises (codec : bytes -> option string) (parts : list Part) :
  forall seen order e,
    number_names codec parts seen order = Raises e -> meant e.
Proof.
  induction parts as [|part parts IH]; intros seen order e; cbn [number_names];
    [discriminate|].
  destruct (part1 part) as [| |b|]; try (intros [= <-]; exact I).
  unfold decode_with. destruct (codec b) as [s|]; [|intros [= <-]; exact I].
  cbn [and_then].
  destruct (lookup_name s seen) as [[n fmt]|].
  - destruct (negb _); [intros [= <-]; exact I|].
    destruct (number_names codec parts seen order) eqn:E; [discriminate|].
    intros [= <-]. eapply IH, E.
  - destruct (number_names codec parts _ _) eqn:E; [discriminate|].
    intros [= <-]. eapply IH, E.
Qed.

(** X26: [query2pg] raises only what it means to raise: a [TypeError] for
    the wrong kind of query or parameters (its own, or the codec's when it
    is given an index to decode), a [ProgrammingError], or a
    [UnicodeDecodeError] from the codec.  [parts[0]] and [parts[-1]] always
    exist, and when the loop that writes [$n] is reached every item is a
    number. *)
Theorem query2pg_raises_only {V} (query : PyQuery) (vars : Vars V)
    (codec : bytes -> option string) (e : QueryExn) :
  query2pg query vars codec = Raises e -> meant e.
Proof.
  unfold query2pg. destruct query as [query|]; [|intros [= <-]; exact I].
  destruct (split_query query codec) as [parts|e0] eqn:Hsplit.
  2:{ cbn [and_then]. intros [= <-].
      destruct (split_query_raises _ _ _ Hsplit) as [-> | [why ->]]; exact I. }
  destruct (split_query_returns _ _ _ Hsplit)
    as (ty & front & final & -> & Hfinal & Hshape).
  cbn [and_then]. rewrite removelast_last, last_snoc.
  assert (Hfirst : exists i, first_item (front ++ [final]) = Returns i).
  { destruct front; simpl; eauto. }
  destruct Hfirst as [i0 Hfirst]. rewrite Hfirst. cbn [and_then].
  assert (Hints : all_numbered TypeInt front ->
                  exists r, assemble front = Returns r).
  { intros Hall. apply assemble_ints, Forall_lookup.
    intros j p Hj. destruct (Hall j p Hj) as [Hp _]. eauto. }
  destruct vars as [vars|params|].
  - destruct (Z.eqb _ _) eqn:Elen; [|intros [= <-]; exact I].
    apply Z.eqb_eq in Elen. rewrite length_app in Elen. cbn [length] in Elen.
    cbn [negb].
    assert (Hasm : (if nonempty vars then negb (is_int i0) else false) = false ->
                   exists r, assemble front = Returns r).
    { intros Hnamed. destruct vars as [|v vars].
      - destruct front; [simpl; eauto | simpl in Elen; lia].
      - destruct front as [|p0 front]; [simpl in Elen; lia|].
        simpl in Hfirst. injection Hfirst as <-. simpl in Hnamed.
        apply Hints. destruct ty; [assumption|].
        destruct (Hshape 0 p0 eq_refl) as [[name Hname] _].
        rewrite Hname in Hnamed. discriminate Hnamed. }
    destruct (nonempty vars); cbn [and_then].
    + destruct (negb (is_int i0)); [intros [= <-]; exact I|].
      cbn [and_then fst snd].
      destruct (Hasm eq_refl) as [r ->]. discriminate.
    + cbn [and_then fst snd].
      destruct (Hasm eq_refl) as [r ->]. discriminate.
  - assert (Hnum : forall e,
               (r <- (r <- number_names codec front [] [];;
                      Returns (fst r, Some (snd r)));;
                r0 <- assemble (fst r);;
                Returns (concat (fst r0 ++ [part0 final]), snd r0, snd r))
               = Raises e -> meant e).
    { intros e1. destruct (number_names codec front [] []) as [rn|en] eqn:En.
      - cbn [and_then fst snd].
        assert (Hok : seen_ok [] []).
        { split; [reflexivity|]. split; [constructor|].
          intros j x Hj. discriminate Hj. }
        destruct (number_names_returns codec front [] [] rn Hok En)
          as (_ & _ & Hall).
        assert (Hi : Forall (fun p => exists n, part1 p = ItemInt n) (fst rn)).
        { clear -Hall. induction Hall as [|p p' l l' Hp _ IH]; constructor.
          - destruct Hp as (b & name & n & _ & _ & Hn & _). eauto.
          - exact IH. }
        destruct (assemble_ints _ Hi) as [r ->]. discriminate.
      - cbn [and_then]. intros [= <-]. eapply number_names_raises, En. }
    destruct (nonempty params && (1 <? length (front ++ [final])));
      cbn [and_then].
    + destruct (negb (is_bytes i0)); [intros [= <-]; exact I|]. apply Hnum.
    + apply Hnum.
  - intros [= <-]. exact I.
Qed.

Lemma query2pg_raises_only_witness :
  meant (TypeError DecodeNotBytes).
Proof.
  apply (query2pg_raises_only (V:=nat)
           (QueryBytes (b_ "select %s")) (VarsMapping []) ascii_decode).
  vm_compute. reflexivity.
Defined.
